(** * DFSR helper client, durable reporter and poller

    A shallow embedding of
      - helper/durablereporter.go  (the recovering session),
      - helper/client.go           (the server registry),
      - poller/poller.go           (the interval / on-demand poller),
      - the vector work pool of package helper,
      - cmd/backlog/backlog.go     (the command that uses the client),
    together with the properties of these components that the
    specification states and further properties that the code shows.

    Conventions.  Go's [uint] is taken at 64 bits (as on amd64), a
    natural with wrap-around carried in [Z].  A [time.Time] is its reading of the monotonic clock in
    nanoseconds, a [time.Duration] a signed 64-bit count of nanoseconds.  A
    [Reporter] interface value is represented by the identity of the object
    it points to, because the code compares reporters with [!=].  The remote
    protocol, [NewReporter], [NewLimiter], [NewCacher] and the clock live
    outside these files: they are oracles that answer from the history of
    events so far, and every call to them is recorded in that history. *)

From stdpp Require Import gmap strings list.
From Stdlib Require Import Ascii ZArith Lia.

Set Default Proof Using "Type".

(** ** Shared data *)

(** helper/errors: the package-level error values.  Go compares errors by
    identity, so an error made anywhere else is a different value even when
    its text is the same (config.ErrClosed is such a value). *)
Inductive error : Type :=
| ErrDisconnected
| ErrClosed
| ErrZeroWorkers
| ErrForeign (tag : nat).

#[global] Instance error_eq_dec : EqDecision error.
Proof. solve_decision. Defined.

(** Identity of the object behind a [Reporter] interface value. *)
Definition Reporter := nat.

(** Identity of a [*versionvector.Vector]; 0 stands for nil. *)
Definition VectorPtr := nat.

(** An [ole.GUID], opaque here. *)
Definition GUID := nat.

Definition uint_bits : Z := 64.
Definition uint (z : Z) : Z := (z mod 2 ^ uint_bits)%Z.

Definition maxDuration : Z := (2 ^ 63 - 1)%Z.
Definition minDuration : Z := (- 2 ^ 63)%Z.

(** [t.Sub(u)]: the difference of two clock readings, saturated to the
    range of a Duration. *)
Definition Sub (t u : Z) : Z :=
  let d := (t - u)%Z in
  if (maxDuration <? d)%Z then maxDuration
  else if (d <? minDuration)%Z then minDuration
  else d.

(** Sequential code threads its state through a state monad. *)
Definition State (S A : Type) : Type := S -> A * S.

Definition ret {S A} (a : A) : State S A := fun s => (a, s).

Definition bind {S A B} (m : State S A) (k : A -> State S B) : State S B :=
  fun s => let (a, s') := m s in k a s'.

Notation "'let*' x ':=' m 'in' k" := (bind m (fun x => k))
  (at level 10, x name, m at level 100, k at level 200).
Notation "m ';;' k" := (bind m (fun _ => k))
  (at level 100, k at level 200, right associativity).

(** ** helper/durablereporter.go, one caller at a time *)

Module Durable.

(** The three capability calls that [attempt] is given as closures. *)
Inductive call : Type :=
| CallVector (group : GUID)
| CallBacklog (vector : VectorPtr)
| CallReport (group : GUID) (vector : VectorPtr) (backlog files : bool).

Inductive goroutine : Type :=
| GoRecover (snapshot : Reporter)     (* go r.recover(reporter) *)
| GoClose (old : Reporter).           (* go r.r.Close() *)

Inductive event : Type :=
| EvAction (c : call) (reporter : Reporter) (res : option error)
| EvRecover (snapshot : Reporter)     (* r.recover entered by the caller *)
| EvNow (t : Z)
| EvNewReporter (srv : string) (res : Reporter + error)
| EvGo (g : goroutine).

Record durableReporter : Type := mkDurable {
  server : string;
  interval : Z;
  attempts : Z;
  r : Reporter;
  lastRecovery : Z
}.

Definition set_r (x : Reporter) (d : durableReporter) : durableReporter :=
  mkDurable (server d) (interval d) (attempts d) x (lastRecovery d).

Definition set_lastRecovery (t : Z) (d : durableReporter) : durableReporter :=
  mkDurable (server d) (interval d) (attempts d) (r d) t.

(** State threaded through a call: the reporter's fields and the history. *)
Definition state : Type := durableReporter * list event.

Definition M : Type -> Type := State state.

Definition get_r : M Reporter := fun s => (r (fst s), s).
Definition get_lastRecovery : M Z := fun s => (lastRecovery (fst s), s).
Definition get_interval : M Z := fun s => (interval (fst s), s).
Definition get_attempts : M Z := fun s => (attempts (fst s), s).
Definition get_server : M string := fun s => (server (fst s), s).
Definition put_r (x : Reporter) : M unit := fun s => (tt, (set_r x (fst s), snd s)).
Definition put_lastRecovery (t : Z) : M unit :=
  fun s => (tt, (set_lastRecovery t (fst s), snd s)).
Definition emit (e : event) : M unit := fun s => (tt, (fst s, snd s ++ [e])).

Section WithEnvironment.

(** What the outside answers, given everything that happened before. *)
Variable clock : list event -> Z.
Variable newReporter : list event -> string -> Reporter + error.
Variable perform : list event -> call -> Reporter -> option error.

Definition time_Now : M Z :=
  fun s => let t := clock (snd s) in (t, (fst s, snd s ++ [EvNow t])).

Definition NewReporter (srv : string) : M (Reporter + error) :=
  fun s => let res := newReporter (snd s) srv in
           (res, (fst s, snd s ++ [EvNewReporter srv res])).

Definition action (c : call) (reporter : Reporter) : M (option error) :=
  fun s => let res := perform (snd s) c reporter in
           (res, (fst s, snd s ++ [EvAction c reporter res])).

Definition go (g : goroutine) : M unit := emit (EvGo g).

(** [NewDurableReporter(server, interval, retries)]. *)
Definition NewDurableReporter (srv : string) (ival retries : Z)
    (h : list event) : (durableReporter + error) * list event :=
  let res := newReporter h srv in
  let h1 := h ++ [EvNewReporter srv res] in
  match res with
  | inr e => (inr e, h1)
  | inl rep =>
      let t := clock h1 in
      (inl (mkDurable srv ival (uint (retries + 1)) rep t), h1 ++ [EvNow t])
  end.

(** [func (r *durableReporter) recover(reporter Reporter) (err error)].
    The exclusive lock is held from the first line to the return. *)
Definition recover (reporter : Reporter) : M (option error) :=
  emit (EvRecover reporter) ;;
  let* cur := get_r in
  if decide (cur ≠ reporter) then ret None
  else
    let* now := time_Now in
    let* last := get_lastRecovery in
    let* ival := get_interval in
    if (Sub now last <? ival)%Z then ret None
    else
      let* srv := get_server in
      let* res := NewReporter srv in
      let* err :=
        match res with
        | inl fresh => go (GoClose cur) ;; put_r fresh ;; ret None
        | inr e => ret (Some e)
        end in
      let* stamp := time_Now in
      put_lastRecovery stamp ;;
      ret err.

(** [func (r *durableReporter) assess(attempt, reporter, err)]. *)
Definition assess (attempt : Z) (reporter : Reporter) (err : option error)
    : M (bool * option error) :=
  match err with
  | None => ret (false, err)
  | Some e =>
      if decide (e = ErrClosed) then ret (false, err)
      else
        let* n := get_attempts in
        if (n <=? uint (attempt + 1))%Z then
          go (GoRecover reporter) ;; ret (false, err)
        else
          let* rerr := recover reporter in
          match rerr with
          | Some _ => ret (true, rerr)
          | None => ret (true, err)
          end
  end.

(** [func (r *durableReporter) attempt(action reporterAction) (err error)]:
    first the loop, which runs [i] from 0 while [i < r.attempts];
    [remaining] is [r.attempts - i], so the loop ends when it is 0.  [i + 1]
    cannot wrap, [i] being below [r.attempts]. *)
Fixpoint attempt_loop (c : call) (remaining : nat) (i : Z)
    (err : option error) : M (option error) :=
  match remaining with
  | O => ret err
  | S remaining' =>
      let* reporter := get_r in
      let* err1 := action c reporter in
      let* verdict := assess i reporter err1 in
      let (reattempt, err2) := (verdict : bool * option error) in
      if negb reattempt then ret err2
      else attempt_loop c remaining' (i + 1)%Z err2
  end.

Definition attempt (c : call) : M (option error) :=
  let* n := get_attempts in
  attempt_loop c (Z.to_nat n) 0%Z None.

(** The capability calls: each hands its closure to [attempt]. *)
Definition Vector (group : GUID) : M (option error) :=
  attempt (CallVector group).

Definition Backlog (vector : VectorPtr) : M (option error) :=
  attempt (CallBacklog vector).

Definition Report (group : GUID) (vector : VectorPtr) (backlog files : bool)
    : M (option error) :=
  attempt (CallReport group vector backlog files).

End WithEnvironment.

(** Counting what happened in a history. *)
Definition is_action (e : event) : bool :=
  match e with EvAction _ _ _ => true | _ => false end.
Definition is_blocking_recover (e : event) : bool :=
  match e with EvRecover _ => true | _ => false end.
Definition is_background_recover (e : event) : bool :=
  match e with EvGo (GoRecover _) => true | _ => false end.
Definition is_construction (e : event) : bool :=
  match e with EvNewReporter _ _ => true | _ => false end.

Definition count (p : event -> bool) (h : list event) : nat :=
  length (filter (fun e => p e = true) h).

Definition actions (h : list event) : nat := count is_action h.
Definition blocking_recoveries (h : list event) : nat := count is_blocking_recover h.
Definition background_recoveries (h : list event) : nat := count is_background_recover h.
Definition constructions (h : list event) : nat := count is_construction h.

(** Every recreation attempt the call set off, waited for or not. *)
Definition recreations_triggered (h : list event) : nat :=
  blocking_recoveries h + background_recoveries h.

(** Small environments to run the code in. *)

(** A clock that stands still at [t]. *)
Definition frozen_clock (t : Z) : list event -> Z := fun _ => t.

(** A server that is always reachable: every construction yields an
    object that did not exist before. *)
Definition reachable : list event -> string -> Reporter + error :=
  fun h _ => inl (constructions h).


(** Remote calls that all fail with the same error. *)
Definition failing (e : error) : list event -> call -> Reporter -> option error :=
  fun _ _ _ => Some e.

End Durable.

(** ** helper/durablereporter.go, many failing callers at once

    Goroutines are interleaved one statement at a time.  Each caller takes
    the read lock, copies [r.r], releases the lock, sees its call fail and
    enters [recover] with the copy; a background [recover] starts directly
    at the lock with whatever copy its parent held.  The clock moves between
    any two statements, also inside [recover]. *)

Module DurableConc.
Import Durable.

(** The statement a goroutine executes next. *)
Inductive pc : Type :=
| AtRLock                                   (* r.mutex.RLock() *)
| AtRead                                    (* reporter := r.r *)
| AtRUnlock                                 (* r.mutex.RUnlock(); the call fails *)
| AtLock                                    (* r.mutex.Lock() *)
| AtIdentity                                (* if r.r != reporter *)
| AtClock                                   (* if time.Now().Sub(r.lastRecovery) < r.interval *)
| AtNewReporter (checked : Z)               (* reporter, err = NewReporter(r.server) *)
| AtSwap (fresh : Reporter)                 (* go r.r.Close(); r.r = reporter *)
| AtStamp (err : option error)              (* r.lastRecovery = time.Now() *)
| AtUnlock (err : option error)             (* deferred r.mutex.Unlock() *)
| Returned (err : option error).

Record goroutine : Type := mkGoroutine {
  snapshot : Reporter;
  at_pc : pc
}.

(** [r.mutex] is [readers] and [writer]; [writer] also remembers which
    goroutine locked, which no step ever reads beyond "is it free".
    [constructed] lists the clock readings at which [NewReporter] was
    called, oldest first; [closing] the reporters handed to
    [go r.r.Close()]. *)
Record system : Type := mkSystem {
  dr : durableReporter;
  readers : nat;
  writer : option nat;
  now : Z;
  pool : list goroutine;
  constructed : list Z;
  closing : list Reporter
}.

Inductive label : Type :=
| Tick (dt : Z)                             (* the clock advances by dt >= 0 *)
| Caller                                    (* a new failing caller arrives *)
| Background (snapshot : Reporter)          (* go r.recover(snapshot) *)
| Run (tid : nat) (answer : Reporter + error).
    (* goroutine tid executes its statement; [answer] is what NewReporter
       returns if that is the statement *)

Definition move (tid : nat) (g : goroutine) (σ : system) : system :=
  mkSystem (dr σ) (readers σ) (writer σ) (now σ) (<[tid := g]> (pool σ))
    (constructed σ) (closing σ).

Definition with_mutex (rd : nat) (w : option nat) (σ : system) : system :=
  mkSystem (dr σ) rd w (now σ) (pool σ) (constructed σ) (closing σ).

Definition with_dr (d : durableReporter) (σ : system) : system :=
  mkSystem d (readers σ) (writer σ) (now σ) (pool σ) (constructed σ) (closing σ).

(** The head of the loop of [attempt]: the reporter is copied under the
    read lock, and the call on the copy fails. *)
Definition attempt (tid : nat) (g : goroutine) (σ : system) : option system :=
  let goto p := mkGoroutine (snapshot g) p in
  match at_pc g with
  | AtRLock =>
      match writer σ with
      | Some _ => None
      | None => Some (move tid (goto AtRead) (with_mutex (S (readers σ)) None σ))
      end
  | AtRead => Some (move tid (mkGoroutine (r (dr σ)) AtRUnlock) σ)
  | AtRUnlock =>
      Some (move tid (goto AtLock) (with_mutex (pred (readers σ)) (writer σ) σ))
  | _ => None
  end.

(** [func (r *durableReporter) recover(reporter Reporter) (err error)]. *)
Definition recover (tid : nat) (g : goroutine) (answer : Reporter + error)
    (σ : system) : option system :=
  let goto p := mkGoroutine (snapshot g) p in
  match at_pc g with
  | AtLock =>
      match writer σ, readers σ with
      | None, O => Some (move tid (goto AtIdentity) (with_mutex O (Some tid) σ))
      | _, _ => None
      end
  | AtIdentity =>
      if decide (r (dr σ) ≠ snapshot g) then Some (move tid (goto (AtUnlock None)) σ)
      else Some (move tid (goto AtClock) σ)
  | AtClock =>
      if (Sub (now σ) (lastRecovery (dr σ)) <? interval (dr σ))%Z
      then Some (move tid (goto (AtUnlock None)) σ)
      else Some (move tid (goto (AtNewReporter (now σ))) σ)
  | AtNewReporter _ =>
      let σ' := mkSystem (dr σ) (readers σ) (writer σ) (now σ) (pool σ)
                  (constructed σ ++ [now σ]) (closing σ) in
      match answer with
      | inl fresh => Some (move tid (goto (AtSwap fresh)) σ')
      | inr e => Some (move tid (goto (AtStamp (Some e))) σ')
      end
  | AtSwap fresh =>
      let σ' := mkSystem (set_r fresh (dr σ)) (readers σ) (writer σ) (now σ)
                  (pool σ) (constructed σ) (closing σ ++ [r (dr σ)]) in
      Some (move tid (mkGoroutine fresh (AtStamp None)) σ')
  | AtStamp err =>
      Some (move tid (goto (AtUnlock err))
              (with_dr (set_lastRecovery (now σ) (dr σ)) σ))
  | AtUnlock err =>
      Some (move tid (goto (Returned err)) (with_mutex (readers σ) None σ))
  | _ => None
  end.

(** The next statement of goroutine [tid], which is [g]; [None] when it
    cannot proceed or has returned. *)
Definition statement (tid : nat) (g : goroutine) (answer : Reporter + error)
    (σ : system) : option system :=
  match at_pc g with
  | AtRLock | AtRead | AtRUnlock => attempt tid g σ
  | _ => recover tid g answer σ
  end.

Definition step (l : label) (σ : system) : option system :=
  match l with
  | Tick dt =>
      if (0 <=? dt)%Z then
        Some (mkSystem (dr σ) (readers σ) (writer σ) (now σ + dt)%Z (pool σ)
                (constructed σ) (closing σ))
      else None
  | Caller =>
      Some (mkSystem (dr σ) (readers σ) (writer σ) (now σ)
              (pool σ ++ [mkGoroutine 0 AtRLock]) (constructed σ) (closing σ))
  | Background snap =>
      Some (mkSystem (dr σ) (readers σ) (writer σ) (now σ)
              (pool σ ++ [mkGoroutine snap AtLock]) (constructed σ) (closing σ))
  | Run tid answer =>
      match pool σ !! tid with
      | Some g => statement tid g answer σ
      | None => None
      end
  end.

Fixpoint run (ls : list label) (σ : system) : option system :=
  match ls with
  | [] => Some σ
  | l :: ls' =>
      match step l σ with
      | Some σ' => run ls' σ'
      | None => None
      end
  end.

(** The reporter right after [NewDurableReporter]: its first reporter was
    constructed at clock reading [built], and the clock now reads [t]. *)
Definition start (d : durableReporter) (built t : Z) : system :=
  mkSystem d 0 None t [] [built] [].

(** Inside [recover], between Lock and Unlock. *)
Definition in_recover (p : pc) : bool :=
  match p with
  | AtIdentity | AtClock | AtNewReporter _ | AtSwap _ | AtStamp _ | AtUnlock _ => true
  | _ => false
  end.

(** [NewReporter] has been called and the timestamp not yet written. *)
Definition unstamped (p : pc) : bool :=
  match p with
  | AtSwap _ | AtStamp _ => true
  | _ => false
  end.

(** Any two constructions, the earlier at [a] and the later at [b], are at
    least [ival] apart. *)
Definition spaced (ival : Z) (l : list Z) : Prop :=
  forall i j a b, i < j -> l !! i = Some a -> l !! j = Some b -> (ival <= b - a)%Z.

(** What holds in every state the interleaving can reach. *)
Record invariant (σ : system) : Prop := mkInvariant {
  inv_clock : (lastRecovery (dr σ) <= now σ)%Z;
  inv_owner : forall i g,
    pool σ !! i = Some g -> in_recover (at_pc g) = true -> writer σ = Some i;
  inv_checked : forall i g b,
    pool σ !! i = Some g -> at_pc g = AtNewReporter b ->
    (interval (dr σ) <= b - lastRecovery (dr σ))%Z /\ (b <= now σ)%Z;
  inv_past : forall k c, constructed σ !! k = Some c -> (c <= now σ)%Z;
  inv_stamped : forall k c,
    constructed σ !! k = Some c ->
    (c <= lastRecovery (dr σ))%Z \/
    (S k = length (constructed σ) /\
     exists i g, pool σ !! i = Some g /\ unstamped (at_pc g) = true);
  inv_spaced : spaced (interval (dr σ)) (constructed σ)
}.

(** A reporter with a 10 ns interval, built at 95 and handed over at 100.
    Two callers copy the same reporter and fail.  The first recovers at
    113; the second finds the reporter replaced and backs off; a
    background recovery at 119 is too early and is skipped; another at
    125 goes through, and fails. *)
Definition two_failing_callers : list label :=
  [ Caller; Caller;
    Run 0 (inl 0); Run 1 (inl 0); Run 0 (inl 0); Run 1 (inl 0);
    Run 0 (inl 0); Run 1 (inl 0);
    Tick 10;
    Run 0 (inl 0); Run 0 (inl 0); Run 0 (inl 0);
    Tick 3; Run 0 (inl 1); Run 0 (inl 0); Tick 2; Run 0 (inl 0); Run 0 (inl 0);
    Run 1 (inl 0); Run 1 (inl 0); Run 1 (inl 0);
    Background 1; Run 2 (inl 0); Run 2 (inl 0); Tick 4; Run 2 (inl 0); Run 2 (inl 0);
    Background 1; Tick 6; Run 3 (inl 0); Run 3 (inl 0); Run 3 (inl 0);
    Run 3 (inr ErrDisconnected); Run 3 (inl 0); Run 3 (inl 0) ].

End DurableConc.

(** ** helper/client.go, one caller at a time *)

(** [strings.ToLower] on host names.  Server names are ASCII; on ASCII
    strings the library function maps the letters A-Z to a-z and leaves
    every other byte alone, which is what this function does on every byte
    string. *)
Definition lower (a : ascii) : ascii :=
  let n := nat_of_ascii a in
  if (65 <=? n)%nat && (n <=? 90)%nat then ascii_of_nat (n + 32) else a.

Fixpoint ToLower (s : string) : string :=
  match s with
  | EmptyString => EmptyString
  | String a rest => String (lower a) (ToLower rest)
  end.



Module Registry.

(** Calls that leave client.go, each with what came back. *)
Inductive event : Type :=
| EvNewReporter (fqdn : string) (res : Reporter + error)
| EvNewLimiter (inner : Reporter) (workers : Z) (res : Reporter + error)
| EvNewCacher (inner : Reporter) (duration : Z) (res : Reporter)
| EvVector (rep : Reporter) (group : GUID) (res : VectorPtr * option error)
| EvBacklog (rep : Reporter) (vector : VectorPtr) (res : list Z * option error)
| EvReport (rep : Reporter) (group : GUID) (vector : VectorPtr)
    (backlog files : bool) (res : nat * string * option error)
| EvVectorClose (vector : VectorPtr)
| EvReporterClose (rep : Reporter).

(** The outside: constructors and the methods of the Reporter and Vector
    objects, answering from the history. *)
Record environment : Type := mkEnvironment {
  newReporter : list event -> string -> Reporter + error;
  newLimiter : list event -> Reporter -> Z -> Reporter + error;
  newCacher : list event -> Reporter -> Z -> Reporter;
  reporterVector : list event -> Reporter -> GUID -> VectorPtr * option error;
  reporterBacklog : list event -> Reporter -> VectorPtr -> list Z * option error;
  reporterReport : list event -> Reporter -> GUID -> VectorPtr -> bool -> bool ->
                   nat * string * option error
}.

(** [type Client struct]; the mutex plays no part while there is one
    caller. *)
Record Client : Type := mkClient {
  caching : bool;
  cacheDuration : Z;
  servers : gmap string Reporter
}.

Definition NewClient : Client := mkClient false 0 ∅.

Definition NewCachingClient (cacheDuration : Z) : Client :=
  mkClient true cacheDuration ∅.

Definition state : Type := Client * list event.

Definition M : Type -> Type := State state.

Definition history : M (list event) := fun s => (snd s, s).
Definition emit (e : event) : M unit := fun s => (tt, (fst s, snd s ++ [e])).
Definition get_client : M Client := fun s => (fst s, s).
Definition set_server (k : string) (rep : Reporter) : M unit :=
  fun s => (tt, (mkClient (caching (fst s)) (cacheDuration (fst s))
                   (<[k := rep]> (servers (fst s))), snd s)).

Section WithEnvironment.

Variable env : environment.

Definition NewReporter (fqdn : string) : M (Reporter + error) :=
  let* h := history in
  let res := newReporter env h fqdn in
  emit (EvNewReporter fqdn res) ;; ret res.

Definition NewLimiter (inner : Reporter) (workers : Z) : M (Reporter + error) :=
  let* h := history in
  let res := newLimiter env h inner workers in
  emit (EvNewLimiter inner workers res) ;; ret res.

Definition NewCacher (inner : Reporter) (duration : Z) : M Reporter :=
  let* h := history in
  let res := newCacher env h inner duration in
  emit (EvNewCacher inner duration res) ;; ret res.

Definition call_Vector (rep : Reporter) (group : GUID)
    : M (VectorPtr * option error) :=
  let* h := history in
  let res := reporterVector env h rep group in
  emit (EvVector rep group res) ;; ret res.

Definition call_Backlog (rep : Reporter) (vector : VectorPtr)
    : M (list Z * option error) :=
  let* h := history in
  let res := reporterBacklog env h rep vector in
  emit (EvBacklog rep vector res) ;; ret res.

Definition call_Report (rep : Reporter) (group : GUID) (vector : VectorPtr)
    (backlog files : bool) : M (nat * string * option error) :=
  let* h := history in
  let res := reporterReport env h rep group vector backlog files in
  emit (EvReport rep group vector backlog files res) ;; ret res.

(** [func (c *Client) create(fqdn string) (r Reporter, err error)]. *)
Definition create (fqdn : string) : M (Reporter + error) :=
  let* made := NewReporter fqdn in
  match made with
  | inr e => ret (inr e)
  | inl r0 =>
      let* limited := NewLimiter r0 1 in
      match limited with
      | inr e => ret (inr e)
      | inl r1 =>
          let* c := get_client in
          if caching c then
            let* r2 := NewCacher r1 (cacheDuration c) in ret (inl r2)
          else ret (inl r1)
      end
  end.

(** [func (c *Client) server(fqdn string) (r Reporter, err error)]. *)
Definition server (fqdn : string) : M (Reporter + error) :=
  let fqdn := ToLower fqdn in
  let* c := get_client in
  match servers c !! fqdn with
  | Some rep => ret (inl rep)
  | None =>
      let* made := create fqdn in
      match made with
      | inr e => ret (inr e)
      | inl rep => set_server fqdn rep ;; ret (inl rep)
      end
  end.

(** [func (c *Client) Backlog(from, to string, group ole.GUID)]; [[]] is
    the nil slice returned with an error. *)
Definition Backlog (from to : string) (group : GUID) : M (list Z * option error) :=
  let* f := server from in
  match f with
  | inr e => ret ([], Some e)
  | inl f =>
      let* t := server to in
      match t with
      | inr e => ret ([], Some e)
      | inl t =>
          let* fetched := call_Vector t group in
          match snd fetched with
          | Some e => ret ([], Some e)
          | None =>
              let v := fst fetched in
              let* out := call_Backlog f v in
              emit (EvVectorClose v) ;;           (* defer v.Close() *)
              ret out
          end
      end
  end.

(** [func (c *Client) Vector(server string, group *ole.GUID)]; on a
    resolution error the vector returned is nil. *)
Definition Vector (name : string) (group : GUID) : M (VectorPtr * option error) :=
  let* s := server name in
  match s with
  | inr e => ret (0, Some e)
  | inl s => call_Vector s group
  end.

(** [func (c *Client) Report(server, group, vector, backlog, files)]; on a
    resolution error the data is nil and the text empty. *)
Definition Report (name : string) (group : GUID) (vector : VectorPtr)
    (backlog files : bool) : M (nat * string * option error) :=
  let* s := server name in
  match s with
  | inr e => ret (0, EmptyString, Some e)
  | inl s => call_Report s group vector backlog files
  end.

End WithEnvironment.


Definition is_backlog (e : event) : bool :=
  match e with EvBacklog _ _ _ => true | _ => false end.
Definition is_vector (e : event) : bool :=
  match e with EvVector _ _ _ => true | _ => false end.
Definition is_vector_close (e : event) : bool :=
  match e with EvVectorClose _ => true | _ => false end.
Definition is_construction (e : event) : bool :=
  match e with
  | EvNewReporter _ _ | EvNewLimiter _ _ _ | EvNewCacher _ _ _ => true
  | _ => false
  end.

Definition occurrences (p : event -> bool) (h : list event) : nat :=
  length (filter (fun e => p e = true) h).

(** An environment in which every server answers: each constructor hands
    out an object that did not exist before, every vector fetch a new
    vector, every backlog the same two counts. *)
Definition obliging : environment :=
  mkEnvironment
    (fun h _ => inl (length h))
    (fun h _ _ => inl (length h))
    (fun h _ _ => length h)
    (fun h _ _ => (length h, None))
    (fun _ _ _ => ([3; 0]%Z, None))
    (fun h _ _ _ _ _ => (length h, "report"%string, None)).

End Registry.

(** ** helper/client.go, many callers at once

    Goroutines calling [server] and [Close] are interleaved one statement
    at a time.  [c.m] is a readers-writer lock: [RLock] waits while a writer
    holds it, [Lock] waits while anyone holds it, and nothing lets a
    goroutine that already holds it pass a second [Lock]. *)

Module RegistryConc.

(** The statement a goroutine executes next. *)
Inductive pc : Type :=
| SvRLock (fqdn : string)        (* fqdn = strings.ToLower(fqdn); c.m.RLock() *)
| SvLookup (key : string)        (* r, found := c.servers[fqdn] *)
| SvRUnlock (key : string) (found : option Reporter)
                                 (* c.m.RUnlock(); if found { return r, nil } *)
| SvLock (key : string)          (* c.m.Lock() *)
| SvCreate (key : string)        (* r, err = c.create(fqdn); if err != nil { return } *)
| SvInsert (key : string) (rep : Reporter)
                                 (* c.servers[fqdn] = r *)
| SvUnlock (res : Reporter + error)
                                 (* deferred c.m.Unlock() *)
| SvReturned (res : Reporter + error)
| ClLock                         (* c.m.Lock() *)
| ClRange (rest : list (string * Reporter))
                                 (* for _, r := range c.servers { r.Close() };
                                    then c.servers = make(map[string]Reporter) *)
| ClDeferred                     (* deferred c.m.Lock() *)
| ClReturned.

(** [writer] remembers which goroutine took the exclusive lock; the steps
    only ask whether it is free.  [built] lists the sessions [create]
    returned, oldest first, each with its key; [closed] the sessions on
    which [Close] was called. *)
Record system : Type := mkSystem {
  servers : gmap string Reporter;
  readers : nat;
  writer : option nat;
  pool : list pc;
  built : list (string * Reporter);
  closed : list Reporter
}.

Inductive label : Type :=
| CallServer (fqdn : string)     (* a goroutine enters c.server(fqdn) *)
| CallClose                      (* a goroutine enters c.Close() *)
| Run (tid : nat) (answer : Reporter + error).
    (* goroutine tid executes its statement; [answer] is what c.create
       returns if that is the statement *)

Definition move (tid : nat) (p : pc) (σ : system) : system :=
  mkSystem (servers σ) (readers σ) (writer σ) (<[tid := p]> (pool σ))
    (built σ) (closed σ).

Definition with_mutex (rd : nat) (w : option nat) (σ : system) : system :=
  mkSystem (servers σ) rd w (pool σ) (built σ) (closed σ).

Definition with_servers (m : gmap string Reporter) (σ : system) : system :=
  mkSystem m (readers σ) (writer σ) (pool σ) (built σ) (closed σ).

(** [func (c *Client) server(fqdn string) (r Reporter, err error)]. *)
Definition server (tid : nat) (p : pc) (answer : Reporter + error)
    (σ : system) : option system :=
  match p with
  | SvRLock fqdn =>
      match writer σ with
      | Some _ => None
      | None => Some (move tid (SvLookup (ToLower fqdn))
                        (with_mutex (S (readers σ)) None σ))
      end
  | SvLookup key => Some (move tid (SvRUnlock key (servers σ !! key)) σ)
  | SvRUnlock key found =>
      let σ' := with_mutex (pred (readers σ)) (writer σ) σ in
      match found with
      | Some rep => Some (move tid (SvReturned (inl rep)) σ')
      | None => Some (move tid (SvLock key) σ')
      end
  | SvLock key =>
      match writer σ, readers σ with
      | None, O => Some (move tid (SvCreate key) (with_mutex O (Some tid) σ))
      | _, _ => None
      end
  | SvCreate key =>
      match answer with
      | inr e => Some (move tid (SvUnlock (inr e)) σ)
      | inl rep =>
          Some (move tid (SvInsert key rep)
                  (mkSystem (servers σ) (readers σ) (writer σ) (pool σ)
                     (built σ ++ [(key, rep)]) (closed σ)))
      end
  | SvInsert key rep =>
      Some (move tid (SvUnlock (inl rep))
              (with_servers (<[key := rep]> (servers σ)) σ))
  | SvUnlock res => Some (move tid (SvReturned res) (with_mutex (readers σ) None σ))
  | _ => None
  end.

(** [func (c *Client) Close()].  The sessions are visited in the order of
    [map_to_list]; Go leaves the order of a range over a map open. *)
Definition Close (tid : nat) (p : pc) (σ : system) : option system :=
  match p with
  | ClLock =>
      match writer σ, readers σ with
      | None, O => Some (move tid (ClRange (map_to_list (servers σ)))
                           (with_mutex O (Some tid) σ))
      | _, _ => None
      end
  | ClRange ((_, rep) :: rest) =>
      Some (move tid (ClRange rest)
              (mkSystem (servers σ) (readers σ) (writer σ) (pool σ) (built σ)
                 (closed σ ++ [rep])))
  | ClRange [] => Some (move tid ClDeferred (with_servers ∅ σ))
  | ClDeferred =>
      match writer σ, readers σ with
      | None, O => Some (move tid ClReturned (with_mutex O (Some tid) σ))
      | _, _ => None
      end
  | _ => None
  end.

(** The next statement of goroutine [tid], which stands at [p]; [None]
    when it cannot proceed or has returned. *)
Definition statement (tid : nat) (p : pc) (answer : Reporter + error)
    (σ : system) : option system :=
  match p with
  | SvRLock _ | SvLookup _ | SvRUnlock _ _ | SvLock _ | SvCreate _ | SvInsert _ _
  | SvUnlock _ | SvReturned _ => server tid p answer σ
  | ClLock | ClRange _ | ClDeferred | ClReturned => Close tid p σ
  end.

Definition step (l : label) (σ : system) : option system :=
  match l with
  | CallServer fqdn =>
      Some (mkSystem (servers σ) (readers σ) (writer σ) (pool σ ++ [SvRLock fqdn])
              (built σ) (closed σ))
  | CallClose =>
      Some (mkSystem (servers σ) (readers σ) (writer σ) (pool σ ++ [ClLock])
              (built σ) (closed σ))
  | Run tid answer =>
      match pool σ !! tid with
      | Some p => statement tid p answer σ
      | None => None
      end
  end.

Fixpoint run (ls : list label) (σ : system) : option system :=
  match ls with
  | [] => Some σ
  | l :: ls' =>
      match step l σ with
      | Some σ' => run ls' σ'
      | None => None
      end
  end.

(** A client as [NewClient] returns it, nobody calling yet. *)
Definition fresh : system := mkSystem ∅ 0 None [] [] [].

(** Between a passed [Lock] and the matching unlock. *)
Definition holds_lock (p : pc) : bool :=
  match p with
  | SvCreate _ | SvInsert _ _ | SvUnlock _ | ClRange _ | ClDeferred | ClReturned => true
  | _ => false
  end.

(** Inside [Close], past its first [Lock]. *)
Definition in_Close (p : pc) : bool :=
  match p with
  | ClRange _ | ClDeferred => true
  | _ => false
  end.

(** At the door: the next statement takes the lock, shared or exclusive. *)
Definition at_lock (p : pc) : bool :=
  match p with
  | SvRLock _ | SvLock _ | ClLock | ClDeferred => true
  | _ => false
  end.

Definition finished (p : pc) : bool :=
  match p with
  | SvReturned _ | ClReturned => true
  | _ => false
  end.

(** The sessions built for a key. *)
Definition built_for (key : string) (σ : system) : list Reporter :=
  snd <$> filter (fun kr => fst kr = key) (built σ).

(** The key a goroutine of [server] carries. *)
Definition key_of (p : pc) : option string :=
  match p with
  | SvLookup key | SvRUnlock key _ | SvLock key | SvCreate key | SvInsert key _ =>
      Some key
  | _ => None
  end.

(** What holds in every state the interleaving can reach. *)
Definition invariant (σ : system) : Prop :=
  forall i p, pool σ !! i = Some p -> holds_lock p = true -> writer σ = Some i.

(** The statements [Close] executes on its own between its first [Lock]
    and its deferred one: one per session, and the reset of the map. *)
Definition Close_body (tid : nat) (σ : system) : list label :=
  replicate (S (S (length (map_to_list (servers σ))))) (Run tid (inl 0)).

(** Two callers ask for the same server at the same time: both miss under
    the read lock, then one after the other takes the exclusive lock and
    creates. *)
Definition first_use_race : list label :=
  [ CallServer "srvA"; CallServer "SRVA";
    Run 0 (inl 0); Run 0 (inl 0); Run 0 (inl 0);
    Run 1 (inl 0); Run 1 (inl 0); Run 1 (inl 0);
    Run 0 (inl 0); Run 0 (inl 10); Run 0 (inl 0); Run 0 (inl 0);
    Run 1 (inl 0); Run 1 (inl 11); Run 1 (inl 0); Run 1 (inl 0) ].

(** One server is resolved, then [Close] is called, then another caller
    arrives. *)
Definition close_then_use (n : nat) : list label :=
  [ CallServer "srvA";
    Run 0 (inl 0); Run 0 (inl 0); Run 0 (inl 0);
    Run 0 (inl 0); Run 0 (inl 10); Run 0 (inl 0); Run 0 (inl 0);
    CallClose ] ++ replicate n (Run 1 (inl 0)) ++ [ CallServer "srvA" ].

End RegistryConc.

(** ** poller/poller.go

    The goroutines of one poller, interleaved one statement at a time: the
    [update] goroutines that the scheduling loop starts for each tick or
    pulse it accepts, the callers of [Poll] and the callers of [Close].
    [p.mutex] is a plain mutex; [p.idle.Wait()] releases it and sleeps in
    one step, and wakes only on a [Broadcast], after which it takes the
    mutex again. *)

Module Poller.

(** The statement a goroutine executes next. *)
Inductive pc : Type :=
(* update: startUpdate *)
| UpLock                         (* p.mutex.Lock() *)
| UpCheck                        (* if !p.closed && !p.updating { p.updating = true; acquired = true } *)
| UpUnlock (acquired : bool)     (* p.mutex.Unlock(); if !acquired { return } *)
(* update: the poll *)
| UpPoll                         (* p.source.Poll(ctx) is entered *)
| UpPolling                      (* p.source.Poll(ctx) returns *)
(* update: finishUpdate *)
| UpFinishLock                   (* p.mutex.Lock() *)
| UpFinishSet                    (* p.updating = false *)
| UpFinishUnlock                 (* p.mutex.Unlock() *)
| UpBroadcast                    (* p.idle.Broadcast() *)
| UpDone (polled : bool)
(* Poll *)
| PoLock                         (* p.mutex.Lock() *)
| PoSend                         (* if !p.closed { p.pulse <- struct{}{} } *)
| PoUnlock                       (* p.mutex.Unlock() *)
| PoDone
(* Close *)
| ClLock                         (* p.mutex.Lock() *)
| ClCheck                        (* if p.closed *)
| ClEarlyUnlock                  (* p.mutex.Unlock(); return *)
| ClMark                         (* p.closed = true; close(p.stop); close(p.pulse) *)
| ClLoop                         (* for p.updating *)
| ClWait                         (* p.idle.Wait(): unlock and sleep *)
| ClAsleep                       (* asleep in Wait *)
| ClWake                         (* Wait takes the mutex again *)
| ClSource                       (* p.source.Close() *)
| ClUnlock                       (* p.mutex.Unlock() *)
| ClDone (closed_source : bool).

(** [mutex] remembers which goroutine locked; the steps only ask whether
    it is free.  [polls] counts the calls of [source.Poll],
    [source_closes] those of [source.Close]. *)
Record system : Type := mkSystem {
  mutex : option nat;
  updating : bool;
  closed : bool;
  pool : list pc;
  polls : nat;
  source_closes : nat
}.

Inductive label : Type :=
| Trigger                        (* run: a tick or pulse is taken; go p.update(ctx, cancel) *)
| CallPoll                       (* a goroutine enters p.Poll() *)
| CallClose                      (* a goroutine enters p.Close() *)
| Run (tid : nat).               (* goroutine tid executes its statement *)

Definition move (tid : nat) (p : pc) (σ : system) : system :=
  mkSystem (mutex σ) (updating σ) (closed σ) (<[tid := p]> (pool σ))
    (polls σ) (source_closes σ).

Definition with_mutex (m : option nat) (σ : system) : system :=
  mkSystem m (updating σ) (closed σ) (pool σ) (polls σ) (source_closes σ).

Definition with_updating (b : bool) (σ : system) : system :=
  mkSystem (mutex σ) b (closed σ) (pool σ) (polls σ) (source_closes σ).

Definition with_closed (b : bool) (σ : system) : system :=
  mkSystem (mutex σ) (updating σ) b (pool σ) (polls σ) (source_closes σ).

Definition spawn (p : pc) (σ : system) : system :=
  mkSystem (mutex σ) (updating σ) (closed σ) (pool σ ++ [p])
    (polls σ) (source_closes σ).

(** [p.mutex.Lock()] by [tid], continuing at [next]. *)
Definition lock (tid : nat) (next : pc) (σ : system) : option system :=
  match mutex σ with
  | None => Some (move tid next (with_mutex (Some tid) σ))
  | Some _ => None
  end.

(** What a [Broadcast] does to a goroutine. *)
Definition wake (p : pc) : pc :=
  match p with
  | ClAsleep => ClWake
  | _ => p
  end.

(** [func (p *Poller) startUpdate() (acquired bool)]. *)
Definition startUpdate (tid : nat) (p : pc) (σ : system) : option system :=
  match p with
  | UpLock => lock tid UpCheck σ
  | UpCheck =>
      if negb (closed σ) && negb (updating σ)
      then Some (move tid (UpUnlock true) (with_updating true σ))
      else Some (move tid (UpUnlock false) σ)
  | UpUnlock acquired =>
      (* back in update: if !p.startUpdate() { return } *)
      Some (move tid (if acquired then UpPoll else UpDone false) (with_mutex None σ))
  | _ => None
  end.

(** [func (p *Poller) finishUpdate()]. *)
Definition finishUpdate (tid : nat) (p : pc) (σ : system) : option system :=
  match p with
  | UpFinishLock => lock tid UpFinishSet σ
  | UpFinishSet => Some (move tid UpFinishUnlock (with_updating false σ))
  | UpFinishUnlock => Some (move tid UpBroadcast (with_mutex None σ))
  | UpBroadcast =>
      Some (move tid (UpDone true)
              (mkSystem (mutex σ) (updating σ) (closed σ) (wake <$> pool σ)
                 (polls σ) (source_closes σ)))
  | _ => None
  end.

(** [func (p *Poller) update(ctx context.Context, cancel context.CancelFunc)]. *)
Definition update (tid : nat) (p : pc) (σ : system) : option system :=
  match p with
  | UpLock | UpCheck | UpUnlock _ => startUpdate tid p σ
  | UpPoll =>
      Some (move tid UpPolling
              (mkSystem (mutex σ) (updating σ) (closed σ) (pool σ)
                 (S (polls σ)) (source_closes σ)))
  | UpPolling => Some (move tid UpFinishLock σ)
  | UpFinishLock | UpFinishSet | UpFinishUnlock | UpBroadcast => finishUpdate tid p σ
  | _ => None
  end.

(** [func (p *Poller) Poll()].  The send on [p.pulse] completes when the
    scheduling loop takes the pulse, and the loop then starts an update
    goroutine. *)
Definition Poll (tid : nat) (p : pc) (σ : system) : option system :=
  match p with
  | PoLock => lock tid PoSend σ
  | PoSend =>
      if closed σ then Some (move tid PoUnlock σ)
      else Some (move tid PoUnlock (spawn UpLock σ))
  | PoUnlock => Some (move tid PoDone (with_mutex None σ))
  | _ => None
  end.

(** [func (p *Poller) Close()]. *)
Definition Close (tid : nat) (p : pc) (σ : system) : option system :=
  match p with
  | ClLock => lock tid ClCheck σ
  | ClCheck =>
      if closed σ then Some (move tid ClEarlyUnlock σ)
      else Some (move tid ClMark σ)
  | ClEarlyUnlock => Some (move tid (ClDone false) (with_mutex None σ))
  | ClMark => Some (move tid ClLoop (with_closed true σ))
  | ClLoop =>
      if updating σ then Some (move tid ClWait σ)
      else Some (move tid ClSource σ)
  | ClWait => Some (move tid ClAsleep (with_mutex None σ))
  | ClWake => lock tid ClLoop σ
  | ClSource =>
      Some (move tid ClUnlock
              (mkSystem (mutex σ) (updating σ) (closed σ) (pool σ)
                 (polls σ) (S (source_closes σ))))
  | ClUnlock => Some (move tid (ClDone true) (with_mutex None σ))
  | _ => None
  end.

(** The next statement of goroutine [tid], which stands at [p]; [None]
    when it cannot proceed or has returned. *)
Definition statement (tid : nat) (p : pc) (σ : system) : option system :=
  match p with
  | UpLock | UpCheck | UpUnlock _ | UpPoll | UpPolling
  | UpFinishLock | UpFinishSet | UpFinishUnlock | UpBroadcast | UpDone _ =>
      update tid p σ
  | PoLock | PoSend | PoUnlock | PoDone => Poll tid p σ
  | ClLock | ClCheck | ClEarlyUnlock | ClMark | ClLoop | ClWait | ClAsleep
  | ClWake | ClSource | ClUnlock | ClDone _ => Close tid p σ
  end.

Definition step (l : label) (σ : system) : option system :=
  match l with
  | Trigger => Some (spawn UpLock σ)
  | CallPoll => Some (spawn PoLock σ)
  | CallClose => Some (spawn ClLock σ)
  | Run tid =>
      match pool σ !! tid with
      | Some p => statement tid p σ
      | None => None
      end
  end.

Fixpoint run (ls : list label) (σ : system) : option system :=
  match ls with
  | [] => Some σ
  | l :: ls' =>
      match step l σ with
      | Some σ' => run ls' σ'
      | None => None
      end
  end.

(** The poller as [New] returns it. *)
Definition New : system := mkSystem None false false [] 0 0.

(** Holding [p.mutex]. *)
Definition holds (p : pc) : bool :=
  match p with
  | UpCheck | UpUnlock _ | UpFinishSet | UpFinishUnlock
  | PoSend | PoUnlock
  | ClCheck | ClEarlyUnlock | ClMark | ClLoop | ClWait | ClSource | ClUnlock => true
  | _ => false
  end.

(** An update in flight: from the moment [startUpdate] has set the flag
    to the moment [finishUpdate] clears it. *)
Definition in_flight (p : pc) : bool :=
  match p with
  | UpUnlock true | UpPoll | UpPolling | UpFinishLock | UpFinishSet => true
  | _ => false
  end.

(** The call of [Close] that found the poller open. *)
Definition closer (p : pc) : bool :=
  match p with
  | ClMark | ClLoop | ClWait | ClAsleep | ClWake | ClSource | ClUnlock
  | ClDone true => true
  | _ => false
  end.

Definition past_mark (p : pc) : bool :=
  match p with
  | ClLoop | ClWait | ClAsleep | ClWake | ClSource | ClUnlock | ClDone true => true
  | _ => false
  end.

(** The wait for the running update is over. *)
Definition past_loop (p : pc) : bool :=
  match p with
  | ClSource | ClUnlock | ClDone true => true
  | _ => false
  end.

(** [source.Close()] has been called by this goroutine. *)
Definition source_done (p : pc) : bool :=
  match p with
  | ClUnlock | ClDone true => true
  | _ => false
  end.

(** Between clearing the flag and the [Broadcast] that announces it. *)
Definition announcing (p : pc) : bool :=
  match p with
  | UpFinishUnlock | UpBroadcast => true
  | _ => false
  end.

(** What holds in every state the interleaving can reach. *)
Record invariant (σ : system) : Prop := mkInvariant {
  inv_owner : forall i p,
    pool σ !! i = Some p -> holds p = true -> mutex σ = Some i;
  inv_flag : forall i p,
    pool σ !! i = Some p -> in_flight p = true -> updating σ = true;
  inv_single : forall i j p q,
    pool σ !! i = Some p -> pool σ !! j = Some q ->
    in_flight p = true -> in_flight q = true -> i = j;
  inv_closer : forall i j p q,
    pool σ !! i = Some p -> pool σ !! j = Some q ->
    closer p = true -> closer q = true -> i = j;
  inv_marked : forall i p,
    pool σ !! i = Some p -> past_mark p = true -> closed σ = true;
  inv_drained : forall i p,
    pool σ !! i = Some p -> past_loop p = true -> updating σ = false;
  inv_once : forall i p,
    pool σ !! i = Some p -> source_done p = true -> source_closes σ = 1;
  inv_nobody : source_closes σ = 0 \/
    exists i p, pool σ !! i = Some p /\ source_done p = true;
  inv_waiting : forall i,
    pool σ !! i = Some ClWait -> updating σ = true;
  inv_running : updating σ = true ->
    exists k q, pool σ !! k = Some q /\ in_flight q = true;
  inv_asleep : forall i,
    pool σ !! i = Some ClAsleep ->
    updating σ = true \/ exists k q, pool σ !! k = Some q /\ announcing q = true
}.

(** A slow poll is running when a tick arrives, then [Close] is called,
    then the poll returns, then [Close] is called once more. *)
Definition close_during_poll : list label :=
  [ Trigger; Run 0; Run 0; Run 0; Run 0;        (* update 0 is inside Poll *)
    Trigger; Run 1; Run 1; Run 1;               (* update 1 is turned away *)
    CallClose; Run 2; Run 2; Run 2; Run 2; Run 2; (* Close is asleep in Wait *)
    Run 0; Run 0; Run 0; Run 0; Run 0;          (* the poll returns; Broadcast *)
    Run 2; Run 2; Run 2; Run 2;                 (* Close closes the source *)
    CallClose; Run 3; Run 3; Run 3 ].           (* the second Close *)

End Poller.

(** ** helper/durablereporter.go, who touches the reporter and the lock *)

Module DurableLock.
Import Durable DurableConc.

(** Between a passed [RLock] and the matching [RUnlock]. *)
Definition holds_read (p : pc) : bool :=
  match p with
  | AtRead | AtRUnlock => true
  | _ => false
  end.

(** The next statement reads [r.r] or [r.lastRecovery]. *)
Definition reads_fields (p : pc) : bool :=
  match p with
  | AtRead | AtIdentity | AtClock | AtSwap _ => true
  | _ => false
  end.

(** The next statement writes [r.r] or [r.lastRecovery]. *)
Definition writes_fields (p : pc) : bool :=
  match p with
  | AtSwap _ | AtStamp _ => true
  | _ => false
  end.

Definition returned (p : pc) : bool :=
  match p with
  | Returned _ => true
  | _ => false
  end.

(** How many goroutines hold the read lock. *)
Definition reading (l : list goroutine) : nat :=
  length (filter (fun g => holds_read (at_pc g) = true) l).

(** What the lock keeps true in every reachable state. *)
Record discipline (σ : system) : Prop := mkDiscipline {
  dis_owner : forall i g,
    pool σ !! i = Some g -> in_recover (at_pc g) = true -> writer σ = Some i;
  dis_held : forall i,
    writer σ = Some i ->
    exists g, pool σ !! i = Some g /\ in_recover (at_pc g) = true;
  dis_readers : readers σ = reading (pool σ);
  dis_exclusive : is_Some (writer σ) -> readers σ = 0
}.

End DurableLock.

(** ** helper/client.go, further environments *)

Module RegistryUse.
Import Registry.

(** An environment in which no server can be reached. *)
Definition offline : environment :=
  mkEnvironment
    (fun _ _ => inr ErrDisconnected)
    (fun h _ _ => inl (length h))
    (fun h _ _ => length h)
    (fun _ _ _ => (0, Some ErrDisconnected))
    (fun _ _ _ => ([], Some ErrDisconnected))
    (fun _ _ _ _ _ _ => (0, EmptyString, Some ErrDisconnected)).

End RegistryUse.

(** ** helper/client.go, who touches the map and the lock *)

Module RegistryLock.
Import RegistryConc.

(** Between a passed [RLock] and the matching [RUnlock]. *)
Definition holds_read (p : pc) : bool :=
  match p with
  | SvLookup _ | SvRUnlock _ _ => true
  | _ => false
  end.

(** The next statement reads [c.servers]. *)
Definition reads_map (p : pc) : bool :=
  match p with
  | SvLookup _ | ClRange (_ :: _) => true
  | _ => false
  end.

(** The next statement writes [c.servers]. *)
Definition writes_map (p : pc) : bool :=
  match p with
  | SvInsert _ _ | ClRange [] => true
  | _ => false
  end.

(** How many goroutines hold the read lock. *)
Definition reading (l : list pc) : nat :=
  length (filter (fun p => holds_read p = true) l).

(** What the lock keeps true in every reachable state. *)
Record discipline (σ : system) : Prop := mkDiscipline {
  dis_owner : forall i p,
    pool σ !! i = Some p -> holds_lock p = true -> writer σ = Some i;
  dis_held : forall i,
    writer σ = Some i -> exists p, pool σ !! i = Some p /\ holds_lock p = true;
  dis_readers : readers σ = reading (pool σ);
  dis_exclusive : is_Some (writer σ) -> readers σ = 0;
  dis_inside : forall i, pool σ !! i ≠ Some ClReturned
}.

(** Three callers of [server], two of them for the same server. *)
Definition three_callers : list label :=
  [ CallServer "srvA"; CallServer "srvB"; CallServer "SRVA";
    Run 0 (inl 0); Run 1 (inl 0); Run 0 (inl 0); Run 1 (inl 0);
    Run 0 (inl 0); Run 1 (inl 0);
    Run 1 (inl 0); Run 1 (inl 20); Run 1 (inl 0); Run 1 (inl 0);
    Run 0 (inl 0); Run 0 (inl 10); Run 0 (inl 0); Run 0 (inl 0);
    Run 2 (inl 0); Run 2 (inl 0); Run 2 (inl 0) ].

End RegistryLock.

(** ** poller/poller.go, who holds the mutex *)

Module PollerLock.
Import Poller.

(** Whoever is recorded as holder of [p.mutex] is between a [Lock] and the
    matching [Unlock]. *)
Definition held_inside (σ : system) : Prop :=
  forall i, mutex σ = Some i ->
            exists p, pool σ !! i = Some p /\ holds p = true.

(** The goroutine has returned. *)
Definition returned (p : pc) : bool :=
  match p with
  | UpDone _ | PoDone | ClDone _ => true
  | _ => false
  end.

(** A poller on which [Poll] is called twice and [Close] once in between. *)
Definition poll_close_poll : list label :=
  [ CallPoll; Run 0; Run 0; Run 0;
    CallClose; Run 2; Run 2; Run 2; Run 2; Run 2; Run 2;
    CallPoll; Run 3; Run 3; Run 3;
    Run 1; Run 1; Run 1 ].

End PollerLock.

(** ** package helper, the pool of workers that fetch vectors *)

Module WorkPool.

(** A [callstat.Call], opaque here; 0 is its zero value. *)
Definition CallStat := nat.

(** A [context.Context], by identity. *)
Definition Ctx := nat.

(** What is handed to [SendWork] and [TunnyJob] as an [interface{}]. *)
Inductive data : Type :=
| VectorJob (ctx : Ctx) (group : GUID)   (* vectorJob{ctx, group} *)
| ForeignData (tag : nat).                   (* a value of any other type *)

Record vectorWorkResult : Type := mkWorkResult {
  result_Vector : VectorPtr;
  result_Call : CallStat;
  result_Err : option error
}.

(** What comes back from [TunnyJob] and [SendWork] as an [interface{}]. *)
Inductive work : Type :=
| WorkResult (result : vectorWorkResult)     (* a *vectorWorkResult *)
| WorkNil                                    (* the nil interface *)
| ForeignWork (tag : nat).                   (* a value of any other type *)

Record vectorWorker : Type := mkVectorWorker { r : Reporter }.

(** A [*tunny.WorkPool] made by [CreateCustomPool(workers)]: the workers it
    was given. *)
Record TunnyWorkPool : Type := mkTunnyWorkPool {
  workers : list vectorWorker
}.

Record vectorWorkPool : Type := mkVectorWorkPool { p : TunnyWorkPool }.

Inductive event : Type :=
| EvOpen (ws : list vectorWorker) (res : option error)
| EvVector (rep : Reporter) (ctx : Ctx) (group : GUID)
    (res : VectorPtr * CallStat * option error)
| EvPoolClose (pool : TunnyWorkPool).

(** How a call ends: with its results, or in a panic. *)
Inductive outcome (A : Type) : Type :=
| Returned (a : A)
| Panicked (message : string).
Arguments Returned {A} a.
Arguments Panicked {A} message.

Definition M : Type -> Type := State (list event).

Definition history : M (list event) := fun h => (h, h).
Definition emit (e : event) : M unit := fun h => (tt, h ++ [e]).

Section WithEnvironment.

(** The reporter's [Vector], and whether tunny's [Open] fails. *)
Variable reporterVector :
  list event -> Reporter -> Ctx -> GUID -> VectorPtr * CallStat * option error.
Variable openFails : list event -> option error.

(** [tunny.CreateCustomPool(workers).Open()]. *)
Definition Open (ws : list vectorWorker) : M (TunnyWorkPool + error) :=
  let* h := history in
  let res := openFails h in
  emit (EvOpen ws res) ;;
  match res with
  | Some e => ret (inr e)
  | None => ret (inl (mkTunnyWorkPool ws))
  end.

(** [func (vw *vectorWorker) TunnyReady() bool]. *)
Definition TunnyReady (vw : vectorWorker) : bool := true.

(** [func (vw *vectorWorker) TunnyJob(data interface{}) interface{}]. *)
Definition TunnyJob (vw : vectorWorker) (d : data) : M work :=
  match d with
  | VectorJob ctx group =>
      let* h := history in
      let res := reporterVector h (r vw) ctx group in
      emit (EvVector (r vw) ctx group res) ;;
      ret (WorkResult (mkWorkResult (fst (fst res)) (snd (fst res)) (snd res)))
  | ForeignData _ => ret WorkNil
  end.

(** The loop of [newVectorWorkPool]: [i] runs from 0 while
    [i < numWorkers]; [remaining] is [numWorkers - i]. *)
Fixpoint workers_loop (rep : Reporter) (remaining : nat)
    (ws : list vectorWorker) : list vectorWorker :=
  match remaining with
  | O => ws
  | S remaining' => workers_loop rep remaining' (ws ++ [mkVectorWorker rep])
  end.

(** [func newVectorWorkPool(numWorkers uint, r Reporter)]. *)
Definition newVectorWorkPool (numWorkers : Z) (rep : Reporter)
    : M (vectorWorkPool + error) :=
  if (numWorkers =? 0)%Z then ret (inr ErrZeroWorkers)
  else
    let ws := workers_loop rep (Z.to_nat numWorkers) [] in
    let* opened := Open ws in
    match opened with
    | inr e => ret (inr e)
    | inl pool => ret (inl (mkVectorWorkPool pool))
    end.

(** tunny's [SendWork] is not part of this package; it is any function
    that either fails without running the job or has one worker of the
    pool run it and hands back what that worker returned. *)
Definition dispatches (SendWork : TunnyWorkPool -> data -> M (work + error))
    : Prop :=
  forall pool d h,
    (exists e, SendWork pool d h = (inr e, h)) \/
    (exists vw, vw ∈ workers pool /\
                SendWork pool d h
                = (inl (fst (TunnyJob vw d h)), snd (TunnyJob vw d h))).

Variable SendWork : TunnyWorkPool -> data -> M (work + error).

(** [func (vwp *vectorWorkPool) Vector(ctx, group)]; on an error of
    [SendWork] the named results are still at their zero values. *)
Definition Vector (vwp : vectorWorkPool) (ctx : Ctx) (group : GUID)
    : M (outcome (VectorPtr * CallStat * option error)) :=
  let* v := SendWork (p vwp) (VectorJob ctx group) in
  match v with
  | inr e => ret (Returned (0, 0, Some e))
  | inl (WorkResult result) =>
      ret (Returned (result_Vector result, result_Call result, result_Err result))
  | inl _ => ret (Panicked "invalid work result")
  end.

(** [func (vwp *vectorWorkPool) Close()]. *)
Definition Close (vwp : vectorWorkPool) : M unit := emit (EvPoolClose (p vwp)).

End WithEnvironment.

(** A [SendWork] that always gives the job to the first worker, and fails
    on a pool without workers. *)
Definition first_worker
    (reporterVector :
       list event -> Reporter -> Ctx -> GUID -> VectorPtr * CallStat * option error)
    (pool : TunnyWorkPool) (d : data) : M (work + error) :=
  match workers pool with
  | [] => ret (inr (ErrForeign 0))
  | vw :: _ => let* w := TunnyJob reporterVector vw d in ret (inl w)
  end.

(** A reporter that answers every call with the group as vector. *)
Definition echo :
  list event -> Reporter -> Ctx -> GUID -> VectorPtr * CallStat * option error :=
  fun _ _ _ group => (group, 1, None).

End WorkPool.

(** ** cmd/backlog/backlog.go, the command that uses the client *)

Module Command.

(** A [regexSlice]: the patterns given for one flag.  Matching is done by
    [isMatch], which is outside this file. *)
Definition regexSlice : Type := list string.

(** An [*adsi.Client], by identity. *)
Definition AdsiClient : Type := nat.

(** A [*helper.Client], by identity. *)
Definition HelperClient : Type := nat.

(** A [callstat.Call], opaque here; 0 is its zero value. *)
Definition CallStat : Type := nat.

(** A [context.Context], by identity. *)
Definition Ctx : Type := nat.

(** A [core.Folder], opaque here. *)
Definition Folder : Type := nat.

(** The fields of package core that this file reads.  Go lets [Computer]
    and [Folders] name a field of several structs; here each carries its
    struct's name. *)
Record Computer : Type := mkComputer { Host : string }.

Record Connection : Type := mkConnection {
  Connection_Computer : Computer;
  Enabled : bool
}.

Record Member : Type := mkMember {
  Member_Computer : Computer;
  Connections : list Connection
}.

(** [ID] is a pointer, [None] being nil. *)
Record Group : Type := mkGroup {
  Name : string;
  ID : option GUID;
  Group_Folders : list Folder;
  Members : list Member
}.

Record Domain : Type := mkDomain { Groups : list Group }.

(** [Folder] points at an element of the group's [Folders]: it is that
    element's index, [None] being nil. *)
Record FolderBacklog : Type := mkFolderBacklog {
  FolderBacklog_Folder : option nat;
  FolderBacklog_Backlog : Z
}.

(** [core.Backlog].  [Group] points into the domain that [setup] fetched,
    which nothing changes afterwards: it is the group itself. *)
Record Backlog : Type := mkBacklog {
  Backlog_Group : Group;
  From : string;
  To : string;
  Folders : list FolderBacklog;
  Call : CallStat;
  Err : option error
}.

(** A signed 64-bit integer, as [time.Duration] is. *)
Definition int64 (z : Z) : Z := ((z + 2 ^ 63) mod 2 ^ 64 - 2 ^ 63)%Z.

(** [time.Duration(n) * time.Second] for a [uint] n. *)
Definition seconds (n : Z) : Z := int64 (int64 n * 1000000000).

(** *** setup *)

Inductive event : Type :=
| EvAdsiNewClient (res : AdsiClient + error)
| EvDnc (client : AdsiClient) (res : string + error)
| EvConfigDomain (client : AdsiClient) (domain : string) (res : Domain + error)
| EvAdsiClose (client : AdsiClient).

Section Setup.

Variable adsi_NewClient : AdsiClient + error.
Variable dnc : AdsiClient -> string + error.
Variable config_Domain : AdsiClient -> string -> Domain + error.
Variable isMatch : string -> regexSlice -> bool -> bool.

Variables groupRegex fromRegex toRegex memberRegex skipRegex : regexSlice.

(** The innermost loop, over [member.Connections]; every [continue] is a
    step to the rest of the slice with [connections] as it is. *)
Fixpoint connections_loop (group : Group) (to : string)
    (rest : list Connection) (connections : list Backlog) : list Backlog :=
  match rest with
  | [] => connections
  | conn :: rest =>
      let from := Host (Connection_Computer conn) in
      if decide (from = EmptyString) then
        connections_loop group to rest connections
      else if negb (Enabled conn) then
        connections_loop group to rest connections
      else if isMatch from skipRegex false then
        connections_loop group to rest connections
      else if negb (isMatch from fromRegex true) then
        connections_loop group to rest connections
      else if negb (isMatch from memberRegex true)
              && negb (isMatch to memberRegex true) then
        connections_loop group to rest connections
      else
        connections_loop group to rest
          (connections ++ [mkBacklog group from to [] 0 None])
  end.

(** The loop over [group.Members]. *)
Fixpoint members_loop (group : Group) (rest : list Member)
    (connections : list Backlog) : list Backlog :=
  match rest with
  | [] => connections
  | member :: rest =>
      let to := Host (Member_Computer member) in
      if decide (to = EmptyString) then members_loop group rest connections
      else if isMatch to skipRegex false then members_loop group rest connections
      else if negb (isMatch to toRegex true) then
        members_loop group rest connections
      else
        members_loop group rest
          (connections_loop group to (Connections member) connections)
  end.

(** The loop over [d.Groups]. *)
Fixpoint groups_loop (rest : list Group) (connections : list Backlog)
    : list Backlog :=
  match rest with
  | [] => connections
  | group :: rest =>
      if negb (isMatch (Name group) groupRegex true) then
        groups_loop rest connections
      else groups_loop rest (members_loop group (Members group) connections)
  end.

(** [func setup(domain string, groupRegex, fromRegex, toRegex, memberRegex,
    skipRegex regexSlice) (dom string, connections []core.Backlog, err error)].
    The result comes with the calls made, in order; the deferred
    [client.Close()] is the last of them on every path after the client
    exists. *)
Definition setup (domain : string)
    : (string * list Backlog * option error) * list event :=
  match adsi_NewClient with
  | inr e => ((EmptyString, [], Some e), [EvAdsiNewClient (inr e)])
  | inl client =>
      let h0 := [EvAdsiNewClient (inl client)] in
      let resolved :=
        if decide (domain = EmptyString)
        then (dnc client, h0 ++ [EvDnc client (dnc client)])
        else (inl domain, h0) in
      match fst resolved with
      | inr e => ((EmptyString, [], Some e), snd resolved ++ [EvAdsiClose client])
      | inl domain =>
          let fetched := config_Domain client domain in
          let h1 := snd resolved ++ [EvConfigDomain client domain fetched] in
          match fetched with
          | inr e => ((domain, [], Some e), h1 ++ [EvAdsiClose client])
          | inl d => ((domain, groups_loop (Groups d) [], None),
                      h1 ++ [EvAdsiClose client])
          end
      end
  end.

End Setup.

(** The filters of [setup], read off its [continue] statements: which
    groups, which members as destination, and which connections of such a
    member are let through. *)
Section Filters.

Variable isMatch : string -> regexSlice -> bool -> bool.
Variables groupRegex fromRegex toRegex memberRegex skipRegex : regexSlice.

Definition passes_group (group : Group) : bool :=
  isMatch (Name group) groupRegex true.

Definition passes_member (member : Member) : bool :=
  let to := Host (Member_Computer member) in
  negb (bool_decide (to = EmptyString))
  && negb (isMatch to skipRegex false)
  && isMatch to toRegex true.

Definition passes_connection (member : Member) (conn : Connection) : bool :=
  let to := Host (Member_Computer member) in
  let from := Host (Connection_Computer conn) in
  negb (bool_decide (from = EmptyString))
  && Enabled conn
  && negb (isMatch from skipRegex false)
  && isMatch from fromRegex true
  && (isMatch from memberRegex true || isMatch to memberRegex true).

End Filters.

(** *** computeBacklog *)

Section ComputeBacklog.

(** [client.Backlog(ctx, from, to, group)]. *)
Variable client_Backlog :
  Ctx -> string -> string -> GUID -> list Z * CallStat * option error.

(** The loop that fills [backlog.Folders]: [v] runs from 0 while [v < n];
    [remaining] is [n - v].  [None] is the panic of an index out of
    range. *)
Fixpoint fill_loop (remaining v : nat) (values : list Z)
    (groupFolders : list Folder) (folders : list FolderBacklog)
    : option (list FolderBacklog) :=
  match remaining with
  | O => Some folders
  | S remaining' =>
      match groupFolders !! v, values !! v, folders !! v with
      | Some _, Some x, Some _ =>
          fill_loop remaining' (S v) values groupFolders
            (<[v := mkFolderBacklog (Some v) x]> folders)
      | _, _, _ => None
      end
  end.

(** [func computeBacklog(ctx, client, backlog *core.Backlog, wg
    *sync.WaitGroup)], on the record [backlog] points to and the counter of
    [wg].  [None] is a panic: of the nil dereference of [Group.ID], of an
    index out of range, or of [wg.Done()] on a counter that is zero. *)
Definition computeBacklog (ctx : Ctx) (backlog : Backlog) (wg : Z)
    : option (Backlog * Z) :=
  match ID (Backlog_Group backlog) with
  | None => None
  | Some id =>
      let res := client_Backlog ctx (From backlog) (To backlog) id in
      let values := fst (fst res) in
      let n := length values in
      let filled :=
        if decide (n = length (Group_Folders (Backlog_Group backlog))) then
          fill_loop n 0 values (Group_Folders (Backlog_Group backlog))
            (replicate n (mkFolderBacklog None 0))
        else Some (Folders backlog) in
      match filled with
      | None => None
      | Some folders =>
          if (wg - 1 <? 0)%Z then None
          else Some (mkBacklog (Backlog_Group backlog) (From backlog)
                       (To backlog) folders (snd (fst res)) (snd res),
                     (wg - 1)%Z)
      end
  end.

End ComputeBacklog.

(** *** main *)

(** A [uintOrInf] flag as [flag.Parse] leaves it. *)
Record uintOrInf : Type := mkUintOrInf {
  Present : bool;
  Inf : bool;
  Value : Z
}.

(** The package-level flag variables that [main] reads. *)
Record flags : Type := mkFlags {
  domainFlag : string;
  groupFlag : regexSlice;
  fromFlag : regexSlice;
  toFlag : regexSlice;
  memberFlag : regexSlice;
  loopFlag : uintOrInf;
  timeoutSecondsFlag : uintOrInf;
  delaySecondsFlag : Z;
  cacheSecondsFlag : Z;
  skipFlag : regexSlice;
  minFlag : Z
}.

Definition defaultLoopValue : Z := 1.
Definition defaultTimeoutSecondsValue : Z := 30.

(** What [main] does, as seen from outside. *)
Inductive output : Type :=
| OutSetup (e : event)
| OutFatal (err : error)                         (* log.Fatal(err) *)
| OutNewClient (res : HelperClient + error)      (* helper.NewClient() *)
| OutCache (client : HelperClient) (d : Z)       (* client.Cache(d) *)
| OutWithTimeout (d : Z)
| OutWithCancel
| OutRun (domain : string) (iteration : Z) (min : Z) (client : HelperClient)
    (connections : list Backlog)
| OutPrintln
| OutSleep (d : Z)
| OutCancel.                                     (* the deferred cancel() *)

(** How [main] ends: it returns, [log.Fatal] ends the process, or it is
    still looping when the fuel is spent. *)
Inductive ending : Type := Returns | Exits | Loops.

Section Main.

Variable adsi_NewClient : AdsiClient + error.
Variable dnc : AdsiClient -> string + error.
Variable config_Domain : AdsiClient -> string -> Domain + error.
Variable isMatch : string -> regexSlice -> bool -> bool.
Variable helper_NewClient : HelperClient + error.

Variable f : flags.

(** [for loop := uint(0); ; loop++]. *)
Fixpoint infinite_loop (fuel : nat) (domain : string) (client : HelperClient)
    (connections : list Backlog) (loop : Z) (out : list output)
    : ending * list output :=
  match fuel with
  | O => (Loops, out)
  | S fuel' =>
      infinite_loop fuel' domain client connections (uint (loop + 1))
        (out ++ [OutRun domain loop (minFlag f) client connections;
                 OutSleep (seconds (delaySecondsFlag f))])
  end.

(** [for loop := uint(0); loop < loopFlag.Value; loop++], with the value
    of the flag as [main] left it. *)
Fixpoint finite_loop (fuel : nat) (value : Z) (domain : string)
    (client : HelperClient) (connections : list Backlog) (loop : Z)
    (out : list output) : ending * list output :=
  if (loop <? value)%Z then
    match fuel with
    | O => (Loops, out)
    | S fuel' =>
        let out1 := out ++ [OutRun domain loop (minFlag f) client connections] in
        let out2 :=
          if (uint (loop + 1) <? value)%Z
          then out1 ++ [OutPrintln; OutSleep (seconds (delaySecondsFlag f))]
          else out1 in
        finite_loop fuel' value domain client connections (uint (loop + 1)) out2
    end
  else (Returns, out).

(** [func main()], after [flag.Parse()]. *)
Definition main (fuel : nat) : ending * list output :=
  let value :=
    if negb (Present (loopFlag f)) then defaultLoopValue
    else Value (loopFlag f) in
  if negb (Inf (loopFlag f)) && (value =? 0)%Z then (Returns, [])
  else
    let timeout :=
      if negb (Present (timeoutSecondsFlag f)) then defaultTimeoutSecondsValue
      else Value (timeoutSecondsFlag f) in
    let made :=
      setup adsi_NewClient dnc config_Domain isMatch
        (groupFlag f) (fromFlag f) (toFlag f) (memberFlag f) (skipFlag f)
        (domainFlag f) in
    let out0 := OutSetup <$> snd made in
    match snd (fst made) with
    | Some err => (Exits, out0 ++ [OutFatal err])
    | None =>
        let domain := fst (fst (fst made)) in
        let connections := snd (fst (fst made)) in
        let out1 := out0 ++ [OutNewClient helper_NewClient] in
        match helper_NewClient with
        | inr err => (Exits, out1 ++ [OutFatal err])
        | inl client =>
            let out2 :=
              if (0 <? cacheSecondsFlag f)%Z
              then out1 ++ [OutCache client (seconds (cacheSecondsFlag f))]
              else out1 in
            let out3 :=
              if negb (Inf (timeoutSecondsFlag f)) && negb (timeout =? 0)%Z
              then out2 ++ [OutWithTimeout (seconds timeout)]
              else out2 ++ [OutWithCancel] in
            if Inf (loopFlag f) then
              infinite_loop fuel domain client connections 0 out3
            else
              let done :=
                finite_loop fuel value domain client connections 0 out3 in
              match fst done with
              | Returns => (Returns, snd done ++ [OutCancel])
              | other => (other, snd done)
              end
        end
    end.

End Main.

(** The iteration numbers of the runs in an output, in order. *)
Definition iterations (out : list output) : list Z :=
  omap (fun o => match o with OutRun _ i _ _ _ => Some i | _ => None end) out.

(** The sleeps in an output, in order. *)
Definition sleeps (out : list output) : list Z :=
  omap (fun o => match o with OutSleep d => Some d | _ => None end) out.

(** What [main] puts out before its loops, once [setup] has succeeded
    and the client exists. *)
Definition of_the_start (o : output) : Prop :=
  match o with
  | OutSetup _ | OutNewClient _ | OutCache _ _ | OutWithTimeout _
  | OutWithCancel => True
  | _ => False
  end.

(** What the loops of [main] put out: runs on the same domain, client
    and connections, blank lines and sleeps. *)
Definition of_the_loop (domain : string) (min : Z) (client : HelperClient)
    (connections : list Backlog) (o : output) : Prop :=
  match o with
  | OutRun d _ m c cs =>
      d = domain /\ m = min /\ c = client /\ cs = connections
  | OutPrintln | OutSleep _ => True
  | _ => False
  end.

(** Matching by equality with one of the patterns, every name matching
    when there is no pattern and the default says so. *)
Definition literal_match (s : string) (patterns : regexSlice) (dflt : bool)
    : bool :=
  match patterns with
  | [] => dflt
  | _ => bool_decide (s ∈ patterns)
  end.

(** A domain of one group with two members that replicate to each
    other, the connection towards the second being disabled. *)
Definition two_members : Domain :=
  mkDomain
    [mkGroup "docs" (Some 4) [10; 11]
       [mkMember (mkComputer "a.example")
          [mkConnection (mkComputer "b.example") true];
        mkMember (mkComputer "b.example")
          [mkConnection (mkComputer "a.example") false]]].

(** The directory of [two_members], and a client that answers every
    query with one count per folder it is asked about. *)
Definition one_domain : AdsiClient -> string -> Domain + error :=
  fun _ _ => inl two_members.

Definition steady :
  Ctx -> string -> string -> GUID -> list Z * CallStat * option error :=
  fun _ _ _ _ => ([5; 0]%Z, 1, None).

Definition once : flags :=
  mkFlags "example" [] [] [] [] (mkUintOrInf true false 2)
    (mkUintOrInf false false 0) 5 0 [] 0.

End Command.

(** ** Facts about the durable reporter, one caller at a time *)

Module DurableFacts.
Import Durable.

Lemma count_snoc (p : event -> bool) (h : list event) (e : event) :
  count p (h ++ [e]) = count p h + (if p e then 1 else 0).
Proof.
  unfold count. rewrite filter_app, length_app. f_equal.
  destruct (p e) eqn:E.
  - rewrite filter_cons_True by done. reflexivity.
  - rewrite filter_cons_False by (rewrite E; discriminate). reflexivity.
Qed.

Ltac run :=
  unfold recover, assess, time_Now, NewReporter, action, go, emit, get_r,
    get_lastRecovery, get_interval, get_attempts, get_server, put_r,
    put_lastRecovery, bind, ret in *; simpl in *.

Ltac tally :=
  unfold actions, blocking_recoveries, background_recoveries, constructions;
  repeat rewrite count_snoc; simpl; lia.

Section WithEnvironment.

Variable clock : list event -> Z.
Variable newReporter : list event -> string -> Reporter + error.
Variable perform : list event -> call -> Reporter -> option error.

Local Abbreviation recover := (recover clock newReporter).
Local Abbreviation assess := (assess clock newReporter).
Local Abbreviation attempt_loop := (attempt_loop clock newReporter perform).
Local Abbreviation attempt := (attempt clock newReporter perform).

(** What one run of [recover] does to the configuration and the
    counters: nothing to the former, one entry and at most one
    construction to the latter. *)
Lemma recover_frame (reporter : Reporter) (s : state) :
  let s' := snd (recover reporter s) in
  attempts (fst s') = attempts (fst s) /\
  actions (snd s') = actions (snd s) /\
  blocking_recoveries (snd s') = blocking_recoveries (snd s) + 1 /\
  background_recoveries (snd s') = background_recoveries (snd s) /\
  constructions (snd s') <= constructions (snd s) + 1.
Proof.
  destruct s as [d h]. run.
  destruct (decide (r d ≠ reporter)); simpl.
  { repeat split; try tally. }
  destruct (Sub _ _ <? _)%Z; simpl.
  { repeat split; try tally. }
  destruct (newReporter _ _); simpl; repeat split; try tally.
Qed.

(** The verdict of [assess] on an error that is not the closed one,
    when attempts remain: the call is made again whatever [recover]
    answered. *)
Lemma assess_nonfinal (i : Z) (reporter : Reporter) (e : error) (s : state) :
  e ≠ ErrClosed ->
  (uint (i + 1) < attempts (fst s))%Z ->
  exists rerr,
    assess i reporter (Some e) s = ((true, rerr), snd (recover reporter s)) /\
    rerr = match fst (recover reporter s) with
           | Some x => Some x
           | None => Some e
           end.
Proof.
  intros Hne Hlt. unfold Durable.assess.
  destruct (decide (e = ErrClosed)) as [|_]; [done|].
  unfold bind at 1, get_attempts at 1.
  destruct (Z.leb_spec (attempts (fst s)) (uint (i + 1))); [lia|].
  unfold bind. destruct (recover reporter s) as [[x|] s'] eqn:E; simpl; eauto.
Qed.

Lemma assess_final (i : Z) (reporter : Reporter) (e : error) (s : state) :
  e ≠ ErrClosed ->
  (attempts (fst s) <= uint (i + 1))%Z ->
  assess i reporter (Some e) s
  = ((false, Some e), (fst s, snd s ++ [EvGo (GoRecover reporter)])).
Proof.
  intros Hne Hle. unfold Durable.assess.
  destruct (decide (e = ErrClosed)) as [|_]; [done|].
  unfold bind at 1, get_attempts at 1.
  destruct (Z.leb_spec (attempts (fst s)) (uint (i + 1))); [|lia].
  reflexivity.
Qed.

Lemma uint_small (z : Z) : (0 <= z < 2 ^ 64)%Z -> uint z = z.
Proof. intros H. unfold uint, uint_bits. apply Z.mod_small. lia. Qed.

(** One turn of the loop, spelled out. *)
Lemma attempt_loop_turn (c : call) (n : nat) (i : Z) (err0 : option error)
    (s : state) :
  attempt_loop c (S n) i err0 s
  = let rep := r (fst s) in
    let res := perform (snd s) c rep in
    let s1 := (fst s, snd s ++ [EvAction c rep res]) in
    let v := assess i rep res s1 in
    if negb (fst (fst v)) then (snd (fst v), snd v)
    else attempt_loop c n (i + 1)%Z (snd (fst v)) (snd v).
Proof.
  cbn [Durable.attempt_loop]. unfold bind at 1, get_r at 1.
  unfold bind at 1, action at 1. unfold bind at 1.
  cbv zeta. destruct (assess _ _ _ _) as [[re e2] s2].
  cbn [fst snd]. destruct re; reflexivity.
Qed.

(** The loop on a call that never succeeds and never reports closed. *)
Lemma attempt_loop_always_failing (c : call) (n : nat) :
  (forall h rep, exists e, perform h c rep = Some e /\ e ≠ ErrClosed) ->
  forall (i : Z) (err0 : option error) (s : state),
    (0 <= i)%Z ->
    attempts (fst s) = (i + Z.of_nat (S n))%Z ->
    (attempts (fst s) < 2 ^ 64)%Z ->
    exists e d' hpre rep,
      attempt_loop c (S n) i err0 s
      = (Some e, (d', hpre ++ [EvAction c rep (Some e); EvGo (GoRecover rep)])) /\
      e ≠ ErrClosed /\
      let h' := hpre ++ [EvAction c rep (Some e); EvGo (GoRecover rep)] in
      actions h' = actions (snd s) + S n /\
      blocking_recoveries h' = blocking_recoveries (snd s) + n /\
      background_recoveries h' = background_recoveries (snd s) + 1 /\
      constructions h' <= constructions (snd s) + n.
Proof.
  intros Hfail. induction n as [|n IH]; intros i err0 [d h] Hi Hatt Hmax.
  - rewrite attempt_loop_turn. cbn [fst snd]. cbv zeta.
    destruct (Hfail h (r d)) as (e & He & Hne). rewrite He.
    rewrite assess_final; [|done|cbn [fst snd] in *; rewrite uint_small; lia].
    cbn [fst snd negb]. 
    exists e, d, h, (r d). rewrite <- app_assoc.
    split; [reflexivity|]. split; [done|]. cbv zeta.
    replace (h ++ [EvAction c (r d) (Some e); EvGo (GoRecover (r d))])
      with ((h ++ [EvAction c (r d) (Some e)]) ++ [EvGo (GoRecover (r d))])
      by (rewrite <- app_assoc; reflexivity).
    repeat split; tally.
  - rewrite attempt_loop_turn. cbn [fst snd]. cbv zeta.
    destruct (Hfail h (r d)) as (e & He & Hne). rewrite He.
    set (s1 := (d, h ++ [EvAction c (r d) (Some e)])).
    destruct (assess_nonfinal i (r d) e s1 Hne) as (rerr & Has & _).
    { unfold s1. cbn [fst snd] in *. rewrite uint_small; lia. }
    rewrite Has. cbn [fst snd negb].
    pose proof (recover_frame (r d) s1) as (Fa & Fb & Fc & Fd & Fe).
    destruct (IH (i + 1)%Z rerr (snd (recover (r d) s1))) as
      (e' & d' & hpre & rep & Hrun & Hne' & Ga & Gb & Gc & Gd).
    { lia. }
    { rewrite Fa. unfold s1. cbn [fst snd] in *. lia. }
    { rewrite Fa. unfold s1. cbn [fst snd] in *. lia. }
    exists e', d', hpre, rep. split; [exact Hrun|]. split; [done|].
    cbv zeta in *. rewrite Ga, Gb, Gc.
    subst s1. cbn [fst snd] in *.
    assert (actions (h ++ [EvAction c (r d) (Some e)]) = actions h + 1) by tally.
    assert (blocking_recoveries (h ++ [EvAction c (r d) (Some e)])
            = blocking_recoveries h) by tally.
    assert (background_recoveries (h ++ [EvAction c (r d) (Some e)])
            = background_recoveries h) by tally.
    assert (constructions (h ++ [EvAction c (r d) (Some e)])
            = constructions h) by tally.
    repeat split; lia.
Qed.

Lemma attempt_unfold (c : call) (s : state) :
  attempt c s = attempt_loop c (Z.to_nat (attempts (fst s))) 0%Z None s.
Proof. reflexivity. Qed.

Lemma assess_closed (i : Z) (reporter : Reporter) (s : state) :
  assess i reporter (Some ErrClosed) s = ((false, Some ErrClosed), s).
Proof. reflexivity. Qed.

End WithEnvironment.

(** C7.  When the underlying call answers [ErrClosed], [assess] asks for
    no retry and touches nothing, so the turn of the loop in which it
    happens is the last: the caller gets [ErrClosed] back, the reporter's
    fields are unchanged, and the only thing that happened is that one
    call; no recovery is run or launched.  This holds at every turn of the
    loop and for each of Vector, Backlog and Report. *)
Theorem C7_closed_is_returned_at_once
    (clock : list event -> Z)
    (newReporter : list event -> string -> Reporter + error)
    (perform : list event -> call -> Reporter -> option error)
    (c : call) (n : nat) (i : Z) (err0 : option error) (s : state) :
  perform (snd s) c (r (fst s)) = Some ErrClosed ->
  attempt_loop clock newReporter perform c (S n) i err0 s
  = (Some ErrClosed, (fst s, snd s ++ [EvAction c (r (fst s)) (Some ErrClosed)])) /\
  ((0 < attempts (fst s))%Z ->
   attempt clock newReporter perform c s
   = (Some ErrClosed, (fst s, snd s ++ [EvAction c (r (fst s)) (Some ErrClosed)]))).
Proof.
  intros Hc.
  assert (forall m j e0,
    attempt_loop clock newReporter perform c (S m) j e0 s
    = (Some ErrClosed, (fst s, snd s ++ [EvAction c (r (fst s)) (Some ErrClosed)])))
    as Hturn.
  { intros m j e0. rewrite attempt_loop_turn. cbv zeta. rewrite Hc.
    rewrite assess_closed. reflexivity. }
  split; [apply Hturn|].
  intros Hpos. rewrite attempt_unfold.
  destruct (Z.to_nat (attempts (fst s))) as [|m] eqn:E; [lia|apply Hturn].
Qed.

Lemma C7_closed_is_returned_at_once_witness :
  let s := (mkDurable "srv" 30 3 0 0, []) in
  Vector (frozen_clock 0) reachable (failing ErrClosed) 5 s
  = (Some ErrClosed, (fst s, [EvAction (CallVector 5) 0 (Some ErrClosed)])).
Proof.
  intros s.
  apply (C7_closed_is_returned_at_once (frozen_clock 0) reachable
           (failing ErrClosed) (CallVector 5) 0 0%Z None s).
  - reflexivity.
  - simpl. lia.
Defined.


(** The same in general: on a turn that is not the last, a retryable
    error makes [assess] ask for another turn whether [recover] failed or
    not, and the error [recover] returned is overwritten by the next
    call. *)
Lemma failed_recreation_is_followed_by_a_retry
    (clock : list event -> Z)
    (newReporter : list event -> string -> Reporter + error)
    (i : Z) (reporter : Reporter) (e : error) (s : state) :
  e ≠ ErrClosed ->
  (uint (i + 1) < attempts (fst s))%Z ->
  fst (fst (assess clock newReporter i reporter (Some e) s)) = true.
Proof.
  intros Hne Hlt.
  destruct (assess_nonfinal clock newReporter i reporter e s Hne Hlt)
    as (rerr & -> & _).
  reflexivity.
Qed.

(** C3 (as the code has it).  With [retries = R], [R + 1] not wrapping
    around, a call that always fails with a retryable error is made
    exactly [R + 1] times; the caller runs [recover] exactly [R] times,
    constructing at most [R] reporters, and on the last turn one more
    [recover] is launched in the background; the error returned is the one
    of the last call. *)
Theorem C3_always_failing_call
    (clock : list event -> Z)
    (newReporter : list event -> string -> Reporter + error)
    (perform : list event -> call -> Reporter -> option error)
    (c : call) (retries : Z) (d : durableReporter) (h : list event) :
  (0 <= retries < 2 ^ 64 - 1)%Z ->
  attempts d = uint (retries + 1) ->
  (forall h' rep, exists e, perform h' c rep = Some e /\ e ≠ ErrClosed) ->
  exists e d' hpre rep,
    attempt clock newReporter perform c (d, h)
    = (Some e, (d', hpre ++ [EvAction c rep (Some e); EvGo (GoRecover rep)])) /\
    e ≠ ErrClosed /\
    let h' := hpre ++ [EvAction c rep (Some e); EvGo (GoRecover rep)] in
    actions h' = actions h + Z.to_nat retries + 1 /\
    blocking_recoveries h' = blocking_recoveries h + Z.to_nat retries /\
    background_recoveries h' = background_recoveries h + 1 /\
    constructions h' <= constructions h + Z.to_nat retries.
Proof.
  intros Hr Hatt Hfail. rewrite uint_small in Hatt by lia.
  rewrite attempt_unfold. cbn [fst]. rewrite Hatt.
  replace (Z.to_nat (retries + 1)) with (S (Z.to_nat retries)) by lia.
  destruct (attempt_loop_always_failing clock newReporter perform c
              (Z.to_nat retries) Hfail 0%Z None (d, h))
    as (e & d' & hpre & rep & Hrun & Hne & Ha & Hb & Hc & Hd);
    cbn [fst snd]; try lia.
  exists e, d', hpre, rep. split; [exact Hrun|]. split; [done|].
  cbv zeta in *. cbn [fst snd] in *. repeat split; lia.
Qed.

Lemma C3_always_failing_call_witness :
  exists e d' hpre rep,
    attempt (frozen_clock 0) reachable (failing (ErrForeign 1)) (CallVector 5)
      (mkDurable "srv" 0 (uint (2 + 1)) 0 0, [])
    = (Some e, (d', hpre ++ [EvAction (CallVector 5) rep (Some e);
                             EvGo (GoRecover rep)])) /\
    e ≠ ErrClosed /\
    let h' := hpre ++ [EvAction (CallVector 5) rep (Some e);
                       EvGo (GoRecover rep)] in
    actions h' = actions [] + Z.to_nat 2 + 1 /\
    blocking_recoveries h' = blocking_recoveries [] + Z.to_nat 2 /\
    background_recoveries h' = background_recoveries [] + 1 /\
    constructions h' <= constructions [] + Z.to_nat 2.
Proof.
  apply (C3_always_failing_call (frozen_clock 0) reachable
           (failing (ErrForeign 1)) (CallVector 5) 2
           (mkDurable "srv" 0 (uint (2 + 1)) 0 0) []).
  - lia.
  - reflexivity.
  - intros h' rep. exists (ErrForeign 1). split; [reflexivity|discriminate].
Defined.

(** C3 as stated fails already for [R = 0]: the single call is made once,
    and one recreation attempt is launched (in the background), which is
    more than [R]; left to run, that attempt does construct a reporter. *)
Lemma C3_counterexample :
  let R := 0%Z in
  let d := mkDurable "srv" 0 (uint (R + 1)) 0 0 in
  let out := attempt (frozen_clock 0) reachable (failing (ErrForeign 1))
               (CallVector 5) (d, []) in
  out = (Some (ErrForeign 1),
         (d, [EvAction (CallVector 5) 0 (Some (ErrForeign 1)); EvGo (GoRecover 0)])) /\
  actions (snd (snd out)) = Z.to_nat R + 1 /\
  recreations_triggered (snd (snd out)) = 1 /\
  ¬ (recreations_triggered (snd (snd out)) <= Z.to_nat R) /\
  constructions (snd (snd (recover (frozen_clock 0) reachable 0 (snd out)))) = 1.
Proof.
  vm_compute. repeat split; try reflexivity. intros H. inversion H.
Qed.

(** With [retries] at the top of the range of [uint], [retries + 1] wraps
    to zero attempts: the call is never made and no error comes back. *)
Lemma attempts_wrap_around :
  let d := mkDurable "srv" 0 (uint ((2 ^ 64 - 1) + 1)) 0 0 in
  attempt (frozen_clock 0) reachable (failing (ErrForeign 1)) (CallVector 5) (d, [])
  = (None, (d, [])).
Proof. vm_compute. reflexivity. Qed.

End DurableFacts.

(** ** Facts about the durable reporter under concurrent callers *)

Module DurableConcFacts.
Import Durable DurableConc.

Lemma Sub_not_less (t u ival : Z) :
  (u <= t)%Z -> (ival <= maxDuration)%Z ->
  (Sub t u <? ival)%Z = false -> (ival <= t - u)%Z.
Proof.
  unfold Sub, maxDuration, minDuration. intros Hle Hmax H.
  apply Z.ltb_ge in H.
  destruct (Z.ltb_spec (2 ^ 63 - 1) (t - u)); [lia|].
  destruct (Z.ltb_spec (t - u) (- 2 ^ 63)); lia.
Qed.

Lemma spaced_snoc (ival : Z) (l : list Z) (c : Z) :
  spaced ival l -> (forall k a, l !! k = Some a -> (ival <= c - a)%Z) ->
  spaced ival (l ++ [c]).
Proof.
  intros Hs Hc i j a b Hij Ha Hb.
  apply lookup_app_Some in Hb as [Hb|[Hlen Hb]].
  - apply lookup_app_Some in Ha as [Ha|[Hlen' Ha]].
    + eapply Hs; eauto.
    + apply lookup_lt_Some in Hb. exfalso. clear -Hij Hlen' Hb. lia.
  - apply list_lookup_singleton_Some in Hb as [Hj <-].
    apply lookup_app_Some in Ha as [Ha|[Hlen' Ha]].
    + eapply Hc; eauto.
    + apply list_lookup_singleton_Some in Ha as [Hi' _].
      exfalso. clear -Hij Hlen Hlen' Hj Hi'. lia.
Qed.

(** Splitting a lookup in the pool after goroutine [tid] has moved. *)
Ltac whose Hi :=
  apply list_lookup_insert_Some in Hi;
  destruct Hi as [(-> & <- & _)|[? Hi]].

(** The goroutine that has not stamped yet is not the one that moved. *)
Ltac still_unstamped Hg :=
  match goal with
  | Hi : pool _ !! ?i = Some ?h, Hun : unstamped (at_pc ?h) = true |- _ =>
      right; split; [done|]; exists i, h; split; [|done];
      rewrite list_lookup_insert_ne; [done|];
      intros ->; rewrite Hg in Hi; injection Hi as <-; simpl in Hun; discriminate
  end.

Lemma recover_statement_preserves (tid : nat) (g : goroutine) (answer : Reporter + error)
    (σ σ' : system) :
  (interval (dr σ) <= maxDuration)%Z ->
  invariant σ -> pool σ !! tid = Some g -> statement tid g answer σ = Some σ' ->
  invariant σ' /\ interval (dr σ') = interval (dr σ).
Proof.
  intros Hmax [Hclock Howner Hchecked Hpast Hstamped Hspaced] Hg Hst.
  destruct g as [snap p].
  assert (Hlt : tid < length (pool σ)) by (by eapply lookup_lt_Some).
  destruct p; unfold statement, attempt, recover in Hst; simpl in Hst.
  - (* RLock *)
    destruct (writer σ) eqn:Hw; [done|]. injection Hst as <-. split; [|done].
    split; simpl; try done.
    + intros i h Hi Hin. whose Hi; [done|].
      specialize (Howner _ _ Hi Hin). congruence.
    + intros i h b Hi Hat. whose Hi; [done|]. eauto.
    + intros k c Hk. destruct (Hstamped k c Hk) as [|(Hlen & i & h & Hi & Hun)]; [by left|].
      still_unstamped Hg.
  - (* reporter := r.r *)
    injection Hst as <-. split; [|done].
    split; simpl; try done.
    + intros i h Hi Hin. whose Hi; [done|]. eauto.
    + intros i h b Hi Hat. whose Hi; [done|]. eauto.
    + intros k c Hk. destruct (Hstamped k c Hk) as [|(Hlen & i & h & Hi & Hun)]; [by left|].
      still_unstamped Hg.
  - (* RUnlock *)
    injection Hst as <-. split; [|done].
    split; simpl; try done.
    + intros i h Hi Hin. whose Hi; [done|]. eauto.
    + intros i h b Hi Hat. whose Hi; [done|]. eauto.
    + intros k c Hk. destruct (Hstamped k c Hk) as [|(Hlen & i & h & Hi & Hun)]; [by left|].
      still_unstamped Hg.
  - (* Lock *)
    destruct (writer σ) eqn:Hw; [done|]. destruct (readers σ); [|done].
    injection Hst as <-. split; [|done].
    split; simpl; try done.
    + intros i h Hi Hin. whose Hi; [done|].
      specialize (Howner _ _ Hi Hin). congruence.
    + intros i h b Hi Hat. whose Hi; [done|]. eauto.
    + intros k c Hk. destruct (Hstamped k c Hk) as [|(Hlen & i & h & Hi & Hun)]; [by left|].
      still_unstamped Hg.
  - (* identity check *)
    pose proof (Howner _ _ Hg eq_refl) as Hw.
    destruct (decide (r (dr σ) ≠ snap)); injection Hst as <-; (split; [|done]);
      split; simpl; try done.
    + intros i h Hi Hin. whose Hi; [done|]. eauto.
    + intros i h b Hi Hat. whose Hi; [done|]. eauto.
    + intros k c Hk. destruct (Hstamped k c Hk) as [|(Hlen & i & h & Hi & Hun)]; [by left|].
      still_unstamped Hg.
    + intros i h Hi Hin. whose Hi; [done|]. eauto.
    + intros i h b Hi Hat. whose Hi; [done|]. eauto.
    + intros k c Hk. destruct (Hstamped k c Hk) as [|(Hlen & i & h & Hi & Hun)]; [by left|].
      still_unstamped Hg.
  - (* clock check *)
    pose proof (Howner _ _ Hg eq_refl) as Hw.
    destruct (Sub _ _ <? _)%Z eqn:Hsub; injection Hst as <-; (split; [|done]);
      split; simpl; try done.
    + intros i h Hi Hin. whose Hi; [done|]. eauto.
    + intros i h b Hi Hat. whose Hi; [done|]. eauto.
    + intros k c Hk. destruct (Hstamped k c Hk) as [|(Hlen & i & h & Hi & Hun)]; [by left|].
      still_unstamped Hg.
    + intros i h Hi Hin. whose Hi; [done|]. eauto.
    + intros i h b Hi Hat. whose Hi; [|by eauto].
      injection Hat as <-. split; [|lia].
      by apply Sub_not_less.
    + intros k c Hk. destruct (Hstamped k c Hk) as [|(Hlen & i & h & Hi & Hun)]; [by left|].
      still_unstamped Hg.
  - (* NewReporter *)
    pose proof (Howner _ _ Hg eq_refl) as Hw.
    destruct (Hchecked _ _ _ Hg eq_refl) as [Hival Hb].
    assert (Hall : forall k c, constructed σ !! k = Some c -> (c <= lastRecovery (dr σ))%Z).
    { intros k c Hk. destruct (Hstamped k c Hk) as [|(Hlen & i & h & Hi & Hun)]; [done|].
      assert (writer σ = Some i) as Hwi by (eapply Howner; [done|]; by destruct (at_pc h)).
      assert (i = tid) as -> by congruence.
      rewrite Hg in Hi. injection Hi as <-. done. }
    assert (Hsp : spaced (interval (dr σ)) (constructed σ ++ [now σ])).
    { apply spaced_snoc; [done|]. intros k a Hk. specialize (Hall _ _ Hk). lia. }
    assert (Hpa : forall k c, (constructed σ ++ [now σ]) !! k = Some c -> (c <= now σ)%Z).
    { intros k c Hk. apply lookup_app_Some in Hk as [Hk|[_ Hk]]; [by eauto|].
      apply list_lookup_singleton_Some in Hk as [_ <-]. lia. }
    destruct answer as [fresh|e]; injection Hst as <-; (split; [|done]);
      split; simpl; try done.
    + intros i h Hi Hin. whose Hi; [done|]. eauto.
    + intros i h b Hi Hat. whose Hi; [done|]. eauto.
    + intros k c Hk. apply lookup_app_Some in Hk as [Hk|[Hlen Hk]]; [left; by eauto|].
      apply list_lookup_singleton_Some in Hk as [Hk0 <-].
      right. split. { rewrite length_app. simpl. lia. }
      exists tid, (mkGoroutine snap (AtSwap fresh)). split; [|done].
      by apply list_lookup_insert_eq.
    + intros i h Hi Hin. whose Hi; [done|]. eauto.
    + intros i h b Hi Hat. whose Hi; [done|]. eauto.
    + intros k c Hk. apply lookup_app_Some in Hk as [Hk|[Hlen Hk]]; [left; by eauto|].
      apply list_lookup_singleton_Some in Hk as [Hk0 <-].
      right. split. { rewrite length_app. simpl. lia. }
      exists tid, (mkGoroutine snap (AtStamp (Some e))). split; [|done].
      by apply list_lookup_insert_eq.
  - (* swap *)
    pose proof (Howner _ _ Hg eq_refl) as Hw.
    injection Hst as <-. split; [|done].
    split; simpl; try done.
    + intros i h Hi Hin. whose Hi; [done|]. eauto.
    + intros i h b Hi Hat. whose Hi; [done|]. eauto.
    + intros k c Hk. destruct (Hstamped k c Hk) as [|(Hlen & i & h & Hi & Hun)]; [by left|].
      right. split; [done|].
      exists tid, (mkGoroutine fresh (AtStamp None)). split; [|done].
      by apply list_lookup_insert_eq.
  - (* stamp *)
    pose proof (Howner _ _ Hg eq_refl) as Hw.
    injection Hst as <-. split; [|done].
    split; simpl; try done.
    + intros i h Hi Hin. whose Hi; [done|]. eauto.
    + intros i h b Hi Hat. whose Hi; [done|].
      assert (writer σ = Some i) as Hwi by (eapply Howner; [done|]; by rewrite Hat).
      congruence.
    + intros k c Hk. left. eauto.
  - (* Unlock *)
    pose proof (Howner _ _ Hg eq_refl) as Hw.
    injection Hst as <-. split; [|done].
    split; simpl; try done.
    + intros i h Hi Hin. whose Hi; [done|].
      specialize (Howner _ _ Hi Hin). congruence.
    + intros i h b Hi Hat. whose Hi; [done|]. eauto.
    + intros k c Hk. destruct (Hstamped k c Hk) as [|(Hlen & i & h & Hi & Hun)]; [by left|].
      still_unstamped Hg.
  - done.
Qed.

Lemma recover_step_preserves (l : label) (σ σ' : system) :
  (interval (dr σ) <= maxDuration)%Z ->
  invariant σ -> step l σ = Some σ' ->
  invariant σ' /\ interval (dr σ') = interval (dr σ).
Proof.
  intros Hmax Hinv Hst. destruct l as [dt| |snap|tid answer]; simpl in Hst.
  - destruct (Z.leb_spec 0 dt); [|done]. injection Hst as <-. split; [|done].
    destruct Hinv as [Hclock Howner Hchecked Hpast Hstamped Hspaced].
    split; simpl; try done.
    + lia.
    + intros i g b Hi Hat. destruct (Hchecked _ _ _ Hi Hat). split; lia.
    + intros k c Hk. specialize (Hpast _ _ Hk). lia.
  - injection Hst as <-. split; [|done].
    destruct Hinv as [Hclock Howner Hchecked Hpast Hstamped Hspaced].
    split; simpl; try done.
    + intros i g Hi Hin. apply lookup_app_Some in Hi as [Hi|[_ Hi]]; [by eauto|].
      apply list_lookup_singleton_Some in Hi as [_ <-]. done.
    + intros i g b Hi Hat. apply lookup_app_Some in Hi as [Hi|[_ Hi]]; [by eauto|].
      apply list_lookup_singleton_Some in Hi as [_ <-]. done.
    + intros k c Hk. destruct (Hstamped k c Hk) as [|(Hlen & i & h & Hi & Hun)]; [by left|].
      right. split; [done|]. exists i, h. split; [|done]. by apply lookup_app_l_Some.
  - injection Hst as <-. split; [|done].
    destruct Hinv as [Hclock Howner Hchecked Hpast Hstamped Hspaced].
    split; simpl; try done.
    + intros i g Hi Hin. apply lookup_app_Some in Hi as [Hi|[_ Hi]]; [by eauto|].
      apply list_lookup_singleton_Some in Hi as [_ <-]. done.
    + intros i g b Hi Hat. apply lookup_app_Some in Hi as [Hi|[_ Hi]]; [by eauto|].
      apply list_lookup_singleton_Some in Hi as [_ <-]. done.
    + intros k c Hk. destruct (Hstamped k c Hk) as [|(Hlen & i & h & Hi & Hun)]; [by left|].
      right. split; [done|]. exists i, h. split; [|done]. by apply lookup_app_l_Some.
  - destruct (pool σ !! tid) as [g|] eqn:Hg; [|done].
    by eapply recover_statement_preserves.
Qed.

Lemma recover_run_preserves (ls : list label) :
  forall σ σ',
    (interval (dr σ) <= maxDuration)%Z ->
    invariant σ -> run ls σ = Some σ' ->
    invariant σ' /\ interval (dr σ') = interval (dr σ).
Proof.
  induction ls as [|l ls IH]; intros σ σ' Hmax Hinv Hrun; simpl in Hrun.
  - injection Hrun as <-. done.
  - destruct (step l σ) as [σ1|] eqn:Hstep; [|done].
    destruct (recover_step_preserves l σ σ1 Hmax Hinv Hstep) as [Hinv1 Hival].
    destruct (IH σ1 σ') as [Hinv' Hival']; [lia|done|done|].
    split; [done|]. congruence.
Qed.

Lemma start_invariant (d : durableReporter) (built t : Z) :
  (built <= lastRecovery d)%Z -> (lastRecovery d <= t)%Z ->
  invariant (start d built t).
Proof.
  intros Hb Ht. split; simpl; try done.
  - intros k c Hk. apply list_lookup_singleton_Some in Hk as [_ <-]. lia.
  - intros k c Hk. apply list_lookup_singleton_Some in Hk as [_ <-]. by left.
  - intros i j a b Hij Ha Hb'.
    apply list_lookup_singleton_Some in Ha as [Hi _].
    apply list_lookup_singleton_Some in Hb' as [Hj _].
    exfalso. clear -Hij Hi Hj. lia.
Qed.

(** A recovery entered too early changes nothing but its own position. *)
Lemma early_recovery_is_skipped (tid : nat) (g : goroutine)
    (answer : Reporter + error) (σ : system) :
  at_pc g = AtClock ->
  (Sub (now σ) (lastRecovery (dr σ)) < interval (dr σ))%Z ->
  statement tid g answer σ
  = Some (move tid (mkGoroutine (snapshot g) (AtUnlock None)) σ).
Proof.
  intros Hat Hlt. unfold statement, recover. rewrite Hat.
  destruct (Z.ltb_spec (Sub (now σ) (lastRecovery (dr σ))) (interval (dr σ)));
    [done|lia].
Qed.

(** Once [NewReporter] has been called the timestamp is written, whatever
    the call returned: the goroutine's next statements lead to the
    deferred unlock with [lastRecovery] set to the clock. *)
Lemma timestamp_follows_construction (tid : nat) (g : goroutine) (b : Z)
    (answer : Reporter + error) (σ : system) :
  pool σ !! tid = Some g -> at_pc g = AtNewReporter b ->
  exists n σ' g',
    run (replicate n (Run tid answer)) σ = Some σ' /\
    pool σ' !! tid = Some g' /\
    at_pc g' = AtUnlock (match answer with inl _ => None | inr e => Some e end) /\
    lastRecovery (dr σ') = now σ /\
    constructed σ' = constructed σ ++ [now σ].
Proof.
  intros Hg Hat. destruct g as [snap p]. simpl in Hat. subst p.
  assert (tid < length (pool σ)) as Hlt by (by eapply lookup_lt_Some).
  destruct answer as [fresh|e].
  - exists 3. do 2 eexists. simpl. rewrite Hg. simpl.
    rewrite list_lookup_insert_eq by done. simpl.
    rewrite list_lookup_insert_eq by (by rewrite length_insert). simpl.
    split; [reflexivity|]. simpl.
    rewrite list_lookup_insert_eq by (by rewrite !length_insert). done.
  - exists 2. do 2 eexists. simpl. rewrite Hg. simpl.
    rewrite list_lookup_insert_eq by done. simpl.
    split; [reflexivity|]. simpl.
    rewrite list_lookup_insert_eq by (by rewrite !length_insert). done.
Qed.

Ltac next_statement :=
  rewrite list_lookup_insert_eq by (rewrite ?length_insert; done);
  unfold statement, recover; simpl.

(** A goroutine that runs [recover] without being interrupted, the clock
    standing still, leaves the reporter as the sequential [recover]
    does and returns the same error. *)
Lemma recover_alone (tid : nat) (snap : Reporter) (answer : Reporter + error)
    (h : list event) (σ : system) :
  pool σ !! tid = Some (mkGoroutine snap AtLock) ->
  writer σ = None -> readers σ = 0 ->
  let out := Durable.recover (frozen_clock (now σ)) (fun _ _ => answer) snap
               (dr σ, h) in
  exists n σ' snap',
    run (replicate n (Run tid answer)) σ = Some σ' /\
    dr σ' = fst (snd out) /\
    pool σ' !! tid = Some (mkGoroutine snap' (Returned (fst out))) /\
    writer σ' = None.
Proof.
  intros Hp Hw Hr. cbv zeta.
  assert (tid < length (pool σ)) as Hlen by (by eapply lookup_lt_Some).
  unfold Durable.recover, time_Now, NewReporter, go, emit, get_r,
    get_lastRecovery, get_interval, get_server, put_r, put_lastRecovery,
    bind, ret, frozen_clock. cbn [fst snd].
  destruct (decide (r (dr σ) ≠ snap)) as [Hne|Heq] eqn:Hid.
  { exists 3. do 2 eexists. split.
    { simpl. rewrite Hp. unfold statement, recover. simpl.
      rewrite Hw, Hr. simpl.
      next_statement. rewrite Hid. simpl. next_statement. reflexivity. }
    simpl. next_statement. done. }
  destruct (Sub (now σ) (lastRecovery (dr σ)) <? interval (dr σ))%Z eqn:Hsub.
  { exists 4. do 2 eexists. split.
    { simpl. rewrite Hp. unfold statement, recover. simpl.
      rewrite Hw, Hr. simpl.
      next_statement. rewrite Hid. simpl. next_statement. rewrite Hsub. simpl.
      next_statement. reflexivity. }
    simpl. next_statement. rewrite ?Hsub. done. }
  destruct answer as [fresh|e].
  - exists 7. do 2 eexists. split.
    { simpl. rewrite Hp. unfold statement, recover. simpl.
      rewrite Hw, Hr. simpl.
      next_statement. rewrite Hid. simpl. next_statement. rewrite Hsub. simpl.
      do 4 next_statement. reflexivity. }
    simpl. next_statement. rewrite ?Hsub. done.
  - exists 6. do 2 eexists. split.
    { simpl. rewrite Hp. unfold statement, recover. simpl.
      rewrite Hw, Hr. simpl.
      next_statement. rewrite Hid. simpl. next_statement. rewrite Hsub. simpl.
      do 3 next_statement. reflexivity. }
    simpl. next_statement. rewrite ?Hsub. done.
Qed.

(** C6.  Start from a reporter as [NewDurableReporter] leaves it and let
    any number of failing callers and background recoveries run, in any
    interleaving, while the clock advances at will.  Then any two
    constructions of an underlying reporter, the initial one included, are
    at least [interval] apart; and every construction is covered by
    [lastRecovery], except the latest one while its goroutine is still on
    its way to write the timestamp. *)
Theorem C6_recreations_keep_the_interval
    (d : durableReporter) (built t : Z) (ls : list label) (σ : system) :
  (interval d <= maxDuration)%Z ->
  (built <= lastRecovery d)%Z -> (lastRecovery d <= t)%Z ->
  run ls (start d built t) = Some σ ->
  (forall i j a b,
      i < j -> constructed σ !! i = Some a -> constructed σ !! j = Some b ->
      (interval d <= b - a)%Z) /\
  (forall k c,
      constructed σ !! k = Some c ->
      (c <= lastRecovery (dr σ))%Z \/
      (S k = length (constructed σ) /\
       exists i g, pool σ !! i = Some g /\ unstamped (at_pc g) = true)).
Proof.
  intros Hmax Hb Ht Hrun.
  destruct (recover_run_preserves ls (start d built t) σ Hmax
              (start_invariant d built t Hb Ht) Hrun) as [Hinv Hival].
  simpl in Hival. split.
  - rewrite <- Hival. apply (inv_spaced _ Hinv).
  - apply (inv_stamped _ Hinv).
Qed.

Lemma C6_recreations_keep_the_interval_witness :
  exists σ,
    run two_failing_callers (start (mkDurable "srv" 10 2 0 100) 95 100) = Some σ /\
    constructed σ = [95; 113; 125]%Z /\
    lastRecovery (dr σ) = 125%Z /\
    (forall i j a b,
        i < j -> constructed σ !! i = Some a -> constructed σ !! j = Some b ->
        (10 <= b - a)%Z).
Proof.
  eexists. split; [vm_compute; reflexivity|]. do 2 (split; [reflexivity|]).
  apply (C6_recreations_keep_the_interval
           (mkDurable "srv" 10 2 0 100) 95 100 two_failing_callers).
  - vm_compute. discriminate.
  - simpl. lia.
  - simpl. lia.
  - vm_compute. reflexivity.
Defined.

End DurableConcFacts.

(** ** Facts about the registry, one caller at a time *)

Module RegistryFacts.
Import Registry.

Lemma upper_spec (n : nat) :
  (65 <=? n)%nat && (n <=? 90)%nat = true <-> (65 <= n <= 90)%nat.
Proof. rewrite andb_true_iff, !Nat.leb_le. done. Qed.

Lemma lower_upper (a : ascii) :
  (65 <= nat_of_ascii a <= 90)%nat -> lower a = ascii_of_nat (nat_of_ascii a + 32).
Proof. intros H. unfold lower. apply upper_spec in H. by rewrite H. Qed.

Lemma lower_other (a : ascii) :
  ¬ (65 <= nat_of_ascii a <= 90)%nat -> lower a = a.
Proof.
  intros H. unfold lower.
  destruct ((65 <=? nat_of_ascii a)%nat && (nat_of_ascii a <=? 90)%nat) eqn:E; [|done].
  apply upper_spec in E. done.
Qed.



Lemma lower_idempotent (a : ascii) : lower (lower a) = lower a.
Proof.
  destruct (decide (65 <= nat_of_ascii a <= 90)%nat) as [Hu|Hn].
  - rewrite (lower_upper a Hu). apply lower_other.
    rewrite nat_ascii_embedding by lia. lia.
  - by rewrite !(lower_other a Hn).
Qed.

Lemma ToLower_idempotent (s : string) : ToLower (ToLower s) = ToLower s.
Proof.
  induction s as [|a s IH]; [done|]. simpl. by rewrite lower_idempotent, IH.
Qed.

Section WithEnvironment.
Variable env : environment.


Lemma create_keeps_client (k : string) (st : state) :
  fst (snd (create env k st)) = fst st.
Proof.
  destruct st as [c h]. unfold create, NewReporter, NewLimiter, NewCacher,
    history, emit, get_client, bind, ret. simpl.
  destruct (newReporter env h k); simpl; [|done].
  destruct (newLimiter env _ _ _); simpl; [|done].
  destruct (caching c); done.
Qed.

Lemma server_unfold (s : string) (st : state) :
  server env s st =
  match servers (fst st) !! ToLower s with
  | Some rep => (inl rep, st)
  | None =>
      match fst (create env (ToLower s) st) with
      | inr e => (inr e, snd (create env (ToLower s) st))
      | inl rep =>
          (inl rep,
           (mkClient (caching (fst st)) (cacheDuration (fst st))
              (<[ToLower s := rep]> (servers (fst st))),
            snd (snd (create env (ToLower s) st))))
      end
  end.
Proof.
  unfold server, bind, get_client.
  destruct (servers (fst st) !! ToLower s) as [rep|]; [done|].
  pose proof (create_keeps_client (ToLower s) st) as Hk.
  destruct (create env (ToLower s) st) as [[rep|e] [c' h']]; simpl in *; [|done].
  unfold set_server, ret. simpl. by rewrite Hk.
Qed.



End WithEnvironment.

Lemma occurrences_snoc (p : event -> bool) (h : list event) (e : event) :
  occurrences p (h ++ [e]) = occurrences p h + (if p e then 1 else 0).
Proof.
  unfold occurrences. rewrite filter_app, length_app. f_equal.
  destruct (p e) eqn:E.
  - rewrite filter_cons_True by done. reflexivity.
  - rewrite filter_cons_False by (rewrite E; discriminate). reflexivity.
Qed.

(** Resolving a name only ever calls constructors. *)
Lemma server_only_constructs (env : environment) (p : event -> bool)
    (s : string) (st : state) :
  (forall e, is_construction e = true -> p e = false) ->
  occurrences p (snd (snd (server env s st))) = occurrences p (snd st).
Proof.
  intros Hp. rewrite server_unfold.
  destruct (servers (fst st) !! ToLower s) as [rep'|]; [done|].
  assert (occurrences p (snd (snd (create env (ToLower s) st)))
          = occurrences p (snd st)) as Hc.
  { destruct st as [c h]. unfold create, NewReporter, NewLimiter, NewCacher,
      history, emit, get_client, bind, ret. simpl.
    destruct (newReporter env h _); simpl.
    - destruct (newLimiter env _ _ _); simpl.
      + destruct (caching c); simpl; rewrite !occurrences_snoc, !Hp by done; lia.
      + rewrite !occurrences_snoc, !Hp by done; lia.
    - rewrite !occurrences_snoc, !Hp by done; lia. }
  destruct (fst (create env (ToLower s) st)); simpl; done.
Qed.

Lemma Backlog_unfold (env : environment) (from to : string) (group : GUID)
    (st : state) :
  Backlog env from to group st =
  let st1 := snd (server env from st) in
  match fst (server env from st) with
  | inr e => (([], Some e), st1)
  | inl f =>
      let st2 := snd (server env to st1) in
      match fst (server env to st1) with
      | inr e => (([], Some e), st2)
      | inl t =>
          let fetched := reporterVector env (snd st2) t group in
          let h3 := snd st2 ++ [EvVector t group fetched] in
          match snd fetched with
          | Some e => (([], Some e), (fst st2, h3))
          | None =>
              let res := reporterBacklog env h3 f (fst fetched) in
              (res, (fst st2,
                     (h3 ++ [EvBacklog f (fst fetched) res])
                     ++ [EvVectorClose (fst fetched)]))
          end
      end
  end.
Proof.
  unfold Backlog. unfold bind at 1.
  destruct (server env from st) as [[f|e] st1]; cbn [fst snd]; [|done].
  unfold bind at 1.
  destruct (server env to st1) as [[t|e] [c2 h2]]; cbn [fst snd]; [|done].
  unfold call_Vector, call_Backlog, history, emit, bind, ret. cbn [fst snd].
  destruct (reporterVector env h2 t group) as [v [e|]]; done.
Qed.

(** C9.  [Backlog] resolves [from], then [to], fetches the vector of the
    group from [to], has [from] compute the backlog against that vector,
    closes the vector and returns what the computation returned, be it a
    result or an error.  When resolving either name or fetching the vector
    fails, that error is returned as it is, with no counts, and neither a
    backlog computation nor a close of a vector takes place. *)
Theorem C9_backlog_between_two_servers (env : environment)
    (from to : string) (group : GUID) (st : state) :
  let out := Backlog env from to group st in
  let resolved_from := server env from st in
  let resolved_to := server env to (snd resolved_from) in
  let h' := snd (snd out) in
  ((exists e, fst out = ([], Some e) /\
      (fst resolved_from = inr e \/
       (exists f, fst resolved_from = inl f /\ fst resolved_to = inr e) \/
       (exists f t v,
           fst resolved_from = inl f /\ fst resolved_to = inl t /\
           reporterVector env (snd (snd resolved_to)) t group = (v, Some e) /\
           h' = snd (snd resolved_to) ++ [EvVector t group (v, Some e)]))) /\
   occurrences is_backlog h' = occurrences is_backlog (snd st) /\
   occurrences is_vector_close h' = occurrences is_vector_close (snd st))
  \/
  (exists f t v,
      fst resolved_from = inl f /\ fst resolved_to = inl t /\
      reporterVector env (snd (snd resolved_to)) t group = (v, None) /\
      let fetched := snd (snd resolved_to) ++ [EvVector t group (v, None)] in
      let res := reporterBacklog env fetched f v in
      fst out = res /\
      h' = fetched ++ [EvBacklog f v res; EvVectorClose v] /\
      occurrences is_backlog h' = occurrences is_backlog (snd st) + 1 /\
      occurrences is_vector_close h' = occurrences is_vector_close (snd st) + 1).
Proof.
  cbv zeta.
  pose proof (server_only_constructs env is_backlog from st) as Bf.
  pose proof (server_only_constructs env is_vector_close from st) as Cf.
  pose proof (server_only_constructs env is_backlog to (snd (server env from st))) as Bt.
  pose proof (server_only_constructs env is_vector_close to (snd (server env from st))) as Ct.
  rewrite Backlog_unfold. cbv zeta.
  destruct (server env from st) as [[f|e] st1] eqn:Hf; cbn [fst snd] in *.
  2:{ left. split; [exists e; split; [done|by left]|].
      split; [apply Bf|apply Cf]; by intros []. }
  destruct (server env to st1) as [[t|e] st2] eqn:Ht; cbn [fst snd] in *.
  2:{ left. split; [exists e; split; [done|right; left; by exists f]|].
      rewrite Bt, Ct by (by intros []). split; [apply Bf|apply Cf]; by intros []. }
  destruct (reporterVector env (snd st2) t group) as [v [e|]] eqn:Hv; cbn [fst snd].
  - left. split.
    + exists e. split; [done|]. right; right. exists f, t, v. done.
    + rewrite !occurrences_snoc. cbn [is_backlog is_vector_close].
      rewrite Bt, Ct, Bf, Cf by (by intros []). lia.
  - right. exists f, t, v.
    do 4 (split; [done|]). split; [by rewrite <- app_assoc|]. split.
    + rewrite !occurrences_snoc. cbn [is_backlog is_vector_close].
      rewrite Bt, Bf by (by intros []). lia.
    + rewrite !occurrences_snoc. cbn [is_backlog is_vector_close].
      rewrite Ct, Cf by (by intros []). lia.
Qed.



End RegistryFacts.

(** ** Facts about the registry under concurrent callers *)

Module RegistryConcFacts.
Import RegistryConc.

Ltac whose Hi :=
  apply list_lookup_insert_Some in Hi;
  destruct Hi as [(-> & <- & _)|[? Hi]].

Lemma client_statement_preserves (tid : nat) (p : pc) (answer : Reporter + error)
    (σ σ' : system) :
  invariant σ -> pool σ !! tid = Some p -> statement tid p answer σ = Some σ' ->
  invariant σ'.
Proof.
  intros Hinv Hp Hst. unfold invariant in *.
  assert (holds_lock p = true -> writer σ = Some tid) as Hme by eauto.
  destruct p as [fqdn|key|key [rep|]|key|key|key rep|res|res| |[|[k rep] rest]| |];
    simpl in Hst.
  - destruct (writer σ) eqn:Hw; [done|]. injection Hst as <-. simpl.
    intros i q Hi Hq. whose Hi; [done|].
    specialize (Hinv _ _ Hi Hq). congruence.
  - injection Hst as <-. simpl. intros i q Hi Hq. whose Hi; [done|]. eauto.
  - injection Hst as <-. simpl. intros i q Hi Hq. whose Hi; [done|]. eauto.
  - injection Hst as <-. simpl. intros i q Hi Hq. whose Hi; [done|]. eauto.
  - destruct (writer σ) eqn:Hw; [done|]. destruct (readers σ); [|done].
    injection Hst as <-. simpl. intros i q Hi Hq. whose Hi; [done|].
    specialize (Hinv _ _ Hi Hq). congruence.
  - destruct answer as [rep|e]; injection Hst as <-; simpl;
      intros i q Hi Hq; (whose Hi; [by apply Hme|]); eauto.
  - injection Hst as <-. simpl. intros i q Hi Hq. whose Hi; [by apply Hme|]. eauto.
  - injection Hst as <-. simpl. intros i q Hi Hq. whose Hi; [done|].
    specialize (Hinv _ _ Hi Hq). specialize (Hme eq_refl). congruence.
  - done.
  - destruct (writer σ) eqn:Hw; [done|]. destruct (readers σ); [|done].
    injection Hst as <-. simpl. intros i q Hi Hq. whose Hi; [done|].
    specialize (Hinv _ _ Hi Hq). congruence.
  - injection Hst as <-. simpl. intros i q Hi Hq. whose Hi; [by apply Hme|]. eauto.
  - injection Hst as <-. simpl. intros i q Hi Hq. whose Hi; [by apply Hme|]. eauto.
  - specialize (Hme eq_refl). rewrite Hme in Hst. done.
  - done.
Qed.

Lemma client_step_preserves (l : label) (σ σ' : system) :
  invariant σ -> step l σ = Some σ' -> invariant σ'.
Proof.
  intros Hinv Hst. destruct l as [fqdn| |tid answer]; simpl in Hst.
  - injection Hst as <-. intros i q Hi Hq. simpl in *.
    apply lookup_app_Some in Hi as [Hi|[_ Hi]]; [by eauto|].
    apply list_lookup_singleton_Some in Hi as [_ <-]. done.
  - injection Hst as <-. intros i q Hi Hq. simpl in *.
    apply lookup_app_Some in Hi as [Hi|[_ Hi]]; [by eauto|].
    apply list_lookup_singleton_Some in Hi as [_ <-]. done.
  - destruct (pool σ !! tid) as [p|] eqn:Hp; [|done].
    by eapply client_statement_preserves.
Qed.

Lemma client_run_preserves (ls : list label) :
  forall σ σ', invariant σ -> run ls σ = Some σ' -> invariant σ'.
Proof.
  induction ls as [|l ls IH]; intros σ σ' Hinv Hrun; simpl in Hrun.
  - by injection Hrun as <-.
  - destruct (step l σ) as [σ1|] eqn:Hstep; [|done].
    eapply IH; [|done]. by eapply client_step_preserves.
Qed.

Lemma run_app (ls1 ls2 : list label) (σ : system) :
  run (ls1 ++ ls2) σ = match run ls1 σ with Some σ' => run ls2 σ' | None => None end.
Proof.
  revert σ. induction ls1 as [|l ls1 IH]; intros σ; simpl; [done|].
  destruct (step l σ); [apply IH|done].
Qed.

Lemma fresh_invariant : invariant fresh.
Proof. intros i p Hi. done. Qed.

(** While the exclusive lock is held nobody gets past a lock statement. *)
Lemma locked_door (j : nat) (q : pc) (answer : Reporter + error) (σ : system) :
  is_Some (writer σ) -> at_lock q = true -> statement j q answer σ = None.
Proof. intros [w Hw] Hq. destruct q; try done; simpl; by rewrite Hw. Qed.

(** A goroutine inside [Close] stays inside and keeps the lock, whatever
    step the system takes. *)
Lemma Close_keeps_the_lock (l : label) (σ σ' : system) (i : nat) (p : pc) :
  invariant σ -> pool σ !! i = Some p -> in_Close p = true ->
  step l σ = Some σ' ->
  writer σ' = Some i /\ exists p', pool σ' !! i = Some p' /\ in_Close p' = true.
Proof.
  intros Hinv Hp Hin Hst.
  assert (writer σ = Some i) as Hw by (apply (Hinv i p Hp); by destruct p).
  assert (i < length (pool σ)) as Hlen by (by eapply lookup_lt_Some).
  destruct l as [fqdn| |tid answer]; simpl in Hst.
  - injection Hst as <-. simpl. split; [done|]. exists p.
    split; [by apply lookup_app_l_Some|done].
  - injection Hst as <-. simpl. split; [done|]. exists p.
    split; [by apply lookup_app_l_Some|done].
  - destruct (pool σ !! tid) as [q|] eqn:Hq; [|done].
    destruct (decide (tid = i)) as [->|Hne].
    + assert (q = p) as -> by congruence.
      destruct p as [| | | | | | | | |[|[k rep] rest]| |]; try done;
        simpl in Hst.
      * injection Hst as <-. simpl. split; [done|]. exists ClDeferred.
        split; [by apply list_lookup_insert_eq|done].
      * injection Hst as <-. simpl. split; [done|]. exists (ClRange rest).
        split; [by apply list_lookup_insert_eq|done].
      * by rewrite Hw in Hst.
    + assert (holds_lock q = false) as Hq'.
      { destruct (holds_lock q) eqn:E; [|done].
        specialize (Hinv _ _ Hq E). congruence. }
      assert (writer σ' = writer σ /\ pool σ' = <[tid := default q (pool σ' !! tid)]> (pool σ))
        as [Hw' Hpool].
      { destruct q as [fqdn|key|key [rep|]|key| | | |res| | | |]; try done;
          simpl in Hst; rewrite ?Hw in Hst; try done;
          injection Hst as <-; simpl;
          (split; [done|]);
          rewrite list_lookup_insert_eq by (by eapply lookup_lt_Some); done. }
      split; [congruence|]. exists p. split; [|done].
      rewrite Hpool, list_lookup_insert_ne; done.
Qed.

(** ... and a goroutine waiting at a lock statement stays where it is. *)
Lemma waiting_stays (l : label) (σ σ' : system) (j : nat) (q : pc) :
  is_Some (writer σ) -> pool σ !! j = Some q -> at_lock q = true ->
  step l σ = Some σ' -> pool σ' !! j = Some q.
Proof.
  intros Hw Hq Hat Hst. destruct l as [fqdn| |tid answer]; simpl in Hst.
  - injection Hst as <-. simpl. by apply lookup_app_l_Some.
  - injection Hst as <-. simpl. by apply lookup_app_l_Some.
  - destruct (pool σ !! tid) as [p|] eqn:Hp; [|done].
    destruct (decide (tid = j)) as [->|Hne].
    + assert (p = q) as -> by congruence.
      by rewrite locked_door in Hst.
    + assert (pool σ' !! j = pool σ !! j) as ->; [|done].
      destruct p as [fqdn|key|key [rep|]|key|key|key rep|res|res| |[|[k rep] rest]| |];
        simpl in Hst;
        repeat (match type of Hst with
                | context [match ?x with _ => _ end] => destruct x
                end);
        try done; injection Hst as <-; simpl;
        by rewrite list_lookup_insert_ne.
Qed.

Lemma Close_holds_forever (ls : list label) :
  forall σ σ' i p,
    invariant σ -> pool σ !! i = Some p -> in_Close p = true ->
    run ls σ = Some σ' ->
    writer σ' = Some i /\
    (exists p', pool σ' !! i = Some p' /\ in_Close p' = true) /\
    (forall j q, pool σ !! j = Some q -> at_lock q = true -> pool σ' !! j = Some q).
Proof.
  induction ls as [|l ls IH]; intros σ σ' i p Hinv Hp Hin Hrun; simpl in Hrun.
  - injection Hrun as <-. split; [|by eauto].
    apply (Hinv i p Hp). by destruct p.
  - destruct (step l σ) as [σ1|] eqn:Hstep; [|done].
    assert (writer σ = Some i) as Hw by (apply (Hinv i p Hp); by destruct p).
    destruct (Close_keeps_the_lock l σ σ1 i p Hinv Hp Hin Hstep)
      as (Hw1 & p1 & Hp1 & Hin1).
    destruct (IH σ1 σ' i p1 (client_step_preserves _ _ _ Hinv Hstep) Hp1 Hin1 Hrun)
      as (Hw' & Hp' & Hstay).
    split; [done|]. split; [done|].
    intros j q Hq Hat. apply Hstay; [|done].
    eapply waiting_stays; [|done..]. by rewrite Hw.
Qed.

(** Running [Close] on its own from its first statement. *)
Lemma range_closes_all (tid : nat) (rest : list (string * Reporter)) :
  forall σ,
    pool σ !! tid = Some (ClRange rest) ->
    exists σ',
      run (replicate (S (length rest)) (Run tid (inl 0))) σ = Some σ' /\
      pool σ' !! tid = Some ClDeferred /\
      servers σ' = ∅ /\
      closed σ' = closed σ ++ rest.*2 /\
      writer σ' = writer σ.
Proof.
  induction rest as [|[k rep] rest IH]; intros σ Hp.
  - simpl. rewrite Hp. simpl. eexists. split; [done|]. simpl.
    rewrite list_lookup_insert_eq by (by eapply lookup_lt_Some).
    by rewrite app_nil_r.
  - cbn [length replicate run step]. rewrite Hp. cbn [statement Close].
    edestruct IH as (σ' & Hrun & Hp' & Hs & Hc & Hw); last first.
    { exists σ'. split; [exact Hrun|]. split; [done|]. split; [done|].
      split; [|done]. rewrite Hc. simpl. by rewrite <- app_assoc. }
    simpl. apply list_lookup_insert_eq. by eapply lookup_lt_Some.
Qed.

Lemma Close_reaches_its_deferred_lock (tid : nat) (σ : system) :
  pool σ !! tid = Some ClLock -> writer σ = None -> readers σ = 0 ->
  exists σ',
    run (Close_body tid σ) σ = Some σ' /\
    pool σ' !! tid = Some ClDeferred /\
    servers σ' = ∅ /\
    closed σ' = closed σ ++ (map_to_list (servers σ)).*2 /\
    writer σ' = Some tid.
Proof.
  intros Hp Hw Hr. unfold Close_body.
  cbn [replicate run step]. rewrite Hp. cbn [statement Close]. rewrite Hw, Hr.
  edestruct (range_closes_all tid (map_to_list (servers σ)))
    as (σ' & Hrun & Hp' & Hs & Hc & Hw'); last first.
  { exists σ'. split; [exact Hrun|]. done. }
  simpl. apply list_lookup_insert_eq. by eapply lookup_lt_Some.
Qed.

(** Under any interleaving the keys of the map are lower-case names, so
    no two of them differ only by case. *)
Lemma keys_stay_lower_case (ls : list label) :
  forall σ σ',
    (forall k, is_Some (servers σ !! k) -> ToLower k = k) ->
    (forall i p key, pool σ !! i = Some p -> key_of p = Some key -> ToLower key = key) ->
    run ls σ = Some σ' ->
    (forall k, is_Some (servers σ' !! k) -> ToLower k = k) /\
    (forall i p key, pool σ' !! i = Some p -> key_of p = Some key -> ToLower key = key).
Proof.
  induction ls as [|l ls IH]; intros σ σ' Hm Hk Hrun; simpl in Hrun.
  { by injection Hrun as <-. }
  destruct (step l σ) as [σ1|] eqn:Hstep; [|done].
  apply (IH σ1 σ'); [| |done]; clear IH Hrun.
  - destruct l as [fqdn| |tid answer]; simpl in Hstep.
    + by injection Hstep as <-.
    + by injection Hstep as <-.
    + destruct (pool σ !! tid) as [p|] eqn:Hp; [|done].
      destruct p as [fqdn|key|key [rep|]|key|key|key rep|res|res| |[|[k rep] rest]| |];
        simpl in Hstep;
        repeat (match type of Hstep with
                | context [match ?x with _ => _ end] => destruct x eqn:?
                end);
        try done; injection Hstep as <-; simpl; try done.
      * intros k Hsome. destruct (decide (k = key)) as [->|Hne].
        -- by apply (Hk tid (SvInsert key rep) key).
        -- rewrite lookup_insert_ne in Hsome by done. by apply Hm.
      * intros k Hsome. rewrite lookup_empty in Hsome. by destruct Hsome.
  - destruct l as [fqdn| |tid answer]; simpl in Hstep.
    + injection Hstep as <-. simpl. intros i p key Hi Hkey.
      apply lookup_app_Some in Hi as [Hi|[_ Hi]]; [by eapply Hk|].
      by apply list_lookup_singleton_Some in Hi as [_ <-].
    + injection Hstep as <-. simpl. intros i p key Hi Hkey.
      apply lookup_app_Some in Hi as [Hi|[_ Hi]]; [by eapply Hk|].
      by apply list_lookup_singleton_Some in Hi as [_ <-].
    + destruct (pool σ !! tid) as [p|] eqn:Hp; [|done].
      pose proof (Hk tid p) as Hme.
      destruct p as [fqdn|key|key [rep|]|key|key|key rep|res|res| |[|[k rep] rest]| |];
        simpl in Hstep;
        repeat (match type of Hstep with
                | context [match ?x with _ => _ end] => destruct x eqn:?
                end);
        try done; injection Hstep as <-; simpl;
        intros i p key' Hi Hkey;
        apply list_lookup_insert_Some in Hi as [(_ & <- & _)|[_ Hi]];
        try (by eapply Hk); simpl in Hkey; simplify_eq;
        first [ apply RegistryFacts.ToLower_idempotent | by apply Hme ].
Qed.

(** C1.  When two callers use a server for the first time at once, each
    misses under the read lock; the second to take the exclusive lock
    does not look again, so it builds a second session for the same key
    and writes it over the first.  The callers end up with different
    sessions and the first one is no longer owned by the client. *)
Theorem C1_first_use_race_builds_two_sessions :
  exists σ,
    run first_use_race fresh = Some σ /\
    built σ = [("srva"%string, 10); ("srva"%string, 11)] /\
    built_for "srva" σ = [10; 11] /\
    pool σ = [SvReturned (inl 10); SvReturned (inl 11)] /\
    servers σ !! "srva"%string = Some 11 /\
    closed σ = [].
Proof. eexists. split; [vm_compute; reflexivity|]. vm_compute. done. Qed.

(** The same in general: past [Lock], [create] is called and its result
    stored whether or not the key is in the map by then. *)
Lemma present_key_is_built_again (tid : nat) (key : string)
    (old rep : Reporter) (σ : system) :
  pool σ !! tid = Some (SvLock key) ->
  servers σ !! key = Some old ->
  writer σ = None -> readers σ = 0 ->
  exists σ',
    run (replicate 3 (Run tid (inl rep))) σ = Some σ' /\
    built σ' = built σ ++ [(key, rep)] /\
    servers σ' !! key = Some rep /\
    pool σ' !! tid = Some (SvUnlock (inl rep)).
Proof.
  intros Hp Hold Hw Hr.
  assert (tid < length (pool σ)) as Hlen by (by eapply lookup_lt_Some).
  eexists. simpl. rewrite Hp. simpl. rewrite Hw, Hr. simpl.
  rewrite list_lookup_insert_eq by done. simpl.
  rewrite list_lookup_insert_eq by (by rewrite length_insert). simpl.
  split; [reflexivity|]. simpl. split; [done|]. split.
  - apply lookup_insert_eq.
  - apply list_lookup_insert_eq. by rewrite !length_insert.
Qed.

(** C10.  In every state the client can reach, no goroutine has returned
    from [Close].  From the moment a goroutine is inside [Close], it stays
    inside and the exclusive lock stays taken in every later state, every
    goroutine whose next statement takes the lock (the deferred [Lock] of
    [Close] itself included) cannot execute it, and every goroutine that
    was waiting at such a statement is still there.  Left alone, [Close]
    does close every session in the map and empty the map before it
    arrives at the deferred [Lock]. *)
Theorem C10_Close_never_returns (ls : list label) (σ : system) :
  run ls fresh = Some σ ->
  (forall i, pool σ !! i ≠ Some ClReturned) /\
  (forall i p,
      pool σ !! i = Some p -> in_Close p = true ->
      forall ls' σ',
        run ls' σ = Some σ' ->
        writer σ' = Some i /\
        (exists p', pool σ' !! i = Some p' /\ in_Close p' = true) /\
        (forall j q answer,
            pool σ' !! j = Some q -> at_lock q = true ->
            statement j q answer σ' = None) /\
        (forall j q,
            pool σ !! j = Some q -> at_lock q = true -> pool σ' !! j = Some q)) /\
  (forall i,
      pool σ !! i = Some ClLock -> writer σ = None -> readers σ = 0 ->
      exists σ',
        run (Close_body i σ) σ = Some σ' /\
        pool σ' !! i = Some ClDeferred /\
        servers σ' = ∅ /\
        closed σ' = closed σ ++ (map_to_list (servers σ)).*2 /\
        writer σ' = Some i).
Proof.
  intros Hrun.
  pose proof (client_run_preserves ls fresh σ fresh_invariant Hrun) as Hinv.
  split; [|split].
  - clear Hinv. revert σ Hrun.
    induction ls as [|l ls IH] using rev_ind; intros σ Hrun i Hi.
    + injection Hrun as <-. done.
    + rewrite run_app in Hrun.
      destruct (run ls fresh) as [σ0|] eqn:Hrun0; [|done]. simpl in Hrun.
      destruct (step l σ0) as [σ1|] eqn:Hstep; [|done]. injection Hrun as ->.
      pose proof (client_run_preserves ls fresh σ0 fresh_invariant Hrun0) as Hinv0.
      specialize (IH σ0 eq_refl).
      destruct l as [fqdn| |tid answer]; simpl in Hstep.
      * injection Hstep as <-. simpl in Hi.
        apply lookup_app_Some in Hi as [Hi|[_ Hi]]; [by eapply IH|].
        by apply list_lookup_singleton_Some in Hi as [_ ?].
      * injection Hstep as <-. simpl in Hi.
        apply lookup_app_Some in Hi as [Hi|[_ Hi]]; [by eapply IH|].
        by apply list_lookup_singleton_Some in Hi as [_ ?].
      * destruct (pool σ0 !! tid) as [p|] eqn:Hp; [|done].
        assert (holds_lock p = true -> writer σ0 = Some tid) as Hme by eauto.
        destruct p as [fqdn|key|key [rep|]|key|key|key rep|res|res| |[|[k rep] rest]| |];
          simpl in Hstep;
          repeat (match type of Hstep with
                  | context [match ?x with _ => _ end] => destruct x eqn:?
                  end);
          try done; try (by specialize (Hme eq_refl));
          injection Hstep as <-; simpl in Hi;
          (apply list_lookup_insert_Some in Hi as [(_ & ? & _)|[_ Hi]];
           [done|by eapply IH]).
  - intros i p Hp Hin ls' σ' Hrun'.
    destruct (Close_holds_forever ls' σ σ' i p Hinv Hp Hin Hrun')
      as (Hw & Hp' & Hstay).
    split; [done|]. split; [done|]. split; [|done].
    intros j q answer Hq Hat. apply locked_door; [|done]. by rewrite Hw.
  - intros i. apply Close_reaches_its_deferred_lock.
Qed.

Lemma C10_Close_never_returns_witness :
  exists σ,
    run (close_then_use 3) fresh = Some σ /\
    pool σ = [SvReturned (inl 10); ClDeferred; SvRLock "srvA"] /\
    (forall i, pool σ !! i ≠ Some ClReturned).
Proof.
  eexists. split; [vm_compute; reflexivity|]. split; [reflexivity|].
  apply (C10_Close_never_returns (close_then_use 3)).
  vm_compute. reflexivity.
Defined.

End RegistryConcFacts.

(** ** Facts about the poller *)

Module PollerFacts.
Import Poller.

Lemma past_loop_mark (p : pc) : past_loop p = true -> past_mark p = true.
Proof. by destruct p as [| |[]| | | | | | |[]| | | | | | | | | | | | | | |[]]. Qed.

Lemma source_done_loop (p : pc) : source_done p = true -> past_loop p = true.
Proof. by destruct p as [| |[]| | | | | | |[]| | | | | | | | | | | | | | |[]]. Qed.

Lemma past_mark_closer (p : pc) : past_mark p = true -> closer p = true.
Proof. by destruct p as [| |[]| | | | | | |[]| | | | | | | | | | | | | | |[]]. Qed.

Lemma closer_cases (p : pc) : closer p = true -> past_mark p = true \/ p = ClMark.
Proof. destruct p as [| |[]| | | | | | |[]| | | | | | | | | | | | | | |[]]; auto. Qed.

Lemma wake_classes (p : pc) :
  holds (wake p) = holds p /\ in_flight (wake p) = in_flight p /\
  closer (wake p) = closer p /\ past_mark (wake p) = past_mark p /\
  past_loop (wake p) = past_loop p /\ source_done (wake p) = source_done p.
Proof. by destruct p. Qed.

(** Reading the pool after a step. *)
Ltac lookups :=
  repeat match goal with
  | H : <[_ := _]> _ !! _ = Some _ |- _ =>
      apply list_lookup_insert_Some in H;
      destruct H as [(-> & ? & _)|[? H]]; simplify_eq
  | H : (_ ++ [_]) !! _ = Some _ |- _ =>
      apply lookup_app_Some in H; destruct H as [H|[_ H]]
  | H : [_] !! _ = Some _ |- _ =>
      apply list_lookup_singleton_Some in H; destruct H as [_ ?]; simplify_eq
  | H : (wake <$> _) !! _ = Some _ |- _ =>
      rewrite list_lookup_fmap in H; apply fmap_Some in H;
      destruct H as (? & H & ->)
  end.

Ltac unwake :=
  repeat match goal with
  | H : context [holds (wake ?p)] |- _ =>
      rewrite (proj1 (wake_classes p)) in H
  | H : context [in_flight (wake ?p)] |- _ =>
      rewrite (proj1 (proj2 (wake_classes p))) in H
  | H : context [closer (wake ?p)] |- _ =>
      rewrite (proj1 (proj2 (proj2 (wake_classes p)))) in H
  | H : context [past_mark (wake ?p)] |- _ =>
      rewrite (proj1 (proj2 (proj2 (proj2 (wake_classes p))))) in H
  | H : context [past_loop (wake ?p)] |- _ =>
      rewrite (proj1 (proj2 (proj2 (proj2 (proj2 (wake_classes p)))))) in H
  | H : context [source_done (wake ?p)] |- _ =>
      rewrite (proj2 (proj2 (proj2 (proj2 (proj2 (wake_classes p)))))) in H
  end.

(** Everything the invariant says about the goroutines at hand. *)
Ltac learn H :=
  let T := type of H in
  lazymatch goal with
  | _ : T |- _ => fail
  | _ => pose proof H
  end.

Ltac classes :=
  repeat match goal with
  | H : source_done ?p = true |- _ => learn (source_done_loop p H)
  | H : past_loop ?p = true |- _ => learn (past_loop_mark p H)
  | H : past_mark ?p = true |- _ => learn (past_mark_closer p H)
  end.

Ltac saturate Hinv :=
  classes;
  repeat match goal with
  | Hi : pool ?σ !! ?i = Some ?p |- _ =>
      first
        [ learn (inv_owner σ Hinv i p Hi ltac:(first [assumption|reflexivity]))
        | learn (inv_flag σ Hinv i p Hi ltac:(first [assumption|reflexivity]))
        | learn (inv_marked σ Hinv i p Hi ltac:(first [assumption|reflexivity]))
        | learn (inv_drained σ Hinv i p Hi ltac:(first [assumption|reflexivity]))
        | learn (inv_once σ Hinv i p Hi ltac:(first [assumption|reflexivity]))
        | learn (inv_waiting σ Hinv i Hi) ]
  | Hi : pool ?σ !! ?i = Some ?p, Hj : pool ?σ !! ?j = Some ?q |- _ =>
      first
        [ learn (inv_single σ Hinv i j p q Hi Hj
                   ltac:(first [assumption|reflexivity])
                   ltac:(first [assumption|reflexivity]))
        | learn (inv_closer σ Hinv i j p q Hi Hj
                   ltac:(first [assumption|reflexivity])
                   ltac:(first [assumption|reflexivity])) ]
  end.

Ltac settle Hinv :=
  intros; lookups; unwake; simpl in *; try done;
  saturate Hinv; simpl in *; try done; try congruence; try lia.

Lemma spawn_invariant (p : pc) (σ : system) :
  holds p = false -> in_flight p = false -> closer p = false ->
  invariant σ -> invariant (spawn p σ).
Proof.
  intros H1 H2 H3 Hinv.
  assert (past_mark p = false) as H4
    by (destruct (past_mark p) eqn:E; [apply past_mark_closer in E; congruence|done]).
  assert (past_loop p = false) as H5
    by (destruct (past_loop p) eqn:E; [apply past_loop_mark in E; congruence|done]).
  assert (source_done p = false) as H6
    by (destruct (source_done p) eqn:E; [apply source_done_loop in E; congruence|done]).
  split; simpl; try (by settle Hinv).
  - destruct (inv_nobody σ Hinv) as [|(i & q & Hi & Hq)]; [by left|].
    right. exists i, q. split; [by apply lookup_app_l_Some|done].
  - intros Hup. destruct (inv_running σ Hinv Hup) as (k & q & Hk & Hq).
    exists k, q. split; [by apply lookup_app_l_Some|done].
  - intros i Hi. apply lookup_app_Some in Hi as [Hi|[_ Hi]].
    + destruct (inv_asleep σ Hinv i Hi) as [|(k & q & Hk & Hq)]; [by left|].
      right. exists k, q. split; [by apply lookup_app_l_Some|done].
    + apply list_lookup_singleton_Some in Hi as [_ ->]. done.
Qed.

(** A goroutine of some kind is still in the pool, and of that kind,
    after goroutine [tid] has moved from [p] to [p']. *)
Lemma kind_stays (kind : pc -> bool) (tid : nat) (p p' : pc) (l l' : list pc) :
  (forall q, kind (wake q) = kind q) ->
  l !! tid = Some p ->
  l' = <[tid := p']> l \/ l' = <[tid := p']> (wake <$> l) \/
  (exists q, l' = <[tid := p']> (l ++ [q])) ->
  (kind p = true -> kind p' = true) ->
  (exists i q, l !! i = Some q /\ kind q = true) ->
  exists i q, l' !! i = Some q /\ kind q = true.
Proof.
  intros Hwake Hp Hl Hpp (i & q & Hi & Hq).
  assert (tid < length l) as Hlen by (by eapply lookup_lt_Some).
  destruct (decide (i = tid)) as [->|Hne].
  - assert (q = p) as -> by congruence.
    exists tid, p'. split; [|by apply Hpp].
    destruct Hl as [->|[->|(x & ->)]]; apply list_lookup_insert_eq;
      rewrite ?length_fmap, ?length_app; simpl; lia.
  - destruct Hl as [->|[->|(x & ->)]].
    + exists i, q. by rewrite list_lookup_insert_ne.
    + exists i, (wake q). rewrite list_lookup_insert_ne by done.
      rewrite list_lookup_fmap, Hi. split; [done|]. by rewrite Hwake.
    + exists i, q. rewrite list_lookup_insert_ne by done.
      split; [by apply lookup_app_l_Some|done].
Qed.

Ltac stays kind Hp :=
  eapply (kind_stays kind _ _ _ _ _ ltac:(by intros []) Hp);
  [ first [ left; reflexivity | right; left; reflexivity
          | right; right; eexists; reflexivity ]
  | done
  | done ].

(** The goroutine that moved is itself of the wanted kind. *)
Ltac itself tid :=
  eexists tid, _; split;
  [ apply list_lookup_insert_eq; rewrite ?length_fmap, ?length_app; simpl; lia
  | reflexivity ].

Lemma poller_statement_preserves (tid : nat) (p : pc) (σ σ' : system) :
  invariant σ -> pool σ !! tid = Some p -> statement tid p σ = Some σ' ->
  invariant σ'.
Proof.
  intros Hinv Hp Hst.
  assert (tid < length (pool σ)) as Hlen by (by eapply lookup_lt_Some).
  destruct p as [| |[]| | | | | | |[]| | | | | | | | | | | | | | |[]];
    simpl in Hst; unfold lock in Hst;
    repeat (match type of Hst with
            | context [match ?x with _ => _ end] => destruct x eqn:?
            | context [if ?x then _ else _] => destruct x eqn:?
            end);
    try done; injection Hst as <-;
    repeat match goal with
    | H : _ && _ = true |- _ => apply andb_true_iff in H; destruct H
    | H : _ && _ = false |- _ => apply andb_false_iff in H
    | H : negb _ = true |- _ => apply negb_true_iff in H
    | H : negb _ = false |- _ => apply negb_false_iff in H
    end;
    (split; simpl;
     [ settle Hinv | settle Hinv | settle Hinv | settle Hinv
     | settle Hinv | settle Hinv | settle Hinv
     | try (destruct (inv_nobody σ Hinv) as [Hz|Hex];
            [by left|right; by stays source_done Hp])
     | settle Hinv
     | intros Hup;
       try first [ done
             | by itself tid
             | pose proof (inv_running σ Hinv Hup) as Hex; by stays in_flight Hp ]
     | intros i Hi;
       try first [ by (rewrite list_lookup_insert_ne in Hi
                     by (intros ->; rewrite list_lookup_insert_eq in Hi
                           by (rewrite ?length_fmap; lia); done);
                   rewrite list_lookup_fmap in Hi;
                   destruct (pool σ !! i) as [[]|])
             | by (right; itself tid)
             | by (lookups; saturate Hinv; left)
             | by (lookups;
                   destruct (inv_asleep σ Hinv i ltac:(eassumption)) as [|Hex];
                   [left|right; stays announcing Hp]) ] ]).
  all: try (match goal with
            | H : closer ?p = true |- _ =>
                destruct (closer_cases p H) as [?| ->]
            end; saturate Hinv; congruence).
  - rewrite list_lookup_fmap in H.
    destruct (pool σ !! i) as [q|] eqn:Hq; [|done].
    destruct q; try done. by eapply inv_waiting.
  - destruct (inv_nobody σ Hinv) as [->|(k & q & Hk & Hq)]; [done|].
    saturate Hinv. simplify_eq.
  - right. exists tid, ClUnlock. split; [by apply list_lookup_insert_eq|done].
Qed.

Lemma poller_step_preserves (l : label) (σ σ' : system) :
  invariant σ -> step l σ = Some σ' -> invariant σ'.
Proof.
  intros Hinv Hst. destruct l as [| | |tid]; simpl in Hst.
  - injection Hst as <-. by apply spawn_invariant.
  - injection Hst as <-. by apply spawn_invariant.
  - injection Hst as <-. by apply spawn_invariant.
  - destruct (pool σ !! tid) as [p|] eqn:Hp; [|done].
    by eapply poller_statement_preserves.
Qed.

Lemma poller_run_preserves (ls : list label) :
  forall σ σ', invariant σ -> run ls σ = Some σ' -> invariant σ'.
Proof.
  induction ls as [|l ls IH]; intros σ σ' Hinv Hrun; simpl in Hrun.
  - by injection Hrun as <-.
  - destruct (step l σ) as [σ1|] eqn:Hstep; [|done].
    eapply IH; [|done]. by eapply poller_step_preserves.
Qed.

Lemma New_invariant : invariant New.
Proof. split; simpl; try done. by left. Qed.

(** C4.  In every state the poller can reach, at most one update is in
    flight, so at most one goroutine is inside [source.Poll]; and an
    update goroutine that finds the flag set when it checks it is turned
    away: its two remaining statements release the mutex and return, with
    no call of [Poll] and with the flags exactly as they were, so that
    nothing remembers the trigger. *)
Theorem C4_one_update_at_a_time (ls : list label) (σ : system) :
  run ls New = Some σ ->
  (forall i j p q,
      pool σ !! i = Some p -> pool σ !! j = Some q ->
      in_flight p = true -> in_flight q = true -> i = j) /\
  (forall i j,
      pool σ !! i = Some UpPolling -> pool σ !! j = Some UpPolling -> i = j) /\
  (forall k,
      pool σ !! k = Some UpCheck -> updating σ = true ->
      run [Run k; Run k] σ
      = Some (mkSystem None (updating σ) (closed σ)
                (<[k := UpDone false]> (pool σ)) (polls σ) (source_closes σ)) /\
      forall σ', statement k (UpDone false) σ' = None).
Proof.
  intros Hrun.
  pose proof (poller_run_preserves ls New σ New_invariant Hrun) as Hinv.
  split; [apply (inv_single σ Hinv)|]. split.
  - intros i j Hi Hj. by apply (inv_single σ Hinv i j UpPolling UpPolling).
  - intros k Hk Hup. split; [|done].
    assert (k < length (pool σ)) as Hlen by (by eapply lookup_lt_Some).
    simpl. rewrite Hk. simpl. rewrite Hup, andb_false_r. simpl.
    rewrite list_lookup_insert_eq by done. simpl.
    unfold move, with_mutex. simpl. rewrite list_insert_insert_eq.
    by rewrite ?Hup, ?Hcl.
Qed.

Lemma C4_one_update_at_a_time_witness :
  exists σ,
    run (firstn 7 close_during_poll) New = Some σ /\
    pool σ = [UpPolling; UpCheck] /\
    (forall i j,
        pool σ !! i = Some UpPolling -> pool σ !! j = Some UpPolling -> i = j) /\
    run [Run 1; Run 1] σ
    = Some (mkSystem None true false [UpPolling; UpDone false] 1 0).
Proof.
  eexists. split; [vm_compute; reflexivity|]. split; [reflexivity|].
  pose proof (C4_one_update_at_a_time (firstn 7 close_during_poll) _ eq_refl)
    as (_ & Hone & Hdrop).
  split; [exact Hone|].
  exact (proj1 (Hdrop 1 eq_refl eq_refl)).
Defined.

(** C5.  In every state the poller can reach: [source.Close] has been
    called at most once; a call of [Close] that is at or past
    [source.Close] finds the poller closed and no update in flight, and
    once the source is closed no update is in flight ever; the call that
    closes the poller has not returned unless the source is closed; while
    an update is running that call can only go to sleep in [Wait], where
    it has no statement of its own until a [Broadcast] wakes it, and while
    it sleeps an update is in flight or a [Broadcast] is still to come; a
    call that finds the poller closed releases the mutex and returns,
    changing nothing. *)
Theorem C5_Close_waits_for_the_poll (ls : list label) (σ : system) :
  run ls New = Some σ ->
  source_closes σ <= 1 /\
  (forall i p,
      pool σ !! i = Some p -> past_loop p = true ->
      closed σ = true /\ updating σ = false /\
      forall j q, pool σ !! j = Some q -> in_flight q = false) /\
  (source_closes σ = 1 ->
   forall j q, pool σ !! j = Some q -> in_flight q = false) /\
  (forall i, pool σ !! i = Some (ClDone true) -> source_closes σ = 1) /\
  (forall i,
      pool σ !! i = Some ClLoop -> updating σ = true ->
      run [Run i; Run i] σ
      = Some (mkSystem None (updating σ) (closed σ)
                (<[i := ClAsleep]> (pool σ)) (polls σ) (source_closes σ)) /\
      forall σ', statement i ClAsleep σ' = None) /\
  (forall i,
      pool σ !! i = Some ClAsleep ->
      (exists k q, pool σ !! k = Some q /\
                   (in_flight q = true \/ announcing q = true)) /\
      forall k σ',
        pool σ !! k = Some UpBroadcast -> step (Run k) σ = Some σ' ->
        pool σ' !! i = Some ClWake) /\
  (forall i,
      pool σ !! i = Some ClCheck -> closed σ = true ->
      run [Run i; Run i] σ
      = Some (mkSystem None (updating σ) (closed σ)
                (<[i := ClDone false]> (pool σ)) (polls σ) (source_closes σ))).
Proof.
  intros Hrun.
  pose proof (poller_run_preserves ls New σ New_invariant Hrun) as Hinv.
  assert (forall j q, updating σ = false -> pool σ !! j = Some q ->
                      in_flight q = false) as Hidle.
  { intros j q Hup Hq. destruct (in_flight q) eqn:E; [|done].
    pose proof (inv_flag σ Hinv j q Hq E). congruence. }
  split; [|split; [|split; [|split; [|split; [|split]]]]].
  - destruct (inv_nobody σ Hinv) as [->|(i & p & Hi & Hp)]; [lia|].
    rewrite (inv_once σ Hinv i p Hi Hp). lia.
  - intros i p Hi Hp.
    pose proof (inv_drained σ Hinv i p Hi Hp) as Hup.
    split; [exact (inv_marked σ Hinv i p Hi (past_loop_mark p Hp))|].
    split; [done|]. intros j q. by apply Hidle.
  - intros Hone. destruct (inv_nobody σ Hinv) as [Hz|(i & p & Hi & Hp)]; [lia|].
    intros j q. apply Hidle.
    exact (inv_drained σ Hinv i p Hi (source_done_loop p Hp)).
  - intros i Hi. by apply (inv_once σ Hinv i _ Hi).
  - intros i Hi Hup. split; [|done].
    assert (i < length (pool σ)) as Hlen by (by eapply lookup_lt_Some).
    simpl. rewrite Hi. simpl. rewrite Hup. simpl.
    rewrite list_lookup_insert_eq by done. simpl.
    unfold move, with_mutex. simpl. rewrite list_insert_insert_eq.
    by rewrite ?Hup, ?Hcl.
  - intros i Hi. split.
    + destruct (inv_asleep σ Hinv i Hi) as [Hup|(k & q & Hk & Hq)].
      * destruct (inv_running σ Hinv Hup) as (k & q & Hk & Hq). eauto 6.
      * eauto 6.
    + intros k σ' Hk Hst. simpl in Hst. rewrite Hk in Hst. simpl in Hst.
      injection Hst as <-. simpl.
      rewrite list_lookup_insert_ne by (intros ->; congruence).
      by rewrite list_lookup_fmap, Hi.
  - intros i Hi Hcl.
    assert (i < length (pool σ)) as Hlen by (by eapply lookup_lt_Some).
    simpl. rewrite Hi. simpl. rewrite Hcl. simpl.
    rewrite list_lookup_insert_eq by done. simpl.
    unfold move, with_mutex. simpl. rewrite list_insert_insert_eq.
    by rewrite ?Hup, ?Hcl.
Qed.

Lemma C5_Close_waits_for_the_poll_witness :
  exists σ,
    run close_during_poll New = Some σ /\
    pool σ = [UpDone true; UpDone false; ClDone true; ClDone false] /\
    polls σ = 1 /\ source_closes σ = 1 /\
    source_closes σ <= 1.
Proof.
  eexists. split; [vm_compute; reflexivity|]. do 3 (split; [reflexivity|]).
  apply (C5_Close_waits_for_the_poll close_during_poll). reflexivity.
Defined.

End PollerFacts.

(** ** More about the durable reporter, one caller at a time *)

Module DurableCallFacts.
Import Durable DurableFacts.

Lemma assess_success (clock : list event -> Z)
    (newReporter : list event -> string -> Reporter + error)
    (i : Z) (reporter : Reporter) (s : state) :
  assess clock newReporter i reporter None s = ((false, None), s).
Proof. reflexivity. Qed.

(** The loop of [attempt], whatever the calls answer: how many calls it
    makes, what it runs besides, and what it returns. *)
Lemma attempt_loop_account (clock : list event -> Z)
    (newReporter : list event -> string -> Reporter + error)
    (perform : list event -> call -> Reporter -> option error)
    (c : call) (n : nat) :
  forall (i : Z) (err0 : option error) (s : state),
    (0 <= i)%Z ->
    attempts (fst s) = (i + Z.of_nat (S n))%Z ->
    (attempts (fst s) < 2 ^ 64)%Z ->
    let out := attempt_loop clock newReporter perform c (S n) i err0 s in
    let h' := snd (snd out) in
    exists k,
      1 <= k <= S n /\
      actions h' = actions (snd s) + k /\
      blocking_recoveries h' = blocking_recoveries (snd s) + (k - 1) /\
      constructions h' <= constructions (snd s) + (k - 1) /\
      (exists hpre rep tail,
          h' = hpre ++ EvAction c rep (fst out) :: tail /\ actions tail = 0) /\
      background_recoveries h'
      = background_recoveries (snd s)
        + match fst out with
          | Some e => if decide (e = ErrClosed) then 0 else 1
          | None => 0
          end /\
      (forall e, fst out = Some e -> e ≠ ErrClosed -> k = S n).
Proof.
  induction n as [|n IH]; intros i err0 [d h] Hi Hatt Hmax; cbv zeta;
    rewrite attempt_loop_turn; cbn [fst snd]; cbv zeta;
    destruct (perform h c (r d)) as [e|] eqn:Hres.
  - destruct (decide (e = ErrClosed)) as [->|Hne].
    + rewrite assess_closed. cbn [fst snd negb]. exists 1.
      split; [lia|]. split; [tally|]. split; [tally|]. split; [tally|].
      split; [by exists h, (r d), []|]. split; [tally|]. by intros ? [= <-] ?.
    + rewrite assess_final; [|done|cbn [fst snd] in *; rewrite uint_small; lia].
      cbn [fst snd negb]. exists 1.
      split; [lia|]. split; [tally|]. split; [tally|]. split; [tally|].
      split.
      { exists h, (r d), [EvGo (GoRecover (r d))]. rewrite <- app_assoc.
        split; [done|]. by vm_compute. }
      split; [|done]. destruct (decide (e = ErrClosed)); [done|]. tally.
  - rewrite assess_success. cbn [fst snd negb]. exists 1.
    split; [lia|]. split; [tally|]. split; [tally|]. split; [tally|].
    split; [by exists h, (r d), []|]. split; [tally|]. done.
  - destruct (decide (e = ErrClosed)) as [->|Hne].
    + rewrite assess_closed. cbn [fst snd negb]. exists 1.
      split; [lia|]. split; [tally|]. split; [tally|]. split; [tally|].
      split; [by exists h, (r d), []|]. split; [tally|]. by intros ? [= <-] ?.
    + set (s1 := (d, h ++ [EvAction c (r d) (Some e)])).
      destruct (assess_nonfinal clock newReporter i (r d) e s1 Hne)
        as (rerr & Has & _).
      { unfold s1. cbn [fst snd] in *. rewrite uint_small; lia. }
      rewrite Has. cbn [fst snd negb].
      pose proof (recover_frame clock newReporter (r d) s1) as (Fa & Fb & Fc & Fd & Fe).
      destruct (IH (i + 1)%Z rerr (snd (recover clock newReporter (r d) s1)))
        as (k & Hk & Ga & Gb & Gc & Glast & Gd & Gfull).
      { lia. }
      { rewrite Fa. unfold s1. cbn [fst snd] in *. lia. }
      { rewrite Fa. unfold s1. cbn [fst snd] in *. lia. }
      cbv zeta in *. exists (S k).
      assert (actions (snd s1) = actions h + 1) by (unfold s1; cbn [snd]; tally).
      assert (blocking_recoveries (snd s1) = blocking_recoveries h) by (unfold s1; cbn [snd]; tally).
      assert (background_recoveries (snd s1) = background_recoveries h)
        by (unfold s1; cbn [snd]; tally).
      assert (constructions (snd s1) = constructions h) by (unfold s1; cbn [snd]; tally).
      split; [lia|]. split; [lia|]. split; [lia|]. split; [lia|].
      split; [exact Glast|]. split; [lia|].
      intros e' He' Hne'. rewrite (Gfull e' He' Hne'). done.
  - rewrite assess_success. cbn [fst snd negb]. exists 1.
    split; [lia|]. split; [tally|]. split; [tally|]. split; [tally|].
    split; [by exists h, (r d), []|]. split; [tally|]. done.
Qed.

(** X1.  Whatever the remote calls answer, a capability call on a reporter
    with [A > 0] attempts makes between one and [A] underlying calls and
    returns the outcome of the last of them; the caller runs one blocking
    recovery per call but the last, so at most [A - 1], each constructing
    at most one reporter; a background recovery is launched exactly when
    the outcome is an error other than [ErrClosed], and then all [A] calls
    have been made. *)
Theorem attempt_account (clock : list event -> Z)
    (newReporter : list event -> string -> Reporter + error)
    (perform : list event -> call -> Reporter -> option error)
    (c : call) (s : state) :
  (0 < attempts (fst s) < 2 ^ 64)%Z ->
  let out := attempt clock newReporter perform c s in
  let h' := snd (snd out) in
  exists k,
    1 <= k <= Z.to_nat (attempts (fst s)) /\
    actions h' = actions (snd s) + k /\
    blocking_recoveries h' = blocking_recoveries (snd s) + (k - 1) /\
    constructions h' <= constructions (snd s) + (k - 1) /\
    (exists hpre rep tail,
        h' = hpre ++ EvAction c rep (fst out) :: tail /\ actions tail = 0) /\
    background_recoveries h'
    = background_recoveries (snd s)
      + match fst out with
        | Some e => if decide (e = ErrClosed) then 0 else 1
        | None => 0
        end /\
    (forall e, fst out = Some e -> e ≠ ErrClosed ->
               k = Z.to_nat (attempts (fst s))).
Proof.
  intros Hatt. cbv zeta. rewrite attempt_unfold.
  destruct (Z.to_nat (attempts (fst s))) as [|n] eqn:E; [lia|].
  apply attempt_loop_account; lia.
Qed.

Lemma attempt_account_witness :
  let s := (mkDurable "srv" 0 3 0 0, []) in
  let out := attempt (frozen_clock 0) reachable (failing (ErrForeign 1))
               (CallBacklog 4) s in
  exists k,
    1 <= k <= Z.to_nat 3 /\
    actions (snd (snd out)) = actions [] + k /\
    blocking_recoveries (snd (snd out)) = blocking_recoveries [] + (k - 1).
Proof.
  intros s out.
  destruct (attempt_account (frozen_clock 0) reachable (failing (ErrForeign 1))
              (CallBacklog 4) s) as (k & Hk & Ha & Hb & _).
  { simpl. lia. }
  exists k. split; [exact Hk|]. split; [exact Ha|exact Hb].
Defined.

(** X2.  A call that succeeds at once is one underlying call on the
    current reporter and nothing else: no clock is read, no recovery is run
    or launched, and the reporter's fields are as before. *)
Theorem attempt_success_is_plain (clock : list event -> Z)
    (newReporter : list event -> string -> Reporter + error)
    (perform : list event -> call -> Reporter -> option error)
    (c : call) (s : state) :
  (0 < attempts (fst s))%Z ->
  perform (snd s) c (r (fst s)) = None ->
  attempt clock newReporter perform c s
  = (None, (fst s, snd s ++ [EvAction c (r (fst s)) None])).
Proof.
  intros Hatt Hok. rewrite attempt_unfold.
  destruct (Z.to_nat (attempts (fst s))) as [|n] eqn:E; [lia|].
  rewrite attempt_loop_turn. cbv zeta. rewrite Hok. reflexivity.
Qed.

Lemma attempt_success_is_plain_witness :
  Report (frozen_clock 0) reachable (fun _ _ _ => None) 5 6 true false
    (mkDurable "srv" 30 3 0 0, [])
  = (None, (mkDurable "srv" 30 3 0 0,
            [EvAction (CallReport 5 6 true false) 0 None])).
Proof.
  apply (attempt_success_is_plain (frozen_clock 0) reachable (fun _ _ _ => None)
           (CallReport 5 6 true false) (mkDurable "srv" 30 3 0 0, [])).
  - simpl. lia.
  - reflexivity.
Defined.

(** X3.  [retries + 1] is computed in [uint]: when it wraps to zero, the
    reporter that [NewDurableReporter] returns answers every call with
    success without ever making it. *)
Theorem wrapped_retries_never_call (clock : list event -> Z)
    (newReporter : list event -> string -> Reporter + error)
    (perform : list event -> call -> Reporter -> option error)
    (srv : string) (ival retries : Z) (h h1 hist : list event)
    (d : durableReporter) (c : call) :
  uint (retries + 1) = 0%Z ->
  NewDurableReporter clock newReporter srv ival retries h = (inl d, h1) ->
  attempt clock newReporter perform c (d, hist) = (None, (d, hist)).
Proof.
  intros Hwrap Hnew. unfold NewDurableReporter in Hnew.
  destruct (newReporter h srv) as [rep|e]; [|done].
  injection Hnew as <- _. rewrite attempt_unfold. cbn [fst attempts].
  rewrite Hwrap. reflexivity.
Qed.

Lemma wrapped_retries_never_call_witness :
  attempt (frozen_clock 7) reachable (failing ErrDisconnected) (CallVector 1)
    (mkDurable "srv" 30 (uint (2 ^ 64 - 1 + 1)) 0 7, [])
  = (None, (mkDurable "srv" 30 (uint (2 ^ 64 - 1 + 1)) 0 7, [])).
Proof.
  apply (wrapped_retries_never_call (frozen_clock 7) reachable
           (failing ErrDisconnected) "srv" 30 (2 ^ 64 - 1) []
           [EvNewReporter "srv" (inl 0); EvNow 7%Z] []).
  - reflexivity.
  - reflexivity.
Defined.

(** [recover] declines, returning no error, leaving every field as it
    was, constructing nothing and launching nothing, when the reporter has
    been replaced since the caller copied it, and also when less than
    [interval] has passed since the last recovery. *)
Lemma recover_declines (clock : list event -> Z)
    (newReporter : list event -> string -> Reporter + error)
    (reporter : Reporter) (s : state) :
  r (fst s) ≠ reporter \/
  (Sub (clock (snd s ++ [EvRecover reporter])) (lastRecovery (fst s))
   < interval (fst s))%Z ->
  let out := recover clock newReporter reporter s in
  fst out = None /\
  fst (snd out) = fst s /\
  constructions (snd (snd out)) = constructions (snd s) /\
  (forall g, EvGo g ∈ snd (snd out) -> EvGo g ∈ snd s).
Proof.
  intros Hcase. destruct s as [d h]. cbv zeta. run.
  destruct (decide (r d ≠ reporter)) as [Hne|Heq]; simpl.
  - split; [done|]. split; [done|]. split; [tally|].
    intros g Hg. apply elem_of_app in Hg as [Hg|Hg]; [done|].
    apply list_elem_of_singleton in Hg. done.
  - destruct Hcase as [Hne|Hearly]; [done|].
    destruct (Z.ltb_spec (Sub (clock (h ++ [EvRecover reporter])) (lastRecovery d))
                (interval d)); [|lia].
    simpl. split; [done|]. split; [done|]. split; [tally|].
    intros g Hg. apply elem_of_app in Hg as [Hg|Hg].
    + apply elem_of_app in Hg as [Hg|Hg]; [done|].
      apply list_elem_of_singleton in Hg. done.
    + apply list_elem_of_singleton in Hg. done.
Qed.

Lemma assess_within_the_interval (clock : list event -> Z)
    (newReporter : list event -> string -> Reporter + error)
    (i : Z) (reporter : Reporter) (err : option error) (s : state) :
  (forall h, Sub (clock h) (lastRecovery (fst s)) < interval (fst s))%Z ->
  let out := assess clock newReporter i reporter err s in
  fst (snd out) = fst s /\
  constructions (snd (snd out)) = constructions (snd s) /\
  (forall old, EvGo (GoClose old) ∈ snd (snd out) -> EvGo (GoClose old) ∈ snd s).
Proof.
  intros Hclock. cbv zeta.
  destruct err as [e|]; [|done].
  destruct (decide (e = ErrClosed)) as [->|Hne]; [done|].
  destruct (Z.leb_spec (attempts (fst s)) (uint (i + 1))) as [Hle|Hlt].
  - rewrite assess_final by done. cbn [fst snd]. split; [done|].
    split; [tally|].
    intros old Hold. apply elem_of_app in Hold as [Hold|Hold]; [done|].
    apply list_elem_of_singleton in Hold. done.
  - destruct (assess_nonfinal clock newReporter i reporter e s Hne Hlt)
      as (rerr & -> & _). cbn [fst snd].
    pose proof (recover_declines clock newReporter reporter s
                  (or_intror (Hclock _))) as (_ & Hd & Hc & Hg).
    cbv zeta in *. auto.
Qed.

Lemma attempt_loop_within_the_interval (clock : list event -> Z)
    (newReporter : list event -> string -> Reporter + error)
    (perform : list event -> call -> Reporter -> option error)
    (c : call) (n : nat) :
  forall (i : Z) (err0 : option error) (s : state),
    (forall h, Sub (clock h) (lastRecovery (fst s)) < interval (fst s))%Z ->
    let out := attempt_loop clock newReporter perform c n i err0 s in
    fst (snd out) = fst s /\
    constructions (snd (snd out)) = constructions (snd s) /\
    (forall old, EvGo (GoClose old) ∈ snd (snd out) ->
                 EvGo (GoClose old) ∈ snd s).
Proof.
  induction n as [|n IH]; intros i err0 [d h] Hclock; cbv zeta.
  { done. }
  rewrite attempt_loop_turn. cbn [fst snd]. cbv zeta.
  set (s1 := (d, h ++ [EvAction c (r d) (perform h c (r d))])).
  pose proof (assess_within_the_interval clock newReporter i (r d)
                (perform h c (r d)) s1 Hclock) as (Hd & Hc & Hg).
  cbv zeta in *.
  assert (constructions (snd s1) = constructions h) as Hc1
    by (unfold s1; cbn [snd]; tally).
  assert (forall old, EvGo (GoClose old) ∈ snd s1 -> EvGo (GoClose old) ∈ h)
    as Hg1.
  { unfold s1. cbn [snd]. intros old Hold.
    apply elem_of_app in Hold as [Hold|Hold]; [done|].
    apply list_elem_of_singleton in Hold. done. }
  destruct (assess clock newReporter i (r d) (perform h c (r d)) s1)
    as [[re e2] s2]. cbn [fst snd] in *.
  destruct re; cbn [negb].
  - destruct (IH (i + 1)%Z e2 s2) as (Id & Ic & Ig).
    { rewrite Hd. exact Hclock. }
    cbv zeta in *. rewrite Id, Ic, Hd, Hc, Hc1.
    split; [done|]. split; [done|]. auto.
  - cbn [fst snd]. rewrite Hd, Hc, Hc1. split; [done|]. split; [done|]. auto.
Qed.

(** X4.  While the clock reads less than [interval] after the last
    recovery, no call re-creates the reporter: however often the underlying
    call fails and however many attempts are made, the call constructs no
    reporter, closes none, and leaves every field of the durable reporter,
    the current object included, as it was. *)
Theorem no_recreation_within_the_interval (clock : list event -> Z)
    (newReporter : list event -> string -> Reporter + error)
    (perform : list event -> call -> Reporter -> option error)
    (c : call) (s : state) :
  (forall h, Sub (clock h) (lastRecovery (fst s)) < interval (fst s))%Z ->
  let out := attempt clock newReporter perform c s in
  fst (snd out) = fst s /\
  constructions (snd (snd out)) = constructions (snd s) /\
  (forall old, EvGo (GoClose old) ∈ snd (snd out) ->
               EvGo (GoClose old) ∈ snd s).
Proof.
  intros Hclock. cbv zeta. rewrite attempt_unfold.
  by apply attempt_loop_within_the_interval.
Qed.

Lemma no_recreation_within_the_interval_witness :
  let s := (mkDurable "srv" 30 3 0 100, []) in
  let out := attempt (frozen_clock 110) reachable (failing (ErrForeign 1))
               (CallVector 2) s in
  fst (snd out) = fst s /\
  constructions (snd (snd out)) = constructions (snd s) /\
  (forall old, EvGo (GoClose old) ∈ snd (snd out) ->
               EvGo (GoClose old) ∈ snd s).
Proof.
  apply (no_recreation_within_the_interval (frozen_clock 110) reachable
           (failing (ErrForeign 1)) (CallVector 2)
           (mkDurable "srv" 30 3 0 100, [])).
  intros h. vm_compute. reflexivity.
Defined.

(** X5.  When the copy is current and the interval has passed, [recover]
    calls [NewReporter] once and then writes the time read after the call
    into [lastRecovery], whatever the call returned.  On success the new
    reporter becomes current, the old one is handed to a goroutine that
    closes it, and no error is returned; on failure the old reporter stays
    and the failure is returned. *)
Theorem recover_constructs (clock : list event -> Z)
    (newReporter : list event -> string -> Reporter + error)
    (reporter : Reporter) (s : state) :
  r (fst s) = reporter ->
  (interval (fst s)
   <= Sub (clock (snd s ++ [EvRecover reporter])) (lastRecovery (fst s)))%Z ->
  let out := recover clock newReporter reporter s in
  let d := fst s in
  let d' := fst (snd out) in
  let asked := snd s ++ [EvRecover reporter;
                         EvNow (clock (snd s ++ [EvRecover reporter]))] in
  constructions (snd (snd out)) = constructions (snd s) + 1 /\
  server d' = server d /\ interval d' = interval d /\ attempts d' = attempts d /\
  (exists hpre, snd (snd out) = hpre ++ [EvNow (lastRecovery d')] /\
                lastRecovery d' = clock hpre) /\
  match newReporter asked (server d) with
  | inl fresh =>
      fst out = None /\ r d' = fresh /\
      snd (snd out)
      = asked ++ [EvNewReporter (server d) (inl fresh); EvGo (GoClose (r d));
                  EvNow (lastRecovery d')]
  | inr e =>
      fst out = Some e /\ r d' = r d /\
      snd (snd out)
      = asked ++ [EvNewReporter (server d) (inr e); EvNow (lastRecovery d')]
  end.
Proof.
  intros Hcur Hdue. destruct s as [d h]. cbv zeta. run.
  destruct (decide (r d ≠ reporter)) as [Hne|_]; [done|]. simpl.
  destruct (Z.ltb_spec (Sub (clock (h ++ [EvRecover reporter])) (lastRecovery d))
              (interval d)); [lia|].
  simpl.
  replace (h ++ [EvRecover reporter; EvNow (clock (h ++ [EvRecover reporter]))])
    with ((h ++ [EvRecover reporter]) ++ [EvNow (clock (h ++ [EvRecover reporter]))])
    by (by rewrite <- app_assoc).
  destruct (newReporter _ (server d)) as [fresh|e] eqn:Hnew; simpl.
  - split; [tally|]. do 3 (split; [done|]).
    split; [eexists; split; reflexivity|].
    split; [done|]. split; [done|]. by rewrite <- !app_assoc.
  - split; [tally|]. do 3 (split; [done|]).
    split; [eexists; split; reflexivity|].
    split; [done|]. split; [done|]. by rewrite <- !app_assoc.
Qed.

Lemma recover_constructs_witness :
  let s := (mkDurable "srv" 30 2 0 100, []) in
  let out := recover (frozen_clock 130) reachable 0 s in
  constructions (snd (snd out)) = constructions (snd s) + 1.
Proof.
  apply (recover_constructs (frozen_clock 130) reachable 0
           (mkDurable "srv" 30 2 0 100, [])).
  - reflexivity.
  - vm_compute. discriminate.
Defined.

End DurableCallFacts.

(** ** Facts about the lock of the durable reporter *)

Module DurableLockFacts.
Import Durable DurableConc DurableLock.

Lemma durable_reading_snoc (l : list goroutine) (g : goroutine) :
  reading (l ++ [g]) = reading l + (if holds_read (at_pc g) then 1 else 0).
Proof.
  unfold reading. rewrite filter_app, length_app. f_equal.
  destruct (holds_read (at_pc g)) eqn:E.
  - by rewrite filter_cons_True.
  - rewrite filter_cons_False; [done|]. by rewrite E.
Qed.

Lemma durable_reading_cons (g : goroutine) (l : list goroutine) :
  reading (g :: l) = (if holds_read (at_pc g) then 1 else 0) + reading l.
Proof.
  unfold reading. destruct (holds_read (at_pc g)) eqn:E.
  - by rewrite filter_cons_True.
  - rewrite filter_cons_False; [done|]. by rewrite E.
Qed.

Lemma durable_reading_insert (l : list goroutine) :
  forall i g g',
    l !! i = Some g ->
    reading (<[i := g']> l) + (if holds_read (at_pc g) then 1 else 0)
    = reading l + (if holds_read (at_pc g') then 1 else 0).
Proof.
  induction l as [|x l IH]; intros [|i] g g' Hl; simpl in Hl; try done.
  - injection Hl as ->. simpl. rewrite !durable_reading_cons. lia.
  - simpl. rewrite !durable_reading_cons. specialize (IH i g g' Hl). lia.
Qed.

Lemma durable_reading_none (l : list goroutine) :
  (forall i g, l !! i = Some g -> holds_read (at_pc g) = false) ->
  reading l = 0.
Proof.
  induction l as [|x l IH]; intros H; [done|].
  rewrite durable_reading_cons, (H 0 x eq_refl), IH; [done|].
  intros i g Hi. by apply (H (S i)).
Qed.

Lemma durable_reading_some (l : list goroutine) (i : nat) (g : goroutine) :
  l !! i = Some g -> holds_read (at_pc g) = true -> 0 < reading l.
Proof.
  revert i. induction l as [|x l IH]; intros [|i] Hl Hg; simpl in Hl; try done.
  - injection Hl as ->. rewrite durable_reading_cons, Hg. lia.
  - rewrite durable_reading_cons. specialize (IH i Hl Hg). lia.
Qed.

Lemma durable_lock_statement (tid : nat) (g : goroutine)
    (answer : Reporter + error) (σ σ' : system) :
  discipline σ -> pool σ !! tid = Some g ->
  statement tid g answer σ = Some σ' ->
  discipline σ'.
Proof.
  intros [Hown Hheld Hrd Hex] Hg Hst.
  assert (tid < length (pool σ)) as Hlen by (by eapply lookup_lt_Some).
  assert (in_recover (at_pc g) = true -> writer σ = Some tid) as Hme by eauto.
  assert (forall g', reading (<[tid := g']> (pool σ))
                     + (if holds_read (at_pc g) then 1 else 0)
                     = reading (pool σ)
                       + (if holds_read (at_pc g') then 1 else 0)) as Hcount
    by (intros g'; by apply durable_reading_insert).
  assert (holds_read (at_pc g) = true -> 0 < readers σ) as Hpos.
  { intros Hr. rewrite Hrd. by eapply durable_reading_some. }
  destruct g as [snap p].
  unfold statement, attempt, recover in Hst; simpl in *.
  destruct p; simpl in *;
    repeat (match type of Hst with
            | context [match ?x with _ => _ end] => destruct x eqn:?
            | context [if ?b then _ else _] => destruct b eqn:?
            end);
    try done; injection Hst as <-;
    try (specialize (Hme eq_refl)); try (specialize (Hpos eq_refl)).
  all: split; simpl.
  all: try (intros i g' Hi Hg';
            apply list_lookup_insert_Some in Hi;
            destruct Hi as [(-> & <- & _)|[Hne Hi]];
            [first [done | by eauto]
            |first [by eauto
                   |by (specialize (Hown _ _ Hi Hg'); congruence)]]).
  all: try (intros i Hw;
            first [done
                  |by (simplify_eq; eexists; split;
                       [by apply list_lookup_insert_eq|done])
                  |by (destruct (Hheld i Hw) as (g' & Hg' & Hl);
                       destruct (decide (i = tid)) as [->|Hne];
                       [eexists; split; [by apply list_lookup_insert_eq|done]
                       |exists g'; by rewrite list_lookup_insert_ne])
                  |by (destruct (Hheld i Hw) as (g' & Hg' & Hl);
                       destruct (decide (i = tid)) as [->|Hne];
                       [rewrite Hg in Hg'; injection Hg' as <-; done
                       |exists g'; by rewrite list_lookup_insert_ne])]).
  all: try (by (match goal with
                | |- _ = reading (<[_ := ?q]> _) =>
                    specialize (Hcount q); simpl in Hcount; lia
                end)).
  all: try (by intros [? ?]).
  all: try (by (intros _; apply Hex; rewrite Hme; eauto)).
  all: try (by (intros Hw; specialize (Hex Hw); lia)).
Qed.

Lemma durable_lock_step (l : label) (σ σ' : system) :
  discipline σ -> step l σ = Some σ' -> discipline σ'.
Proof.
  intros Hdis Hst. destruct l as [dt| |snap|tid answer]; simpl in Hst.
  - destruct (0 <=? dt)%Z; [|done]. injection Hst as <-.
    destruct Hdis as [Hown Hheld Hrd Hex]. by split.
  - injection Hst as <-. destruct Hdis as [Hown Hheld Hrd Hex].
    split; simpl; [| | |done].
    + intros i g Hi Hg. apply lookup_app_Some in Hi as [Hi|[_ Hi]]; [by eauto|].
      by apply list_lookup_singleton_Some in Hi as [_ <-].
    + intros i Hw. destruct (Hheld i Hw) as (g & Hg & Hl).
      exists g. split; [by apply lookup_app_l_Some|done].
    + rewrite durable_reading_snoc. simpl. lia.
  - injection Hst as <-. destruct Hdis as [Hown Hheld Hrd Hex].
    split; simpl; [| | |done].
    + intros i g Hi Hg. apply lookup_app_Some in Hi as [Hi|[_ Hi]]; [by eauto|].
      by apply list_lookup_singleton_Some in Hi as [_ <-].
    + intros i Hw. destruct (Hheld i Hw) as (g & Hg & Hl).
      exists g. split; [by apply lookup_app_l_Some|done].
    + rewrite durable_reading_snoc. simpl. lia.
  - destruct (pool σ !! tid) as [g|] eqn:Hg; [|done].
    by eapply durable_lock_statement.
Qed.

Lemma durable_lock_run (ls : list label) :
  forall σ σ', discipline σ -> run ls σ = Some σ' -> discipline σ'.
Proof.
  induction ls as [|l ls IH]; intros σ σ' Hdis Hrun; simpl in Hrun.
  - by injection Hrun as <-.
  - destruct (step l σ) as [σ1|] eqn:Hstep; [|done].
    eapply IH; [|done]. by eapply durable_lock_step.
Qed.

Lemma start_discipline (d : durableReporter) (built t : Z) :
  discipline (start d built t).
Proof. split; simpl; try done. Qed.

(** X6.  Among goroutines in [attempt] and [recover], the fields of the durable
    reporter are never written while another one is at a read or a write of
    them: in every state that callers, background recoveries and the clock
    can lead to, a goroutine whose next statement replaces [r.r] or stamps
    [r.lastRecovery] is the only one whose next statement reads or writes
    either field.  ([Close], which reads [r.r] without the lock, is not one
    of these goroutines.) *)
Theorem reporter_accesses_do_not_race (d : durableReporter) (built t : Z)
    (ls : list label) (σ : system) :
  run ls (start d built t) = Some σ ->
  forall i j g h,
    pool σ !! i = Some g -> pool σ !! j = Some h ->
    writes_fields (at_pc g) = true ->
    reads_fields (at_pc h) = true \/ writes_fields (at_pc h) = true ->
    i = j.
Proof.
  intros Hrun i j g h Hi Hj Hg Hh.
  pose proof (durable_lock_run ls _ σ (start_discipline d built t) Hrun) as Hdis.
  assert (writer σ = Some i) as Hw.
  { apply (dis_owner σ Hdis i g Hi). by destruct (at_pc g). }
  destruct (in_recover (at_pc h)) eqn:Hl.
  - pose proof (dis_owner σ Hdis j h Hj Hl). congruence.
  - assert (holds_read (at_pc h) = true) as Hr.
    { destruct (at_pc h); simpl in *; try done; by destruct Hh. }
    pose proof (durable_reading_some _ _ _ Hj Hr) as Hpos.
    rewrite <- (dis_readers σ Hdis) in Hpos.
    rewrite (dis_exclusive σ Hdis) in Hpos; [lia|]. by rewrite Hw.
Qed.

Lemma reporter_accesses_do_not_race_witness :
  exists σ,
    run (firstn 14 two_failing_callers) (start (mkDurable "srv" 10 3 0 100) 95 100)
    = Some σ /\
    forall i j g h,
      pool σ !! i = Some g -> pool σ !! j = Some h ->
      writes_fields (at_pc g) = true ->
      reads_fields (at_pc h) = true \/ writes_fields (at_pc h) = true ->
      i = j.
Proof.
  eexists. split; [vm_compute; reflexivity|].
  apply (reporter_accesses_do_not_race (mkDurable "srv" 10 3 0 100) 95 100
           (firstn 14 two_failing_callers)).
  vm_compute. reflexivity.
Defined.

(** X7.  [attempt] and [recover] always give back what they took of the lock:
    in every reachable state in which every goroutine has returned, the
    lock is free, with no reader and no writer; and whenever the exclusive
    lock is taken, the goroutine that took it is inside [recover]. *)
Theorem recover_gives_the_lock_back (d : durableReporter) (built t : Z)
    (ls : list label) (σ : system) :
  run ls (start d built t) = Some σ ->
  ((forall i g, pool σ !! i = Some g -> returned (at_pc g) = true) ->
   writer σ = None /\ readers σ = 0) /\
  (forall i, writer σ = Some i ->
             exists g, pool σ !! i = Some g /\ in_recover (at_pc g) = true).
Proof.
  intros Hrun.
  pose proof (durable_lock_run ls _ σ (start_discipline d built t) Hrun) as Hdis.
  split; [|apply (dis_held σ Hdis)].
  intros Hall. split.
  - destruct (writer σ) as [i|] eqn:Hw; [|done].
    destruct (dis_held σ Hdis i Hw) as (g & Hg & Hl).
    specialize (Hall i g Hg). by destruct (at_pc g).
  - rewrite (dis_readers σ Hdis). apply durable_reading_none.
    intros i g Hg. specialize (Hall i g Hg). by destruct (at_pc g).
Qed.

Lemma recover_gives_the_lock_back_witness :
  exists σ,
    run two_failing_callers (start (mkDurable "srv" 10 3 0 100) 95 100) = Some σ /\
    writer σ = None /\ readers σ = 0.
Proof.
  eexists. split; [vm_compute; reflexivity|].
  apply (recover_gives_the_lock_back (mkDurable "srv" 10 3 0 100) 95 100
           two_failing_callers); [vm_compute; reflexivity|].
  intros [|[|[|[|i]]]] g Hg; vm_compute in Hg; by simplify_eq.
Defined.

End DurableLockFacts.

(** ** More about the registry, one caller at a time *)

Module RegistryUseFacts.
Import Registry RegistryUse RegistryFacts.

(** What [create] records, spelled out. *)
Lemma create_unfold (env : environment) (fqdn : string) (st : state) :
  create env fqdn st =
  let c := fst st in
  let h := snd st in
  match newReporter env h fqdn with
  | inr e => (inr e, (c, h ++ [EvNewReporter fqdn (inr e)]))
  | inl r0 =>
      let h1 := h ++ [EvNewReporter fqdn (inl r0)] in
      match newLimiter env h1 r0 1 with
      | inr e => (inr e, (c, h1 ++ [EvNewLimiter r0 1 (inr e)]))
      | inl r1 =>
          let h2 := h1 ++ [EvNewLimiter r0 1 (inl r1)] in
          if caching c then
            (inl (newCacher env h2 r1 (cacheDuration c)),
             (c, h2 ++ [EvNewCacher r1 (cacheDuration c)
                          (newCacher env h2 r1 (cacheDuration c))]))
          else (inl r1, (c, h2))
      end
  end.
Proof.
  destruct st as [c h]. unfold create, NewReporter, NewLimiter, NewCacher,
    history, emit, get_client, bind, ret. cbn [fst snd].
  destruct (newReporter env h fqdn); cbn [fst snd]; [|done].
  destruct (newLimiter env _ _ _); cbn [fst snd]; [|done].
  destruct (caching c); done.
Qed.

Lemma server_history (env : environment) (s : string) (st : state) :
  snd (snd (server env s st)) =
  match servers (fst st) !! ToLower s with
  | Some _ => snd st
  | None => snd (snd (create env (ToLower s) st))
  end.
Proof.
  rewrite server_unfold.
  destruct (servers (fst st) !! ToLower s); [done|].
  destruct (fst (create env (ToLower s) st)); done.
Qed.


(** X9.  A server whose session cannot be built is not remembered as
    unusable: the failed resolution returns the constructor's error and
    leaves the client as it was, and the next resolution of the name calls
    [NewReporter] again. *)
Theorem failed_resolution_is_not_kept (env : environment) (s : string)
    (st st' : state) (e : error) :
  server env s st = (inr e, st') ->
  fst st' = fst st /\
  servers (fst st') !! ToLower s = None /\
  (newReporter env (snd st) (ToLower s) = inr e \/
   exists r0, newReporter env (snd st) (ToLower s) = inl r0 /\
              newLimiter env (snd st ++ [EvNewReporter (ToLower s) (inl r0)]) r0 1
              = inr e) /\
  exists res tail,
    snd (snd (server env s st'))
    = snd st' ++ EvNewReporter (ToLower s) res :: tail.
Proof.
  intros Hs. rewrite server_unfold in Hs.
  destruct (servers (fst st) !! ToLower s) as [rep|] eqn:Hl; [done|].
  pose proof (create_keeps_client env (ToLower s) st) as Hk.
  destruct (fst (create env (ToLower s) st)) as [rep|e'] eqn:Hc; [done|].
  injection Hs as -> <-. split; [done|]. rewrite Hk. split; [done|]. split.
  - rewrite create_unfold in Hc. cbv zeta in Hc.
    destruct (newReporter env (snd st) (ToLower s)) as [r0|e0]; cbn [fst] in Hc.
    + right. exists r0. split; [done|].
      destruct (newLimiter env _ r0 1) as [r1|e1]; cbn [fst] in Hc.
      * by destruct (caching (fst st)).
      * by injection Hc as ->.
    + left. by injection Hc as ->.
  - rewrite server_history, Hk, Hl, create_unfold. cbv zeta.
    destruct (newReporter env _ (ToLower s)) as [r0|e0]; cbn [fst snd].
    + destruct (newLimiter env _ r0 1) as [r1|e1]; cbn [fst snd].
      * destruct (caching _); cbn [fst snd]; eexists _, _;
          rewrite <- ?app_assoc; reflexivity.
      * eexists _, _. rewrite <- ?app_assoc. reflexivity.
    + by eexists _, [].
Qed.

Lemma failed_resolution_is_not_kept_witness :
  fst (snd (server offline "srvA" (NewClient, []))) = NewClient.
Proof.
  destruct (failed_resolution_is_not_kept offline "srvA" (NewClient, [])
              (NewClient, [EvNewReporter "srva" (inr ErrDisconnected)])
              ErrDisconnected) as (H & _).
  - reflexivity.
  - reflexivity.
Defined.

Lemma server_keeps_sessions (env : environment) (s : string) (st : state)
    (k : string) (rep : Reporter) :
  servers (fst st) !! k = Some rep ->
  servers (fst (snd (server env s st))) !! k = Some rep.
Proof.
  intros Hk. rewrite server_unfold.
  destruct (servers (fst st) !! ToLower s) as [rep'|] eqn:Hl; [done|].
  destruct (fst (create env (ToLower s) st)); cbn [fst snd servers].
  - rewrite lookup_insert_ne; [done|]. intros <-. congruence.
  - by rewrite create_keeps_client.
Qed.

(** X10.  No operation of the client removes or replaces a session it owns:
    a key that maps to a session before [server], [Vector], [Report] or
    [Backlog] maps to the same session afterwards, whether the operation
    succeeds or fails; and resolving a name whose key is present returns
    that session without any call to the outside. *)
Theorem sessions_are_kept (env : environment) (k : string) (rep : Reporter)
    (st : state) :
  servers (fst st) !! k = Some rep ->
  (forall s, servers (fst (snd (server env s st))) !! k = Some rep) /\
  (forall s g, servers (fst (snd (Vector env s g st))) !! k = Some rep) /\
  (forall s g v b f, servers (fst (snd (Report env s g v b f st))) !! k = Some rep) /\
  (forall from to g, servers (fst (snd (Backlog env from to g st))) !! k = Some rep) /\
  (forall s, ToLower s = k -> server env s st = (inl rep, st)).
Proof.
  intros Hk.
  assert (forall s st0, servers (fst st0) !! k = Some rep ->
                        servers (fst (snd (server env s st0))) !! k = Some rep)
    as Hserver by (intros; by apply server_keeps_sessions).
  split; [by intros; apply Hserver|]. split; [|split; [|split]].
  - intros s g. specialize (Hserver s st Hk). unfold Vector, bind.
    destruct (server env s st) as [[rep'|e] [c h]]; [|done].
    unfold call_Vector, history, emit, bind, ret. done.
  - intros s g v b f. specialize (Hserver s st Hk). unfold Report, bind.
    destruct (server env s st) as [[rep'|e] [c h]]; [|done].
    unfold call_Report, history, emit, bind, ret. done.
  - intros from to g. rewrite Backlog_unfold. cbv zeta.
    pose proof (Hserver from st Hk) as H1.
    pose proof (Hserver to (snd (server env from st)) H1) as H2.
    destruct (fst (server env from st)); [|done].
    destruct (fst (server env to _)); [|done].
    destruct (snd (reporterVector env _ _ g)); done.
  - intros s <-. by rewrite server_unfold, Hk.
Qed.

Lemma sessions_are_kept_witness :
  let st := snd (server obliging "srvA" (NewClient, [])) in
  server obliging "SRVA" st = (inl 1, st).
Proof.
  intros st.
  apply (sessions_are_kept obliging "srva" 1 st).
  - vm_compute. reflexivity.
  - reflexivity.
Defined.


End RegistryUseFacts.

(** ** Facts about the lock of the registry *)

Module RegistryLockFacts.
Import RegistryConc RegistryLock.

Lemma reading_snoc (l : list pc) (p : pc) :
  reading (l ++ [p]) = reading l + (if holds_read p then 1 else 0).
Proof.
  unfold reading. rewrite filter_app, length_app. f_equal.
  destruct (holds_read p) eqn:E.
  - by rewrite filter_cons_True.
  - rewrite filter_cons_False; [done|]. by rewrite E.
Qed.

Lemma reading_cons (p : pc) (l : list pc) :
  reading (p :: l) = (if holds_read p then 1 else 0) + reading l.
Proof.
  unfold reading. destruct (holds_read p) eqn:E.
  - by rewrite filter_cons_True.
  - rewrite filter_cons_False; [done|]. by rewrite E.
Qed.

Lemma reading_insert (l : list pc) :
  forall i p q,
    l !! i = Some p ->
    reading (<[i := q]> l) + (if holds_read p then 1 else 0)
    = reading l + (if holds_read q then 1 else 0).
Proof.
  induction l as [|x l IH]; intros [|i] p q Hl; simpl in Hl; try done.
  - injection Hl as ->. simpl. rewrite !reading_cons. lia.
  - simpl. rewrite !reading_cons. specialize (IH i p q Hl). lia.
Qed.

Lemma reading_none (l : list pc) :
  (forall i p, l !! i = Some p -> holds_read p = false) -> reading l = 0.
Proof.
  induction l as [|x l IH]; intros H; [done|].
  rewrite reading_cons, (H 0 x eq_refl), IH; [done|].
  intros i p Hi. by apply (H (S i)).
Qed.

Lemma reading_some (l : list pc) (i : nat) (p : pc) :
  l !! i = Some p -> holds_read p = true -> 0 < reading l.
Proof.
  revert i. induction l as [|x l IH]; intros [|i] Hl Hp; simpl in Hl; try done.
  - injection Hl as ->. rewrite reading_cons, Hp. lia.
  - rewrite reading_cons. specialize (IH i Hl Hp). lia.
Qed.

Ltac at_tid Hi :=
  apply list_lookup_insert_Some in Hi;
  destruct Hi as [(-> & ? & _)|[? Hi]]; simplify_eq.

Lemma lock_statement_preserves (tid : nat) (p : pc) (answer : Reporter + error)
    (σ σ' : system) :
  discipline σ -> pool σ !! tid = Some p -> statement tid p answer σ = Some σ' ->
  discipline σ'.
Proof.
  intros [Hown Hheld Hrd Hex Hin] Hp Hst.
  assert (tid < length (pool σ)) as Hlen by (by eapply lookup_lt_Some).
  assert (holds_lock p = true -> writer σ = Some tid) as Hme by eauto.
  assert (forall q, reading (<[tid := q]> (pool σ)) + (if holds_read p then 1 else 0)
                    = reading (pool σ) + (if holds_read q then 1 else 0)) as Hcount
    by (intros q; by apply reading_insert).
  destruct p as [fqdn|key|key [rep|]|key|key|key rep|res|res| |[|[k rep] rest]| |];
    simpl in Hst;
    repeat (match type of Hst with
            | context [match ?x with _ => _ end] => destruct x eqn:?
            end);
    try done; try (by specialize (Hme eq_refl));
    injection Hst as <-; simpl in *.
  all: split; simpl.
  all: try (intros i q Hi Hq; at_tid Hi;
            first [ done | by eauto | by apply Hme
                  | by (specialize (Hown _ _ Hi Hq); congruence)
                  | by (specialize (Hown _ _ Hi Hq); specialize (Hme eq_refl);
                        congruence) ]).
  all: try (intros i Hw;
            first [ done
                  | by (simplify_eq; eexists; split;
                        [by apply list_lookup_insert_eq|done])
                  | by (destruct (Hheld i Hw) as (q & Hq & Hl);
                        destruct (decide (i = tid)) as [->|Hne];
                        [ simplify_eq; eexists; split;
                          [by apply list_lookup_insert_eq|done]
                        | exists q; by rewrite list_lookup_insert_ne ])
                  | by (destruct (Hheld i Hw) as (q & Hq & Hl);
                        destruct (decide (i = tid)) as [->|Hne];
                        [ rewrite Hp in Hq; injection Hq as <-; done
                        | exists q; by rewrite list_lookup_insert_ne ]) ]).
  all: try (intros i Hi; at_tid Hi; by eapply Hin).
  all: try (by (specialize (Hcount (SvLookup (ToLower fqdn))); simpl in Hcount; lia)).
  all: try (by (match goal with
                | |- _ = reading (<[_ := ?q]> _) =>
                    specialize (Hcount q); simpl in Hcount; lia
                end)).
  all: try (by intros [? ?]).
  all: try (by (intros _; apply Hex; rewrite (Hme eq_refl); eauto)).
  all: try (by (intros Hw; specialize (Hex Hw); lia)).
Qed.

Lemma lock_step_preserves (l : label) (σ σ' : system) :
  discipline σ -> step l σ = Some σ' -> discipline σ'.
Proof.
  intros Hdis Hst. destruct l as [fqdn| |tid answer]; simpl in Hst.
  - injection Hst as <-. destruct Hdis as [Hown Hheld Hrd Hex Hin].
    split; simpl; [| | |done|].
    + intros i q Hi Hq. apply lookup_app_Some in Hi as [Hi|[_ Hi]]; [by eauto|].
      by apply list_lookup_singleton_Some in Hi as [_ <-].
    + intros i Hw. destruct (Hheld i Hw) as (q & Hq & Hl).
      exists q. split; [by apply lookup_app_l_Some|done].
    + rewrite reading_snoc. simpl. lia.
    + intros i Hi. apply lookup_app_Some in Hi as [Hi|[_ Hi]]; [by eapply Hin|].
      by apply list_lookup_singleton_Some in Hi as [_ ?].
  - injection Hst as <-. destruct Hdis as [Hown Hheld Hrd Hex Hin].
    split; simpl; [| | |done|].
    + intros i q Hi Hq. apply lookup_app_Some in Hi as [Hi|[_ Hi]]; [by eauto|].
      by apply list_lookup_singleton_Some in Hi as [_ <-].
    + intros i Hw. destruct (Hheld i Hw) as (q & Hq & Hl).
      exists q. split; [by apply lookup_app_l_Some|done].
    + rewrite reading_snoc. simpl. lia.
    + intros i Hi. apply lookup_app_Some in Hi as [Hi|[_ Hi]]; [by eapply Hin|].
      by apply list_lookup_singleton_Some in Hi as [_ ?].
  - destruct (pool σ !! tid) as [p|] eqn:Hp; [|done].
    by eapply lock_statement_preserves.
Qed.

Lemma lock_run_preserves (ls : list label) :
  forall σ σ', discipline σ -> run ls σ = Some σ' -> discipline σ'.
Proof.
  induction ls as [|l ls IH]; intros σ σ' Hdis Hrun; simpl in Hrun.
  - by injection Hrun as <-.
  - destruct (step l σ) as [σ1|] eqn:Hstep; [|done].
    eapply IH; [|done]. by eapply lock_step_preserves.
Qed.

Lemma fresh_discipline : discipline fresh.
Proof. split; simpl; done. Qed.

(** X12.  The map is never written while another goroutine is at a read or
    a write of it: in every state the client can reach, a goroutine whose
    next statement writes [c.servers] (the insert in [server], the reset in
    [Close]) is the only one whose next statement reads or writes it. *)
Theorem map_accesses_do_not_race (ls : list label) (σ : system) :
  run ls fresh = Some σ ->
  forall i j p q,
    pool σ !! i = Some p -> pool σ !! j = Some q ->
    writes_map p = true ->
    reads_map q = true \/ writes_map q = true ->
    i = j.
Proof.
  intros Hrun i j p q Hi Hj Hp Hq.
  pose proof (lock_run_preserves ls fresh σ fresh_discipline Hrun) as Hdis.
  assert (writer σ = Some i) as Hw.
  { apply (dis_owner σ Hdis i p Hi). by destruct p as [| | | | | | | | |[]| |]. }
  destruct (holds_lock q) eqn:Hl.
  - pose proof (dis_owner σ Hdis j q Hj Hl). congruence.
  - assert (holds_read q = true) as Hr.
    { destruct q as [| | | | | | | | |[]| |]; simpl in *; try done;
        by destruct Hq. }
    pose proof (reading_some _ _ _ Hj Hr) as Hpos.
    rewrite <- (dis_readers σ Hdis) in Hpos.
    rewrite (dis_exclusive σ Hdis) in Hpos; [lia|]. by rewrite Hw.
Qed.

Lemma map_accesses_do_not_race_witness :
  exists σ,
    run (firstn 11 three_callers) fresh = Some σ /\
    pool σ = [SvLock "srva"; SvInsert "srvb" 20; SvRLock "SRVA"] /\
    forall i j p q,
      pool σ !! i = Some p -> pool σ !! j = Some q ->
      writes_map p = true ->
      reads_map q = true \/ writes_map q = true ->
      i = j.
Proof.
  eexists. split; [vm_compute; reflexivity|]. split; [reflexivity|].
  apply (map_accesses_do_not_race (firstn 11 three_callers)).
  vm_compute. reflexivity.
Defined.

(** X13.  [server] always gives back what it took of the lock: in every
    state the client can reach in which every call has returned, the lock
    is free, with no reader and no writer; and whenever the exclusive lock
    is taken, the goroutine that took it is still between its [Lock] and
    its unlock. *)
Theorem server_gives_the_lock_back (ls : list label) (σ : system) :
  run ls fresh = Some σ ->
  ((forall i p, pool σ !! i = Some p -> finished p = true) ->
   writer σ = None /\ readers σ = 0) /\
  (forall i, writer σ = Some i ->
             exists p, pool σ !! i = Some p /\ holds_lock p = true).
Proof.
  intros Hrun.
  pose proof (lock_run_preserves ls fresh σ fresh_discipline Hrun) as Hdis.
  split; [|apply (dis_held σ Hdis)].
  intros Hall. split.
  - destruct (writer σ) as [i|] eqn:Hw; [|done].
    destruct (dis_held σ Hdis i Hw) as (p & Hp & Hl).
    specialize (Hall i p Hp).
    destruct p; try done. by destruct (dis_inside σ Hdis i).
  - rewrite (dis_readers σ Hdis). apply reading_none.
    intros i p Hp. specialize (Hall i p Hp). by destruct p.
Qed.

Lemma server_gives_the_lock_back_witness :
  exists σ,
    run three_callers fresh = Some σ /\
    pool σ = [SvReturned (inl 10); SvReturned (inl 20); SvReturned (inl 10)] /\
    writer σ = None /\ readers σ = 0.
Proof.
  eexists. split; [vm_compute; reflexivity|]. split; [reflexivity|].
  apply (server_gives_the_lock_back three_callers); [vm_compute; reflexivity|].
  intros [|[|[|i]]] p Hp; vm_compute in Hp; by simplify_eq.
Defined.

End RegistryLockFacts.

(** ** More facts about the poller *)

Module PollerUseFacts.
Import Poller PollerLock PollerFacts.

Lemma quiet_statement (tid : nat) (p : pc) (σ σ' : system) :
  invariant σ -> closed σ = true -> updating σ = false ->
  pool σ !! tid = Some p -> statement tid p σ = Some σ' ->
  closed σ' = true /\ updating σ' = false /\ polls σ' = polls σ /\
  source_closes σ <= source_closes σ'.
Proof.
  intros Hinv Hc Hu Hp Hst.
  assert (in_flight p = true -> False) as Hidle.
  { intros Hf. pose proof (inv_flag σ Hinv tid p Hp Hf). congruence. }
  destruct p as [| |[]| | | | | | |[]| | | | | | | | | | | | | | |[]];
    simpl in Hst; unfold lock in Hst;
    repeat (match type of Hst with
            | context [match ?x with _ => _ end] => destruct x eqn:?
            | context [if ?x then _ else _] => destruct x eqn:?
            end);
    try done; try (by destruct Hidle);
    injection Hst as <-; simpl; rewrite ?Hc, ?Hu in *; simpl in *;
    try done; repeat split; try done; lia.
Qed.

Lemma quiet_run (ls : list label) :
  forall σ σ',
    invariant σ -> closed σ = true -> updating σ = false ->
    run ls σ = Some σ' ->
    closed σ' = true /\ updating σ' = false /\ polls σ' = polls σ /\
    source_closes σ <= source_closes σ'.
Proof.
  induction ls as [|l ls IH]; intros σ σ' Hinv Hc Hu Hrun; simpl in Hrun.
  { injection Hrun as <-. done. }
  destruct (step l σ) as [σ1|] eqn:Hstep; [|done].
  assert (closed σ1 = true /\ updating σ1 = false /\ polls σ1 = polls σ /\
          source_closes σ <= source_closes σ1) as (Hc1 & Hu1 & Hp1 & Hs1).
  { destruct l as [| | |tid]; simpl in Hstep; try (by injection Hstep as <-).
    destruct (pool σ !! tid) as [p|] eqn:Hp; [|done].
    by eapply quiet_statement. }
  destruct (IH σ1 σ' (poller_step_preserves _ _ _ Hinv Hstep) Hc1 Hu1 Hrun)
    as (? & ? & ? & ?).
  repeat split; try done; lia.
Qed.

(** X14.  Once the poller is closed and no update is running, the source is
    never polled again, whatever ticks, calls of [Poll] and calls of [Close]
    follow: the poller stays closed and idle and the count of polls stays
    where it is.  In particular this holds from the moment the source has
    been closed. *)
Theorem closed_poller_stays_quiet (ls ls' : list label) (σ σ' : system) :
  run ls New = Some σ ->
  (closed σ = true /\ updating σ = false) \/ source_closes σ = 1 ->
  run ls' σ = Some σ' ->
  closed σ' = true /\ updating σ' = false /\ polls σ' = polls σ /\
  forall i p, pool σ' !! i = Some p -> in_flight p = false.
Proof.
  intros Hrun Hq Hrun'.
  pose proof (poller_run_preserves ls New σ New_invariant Hrun) as Hinv.
  pose proof (poller_run_preserves ls' σ σ' Hinv Hrun') as Hinv'.
  assert (closed σ = true /\ updating σ = false) as [Hc Hu].
  { destruct Hq as [|Hone]; [done|].
    destruct (inv_nobody σ Hinv) as [Hz|(i & p & Hi & Hp)]; [lia|].
    pose proof (source_done_loop p Hp) as Hl. split.
    - exact (inv_marked σ Hinv i p Hi (past_loop_mark p Hl)).
    - exact (inv_drained σ Hinv i p Hi Hl). }
  destruct (quiet_run ls' σ σ' Hinv Hc Hu Hrun') as (Hc' & Hu' & Hp' & _).
  do 3 (split; [done|]). intros i p Hi.
  destruct (in_flight p) eqn:E; [|done].
  pose proof (inv_flag σ' Hinv' i p Hi E). congruence.
Qed.

Lemma closed_poller_stays_quiet_witness :
  exists σ σ',
    run (firstn 11 poll_close_poll) New = Some σ /\
    run (skipn 11 poll_close_poll) σ = Some σ' /\
    pool σ' = [PoDone; UpDone false; ClDone true; PoDone] /\
    polls σ' = polls σ.
Proof.
  do 2 eexists. split; [vm_compute; reflexivity|].
  split; [vm_compute; reflexivity|]. split; [reflexivity|].
  eapply (closed_poller_stays_quiet (firstn 11 poll_close_poll)
            (skipn 11 poll_close_poll)).
  - vm_compute. reflexivity.
  - right. reflexivity.
  - vm_compute. reflexivity.
Defined.

(** X15.  [Poll] does not wait for any poll: with the mutex free its three
    statements run through.  On an open poller they leave exactly one new
    update goroutine, at the start of [update]; on a closed poller they
    leave nothing.  Either way the flags and counts are untouched and the
    mutex is free again. *)
Theorem Poll_is_a_pulse (i : nat) (σ : system) :
  pool σ !! i = Some PoLock -> mutex σ = None ->
  run [Run i; Run i; Run i] σ
  = Some (mkSystem None (updating σ) (closed σ)
            (<[i := PoDone]>
               (if closed σ then pool σ else pool σ ++ [UpLock]))
            (polls σ) (source_closes σ)).
Proof.
  intros Hp Hm.
  assert (i < length (pool σ)) as Hlen by (by eapply lookup_lt_Some).
  simpl. rewrite Hp. simpl. unfold lock. rewrite Hm. simpl.
  rewrite list_lookup_insert_eq by done. simpl.
  destruct (closed σ) eqn:Hc; simpl.
  - assert (i < length (<[i:=PoSend]> (pool σ))) as H1
      by (by rewrite length_insert).
    rewrite (list_lookup_insert_eq _ _ _ H1). simpl.
    unfold move, with_mutex. simpl. rewrite !list_insert_insert_eq. by rewrite Hc.
  - assert (i < length (<[i:=PoSend]> (pool σ) ++ [UpLock])) as H1
      by (rewrite length_app, length_insert; simpl; lia).
    rewrite (list_lookup_insert_eq _ _ _ H1). simpl.
    unfold move, with_mutex, spawn. simpl.
    rewrite !list_insert_insert_eq.
    assert (i < length (<[i:=PoSend]> (pool σ))) as H2
      by (by rewrite length_insert).
    rewrite (insert_app_l _ [UpLock] i PoDone H2).
    rewrite (insert_app_l _ [UpLock] i PoDone Hlen).
    rewrite list_insert_insert_eq. by rewrite Hc.
Qed.

Lemma Poll_is_a_pulse_witness :
  run [Run 0; Run 0; Run 0] (mkSystem None false false [PoLock] 0 0)
  = Some (mkSystem None false false [PoDone; UpLock] 0 0).
Proof.
  apply (Poll_is_a_pulse 0 (mkSystem None false false [PoLock] 0 0));
    reflexivity.
Defined.

(** X16.  [Close] on an open poller with no update running does not wait:
    with the mutex free its six statements run through, leaving the poller
    closed, the source closed once more than before, the mutex free and
    everything else as it was. *)
Theorem Close_on_idle_poller (i : nat) (σ : system) :
  pool σ !! i = Some ClLock -> mutex σ = None ->
  closed σ = false -> updating σ = false ->
  run (replicate 6 (Run i)) σ
  = Some (mkSystem None false true (<[i := ClDone true]> (pool σ))
            (polls σ) (S (source_closes σ))).
Proof.
  intros Hp Hm Hc Hu.
  assert (i < length (pool σ)) as Hlen by (by eapply lookup_lt_Some).
  simpl. rewrite Hp. simpl. unfold lock. rewrite Hm. simpl.
  rewrite list_lookup_insert_eq by done. simpl. rewrite Hc. simpl.
  rewrite list_lookup_insert_eq by (rewrite ?length_insert; lia). simpl.
  rewrite list_lookup_insert_eq by (rewrite ?length_insert; lia). simpl.
  rewrite Hu. simpl.
  rewrite list_lookup_insert_eq by (rewrite ?length_insert; lia). simpl.
  rewrite list_lookup_insert_eq by (rewrite ?length_insert; lia). simpl.
  unfold move, with_mutex. simpl. by rewrite !list_insert_insert_eq, Hu.
Qed.

Lemma Close_on_idle_poller_witness :
  run (replicate 6 (Run 0)) (mkSystem None false false [ClLock] 3 0)
  = Some (mkSystem None false true [ClDone true] 3 1).
Proof.
  apply (Close_on_idle_poller 0 (mkSystem None false false [ClLock] 3 0));
    reflexivity.
Defined.

Lemma holder_moves_on (tid : nat) (p : pc) (σ : system) :
  holds p = true -> exists σ', statement tid p σ = Some σ'.
Proof.
  destruct p; try done; intros _; simpl;
    repeat match goal with
      | |- context [if ?b then _ else _] => destruct b
      end; eauto.
Qed.

Lemma free_mutex_moves_on (tid : nat) (p : pc) (σ : system) :
  mutex σ = None -> returned p = false -> p ≠ ClAsleep ->
  exists σ', statement tid p σ = Some σ'.
Proof.
  intros Hm Hr Ha. destruct p; try done; simpl; unfold lock; rewrite ?Hm;
    repeat match goal with
      | |- context [if ?b then _ else _] => destruct b
      end; eauto.
Qed.

Lemma held_statement (tid : nat) (p : pc) (σ σ' : system) :
  held_inside σ ->
  pool σ !! tid = Some p -> statement tid p σ = Some σ' ->
  held_inside σ'.
Proof.
  intros Hheld Hp Hst.
  assert (tid < length (pool σ)) as Hlen by (by eapply lookup_lt_Some).
  destruct p; simpl in Hst; unfold lock in Hst;
    repeat match type of Hst with
      | context [match ?x with _ => _ end] => destruct x eqn:?
      | context [if ?b then _ else _] => destruct b eqn:?
      end;
    try done; injection Hst as <-; intros i Hi; simpl in Hi |- *;
    try done;
    try (injection Hi as <-; eexists; split;
         [apply list_lookup_insert_eq; by rewrite ?length_app, ?length_fmap|done]);
    (destruct (Hheld i Hi) as (q & Hq & Hhq);
     (destruct (decide (i = tid)) as [->|Hne];
      [rewrite Hp in Hq; injection Hq as <-; simpl in Hhq;
       first [done
             |eexists; split;
              [apply list_lookup_insert_eq;
               rewrite ?length_app, ?length_fmap; simpl; lia|done]]
      |exists q; split; [|done];
       rewrite list_lookup_insert_ne by done;
       first [done
             |by apply lookup_app_l_Some
             |rewrite list_lookup_fmap, Hq; simpl; by destruct q]])).
Qed.

Lemma held_step (l : label) (σ σ' : system) :
  held_inside σ -> step l σ = Some σ' -> held_inside σ'.
Proof.
  intros Hheld Hstep.
  destruct l as [| | |tid]; simpl in Hstep.
  1-3: injection Hstep as <-; intros i Hi; simpl in *;
    destruct (Hheld i Hi) as (q & Hq & Hhq); exists q; split; [|done];
    by apply lookup_app_l_Some.
  destruct (pool σ !! tid) as [p|] eqn:Hp; [|done].
  by eapply held_statement.
Qed.

Lemma held_run (ls : list label) :
  forall σ σ', held_inside σ -> run ls σ = Some σ' -> held_inside σ'.
Proof.
  induction ls as [|l ls IH]; intros σ σ' Hheld Hrun; simpl in Hrun.
  { by injection Hrun as <-. }
  destruct (step l σ) as [σ1|] eqn:Hstep; [|done].
  eapply (IH σ1); [by eapply held_step|done].
Qed.

(** X17.  The poller cannot deadlock: in every state that ticks, calls of
    [Poll], calls of [Close] and any interleaving of their statements lead
    to, either every goroutine has returned or one of them can execute its
    next statement.  In particular a [Close] asleep in [Wait] is never the
    only one left. *)
Theorem poller_never_deadlocks (ls : list label) (σ : system) :
  run ls New = Some σ ->
  (forall i p, pool σ !! i = Some p -> returned p = true) \/
  (exists i σ', step (Run i) σ = Some σ').
Proof.
  intros Hrun.
  pose proof (poller_run_preserves ls New σ New_invariant Hrun) as Hinv.
  assert (held_inside σ) as Hheld.
  { eapply (held_run ls New); [|exact Hrun]. by intros i. }
  assert (forall i p, pool σ !! i = Some p ->
                      (exists σ', statement i p σ = Some σ') ->
                      exists j σ', step (Run j) σ = Some σ') as Hgo.
  { intros i p Hp (σ' & Hst). exists i, σ'. simpl. by rewrite Hp. }
  destruct (mutex σ) as [i|] eqn:Hm.
  { right. destruct (Hheld i Hm) as (p & Hp & Hh).
    eapply Hgo; [exact Hp|]. by apply holder_moves_on. }
  destruct (decide (Forall (fun p => returned p = true) (pool σ))) as [Hall|Hsome].
  { left. intros i p Hp. rewrite Forall_forall in Hall.
    apply Hall. by eapply list_elem_of_lookup_2. }
  right. apply not_Forall_Exists in Hsome; [|apply _].
  apply Exists_exists in Hsome as (p & Hin & Hp).
  apply list_elem_of_lookup_1 in Hin as (i & Hi).
  assert (p = ClAsleep \/ p ≠ ClAsleep) as [->|Hne]
    by (destruct p; (by left) || (by right)).
  - destruct (inv_asleep σ Hinv i Hi) as [Hu|(k & q & Hk & Hq)].
    + destruct (inv_running σ Hinv Hu) as (k & q & Hk & Hq).
      eapply Hgo; [exact Hk|]. apply free_mutex_moves_on; [done| |];
        by destruct q as [| |[]| | | | | | | | | | | | | | | | | | | | | |].
    + eapply Hgo; [exact Hk|]. apply free_mutex_moves_on; [done| |];
        by destruct q.
  - eapply Hgo; [exact Hi|]. apply free_mutex_moves_on; [done| |done].
    simpl in Hp. by destruct (returned p); [destruct Hp|].
Qed.

Lemma poller_never_deadlocks_witness :
  exists i σ', step (Run i) (mkSystem None true true
                               [UpPolling; UpDone false; ClAsleep] 1 0)
               = Some σ'.
Proof.
  destruct (poller_never_deadlocks (firstn 15 close_during_poll)
              (mkSystem None true true [UpPolling; UpDone false; ClAsleep] 1 0))
    as [Hall|Hstep].
  - vm_compute. reflexivity.
  - specialize (Hall 0 UpPolling eq_refl). discriminate Hall.
  - exact Hstep.
Defined.

End PollerUseFacts.

(** ** Facts about the vector work pool *)

Module WorkPoolFacts.
Import WorkPool.

Lemma workers_loop_spec (rep : Reporter) (n : nat) :
  forall ws, workers_loop rep n ws = ws ++ replicate n (mkVectorWorker rep).
Proof.
  induction n as [|n IH]; intros ws; simpl.
  - by rewrite app_nil_r.
  - rewrite IH, <- app_assoc. done.
Qed.

Lemma first_worker_dispatches
    (reporterVector :
       list event -> Reporter -> Ctx -> GUID -> VectorPtr * CallStat * option error) :
  dispatches reporterVector (first_worker reporterVector).
Proof.
  intros pool d h. unfold first_worker.
  destruct (workers pool) as [|vw ws] eqn:E.
  - left. by exists (ErrForeign 0).
  - right. exists vw. split; [set_solver|].
    unfold bind, ret. by destruct (TunnyJob reporterVector vw d h).
Qed.



(** X19.  A pool made by [newVectorWorkPool] is transparent: whatever worker
    tunny picks, [Vector] on the pool makes exactly one call of [Vector] on
    the reporter the pool was made for, with the context and group given,
    and returns its three results as they are.  When [SendWork] fails the
    error is returned with a nil vector and no call is made.  [Vector]
    never panics. *)
Theorem pool_is_transparent
    (reporterVector :
       list event -> Reporter -> Ctx -> GUID -> VectorPtr * CallStat * option error)
    (openFails : list event -> option error)
    (SendWork : TunnyWorkPool -> data -> M (work + error))
    (numWorkers : Z) (rep : Reporter) (vwp : vectorWorkPool)
    (h0 h1 h : list event) (ctx : Ctx) (group : GUID) :
  dispatches reporterVector SendWork ->
  newVectorWorkPool openFails numWorkers rep h0 = (inl vwp, h1) ->
  let out := Vector SendWork vwp ctx group h in
  (exists e, out = (Returned (0, 0, Some e), h)) \/
  (let res := reporterVector h rep ctx group in
   out = (Returned res, h ++ [EvVector rep ctx group res])).
Proof.
  intros Hsend Hnew. cbv zeta.
  assert (forall vw, vw ∈ workers (p vwp) -> r vw = rep) as Hall.
  { unfold newVectorWorkPool in Hnew.
    destruct (numWorkers =? 0)%Z; [done|].
    rewrite workers_loop_spec in Hnew. simpl in Hnew.
    unfold Open, history, emit, bind, ret in Hnew. simpl in Hnew.
    destruct (openFails h0); [done|]. injection Hnew as <- _. simpl.
    intros vw Hvw. apply elem_of_replicate in Hvw as [-> _]. done. }
  unfold Vector, bind.
  destruct (Hsend (p vwp) (VectorJob ctx group) h) as [[e ->]|(vw & Hvw & ->)].
  - left. by exists e.
  - right. unfold TunnyJob, history, emit, bind, ret. simpl.
    rewrite (Hall vw Hvw).
    by destruct (reporterVector h rep ctx group) as [[v c] e].
Qed.

Lemma pool_is_transparent_witness :
  Vector (first_worker echo)
    (mkVectorWorkPool (mkTunnyWorkPool [mkVectorWorker 7])) 3 5 []
  = (Returned (5, 1, None), [EvVector 7 3 5 (5, 1, None)]).
Proof.
  destruct (pool_is_transparent echo (fun _ => None) (first_worker echo) 1 7
              (mkVectorWorkPool (mkTunnyWorkPool [mkVectorWorker 7]))
              [] [EvOpen [mkVectorWorker 7] None] [] 3 5
              (first_worker_dispatches echo) eq_refl) as [[e He]|H].
  - vm_compute in He. discriminate He.
  - exact H.
Defined.

End WorkPoolFacts.

(** ** Facts about the backlog command *)

Module CommandFacts.
Import Command.

Section Setup.

Variable isMatch : string -> regexSlice -> bool -> bool.
Variables groupRegex fromRegex toRegex memberRegex skipRegex : regexSlice.

Local Abbreviation connections_loop :=
  (connections_loop isMatch fromRegex memberRegex skipRegex).
Local Abbreviation members_loop :=
  (members_loop isMatch fromRegex toRegex memberRegex skipRegex).
Local Abbreviation groups_loop :=
  (groups_loop isMatch groupRegex fromRegex toRegex memberRegex skipRegex).
Local Abbreviation passes_group := (passes_group isMatch groupRegex).
Local Abbreviation passes_member := (passes_member isMatch toRegex skipRegex).
Local Abbreviation passes_connection :=
  (passes_connection isMatch fromRegex memberRegex skipRegex).

(** The entry that [setup] appends for a connection. *)
Local Abbreviation entry group member conn :=
  (mkBacklog group (Host (Connection_Computer conn))
     (Host (Member_Computer member)) [] 0 None).

Lemma connections_loop_spec (group : Group) (member : Member)
    (rest : list Connection) :
  forall connections,
    connections_loop group (Host (Member_Computer member)) rest connections
    = connections
      ++ ((fun conn => entry group member conn)
          <$> filter (fun conn => passes_connection member conn = true) rest).
Proof.
  induction rest as [|conn rest IH]; intros connections.
  { simpl. by rewrite app_nil_r. }
  cbn [Command.connections_loop]. cbv zeta.
  destruct (passes_connection member conn) eqn:P.
  - rewrite filter_cons_True by done. rewrite fmap_cons.
    unfold Command.passes_connection in P. cbv zeta in P.
    destruct (decide (Host (Connection_Computer conn) = EmptyString)) as [E|E];
      [rewrite bool_decide_eq_true_2 in P by done
      |rewrite bool_decide_eq_false_2 in P by done]; simpl in P; [done|].
    destruct (Enabled conn),
      (isMatch (Host (Connection_Computer conn)) skipRegex false),
      (isMatch (Host (Connection_Computer conn)) fromRegex true),
      (isMatch (Host (Connection_Computer conn)) memberRegex true),
      (isMatch (Host (Member_Computer member)) memberRegex true);
      simpl in *; try discriminate; rewrite IH, <- app_assoc; done.
  - rewrite filter_cons_False by (rewrite P; done).
    unfold Command.passes_connection in P. cbv zeta in P.
    destruct (decide (Host (Connection_Computer conn) = EmptyString)) as [E|E];
      [rewrite bool_decide_eq_true_2 in P by done
      |rewrite bool_decide_eq_false_2 in P by done]; simpl in P; [apply IH|].
    destruct (Enabled conn),
      (isMatch (Host (Connection_Computer conn)) skipRegex false),
      (isMatch (Host (Connection_Computer conn)) fromRegex true),
      (isMatch (Host (Connection_Computer conn)) memberRegex true),
      (isMatch (Host (Member_Computer member)) memberRegex true);
      simpl in *; try discriminate; apply IH.
Qed.

(** What the loop over the connections of one member adds. *)
Local Abbreviation of_member group member :=
  ((fun conn => entry group member conn)
   <$> filter (fun conn => passes_connection member conn = true)
         (Connections member)).

Lemma members_loop_spec (group : Group) (rest : list Member) :
  forall connections,
    members_loop group rest connections
    = connections
      ++ (filter (fun member => passes_member member = true) rest
          ≫= fun member => of_member group member).
Proof.
  induction rest as [|member rest IH]; intros connections.
  { simpl. by rewrite app_nil_r. }
  cbn [Command.members_loop]. cbv zeta.
  destruct (passes_member member) eqn:P.
  - rewrite filter_cons_True by done. rewrite bind_cons.
    unfold Command.passes_member in P. cbv zeta in P.
    destruct (decide (Host (Member_Computer member) = EmptyString)) as [E|E];
      [rewrite bool_decide_eq_true_2 in P by done
      |rewrite bool_decide_eq_false_2 in P by done]; simpl in P; [done|].
    destruct (isMatch (Host (Member_Computer member)) skipRegex false),
      (isMatch (Host (Member_Computer member)) toRegex true);
      simpl in *; try discriminate.
    rewrite IH, connections_loop_spec, <- app_assoc. done.
  - rewrite filter_cons_False by (rewrite P; done).
    unfold Command.passes_member in P. cbv zeta in P.
    destruct (decide (Host (Member_Computer member) = EmptyString)) as [E|E];
      [rewrite bool_decide_eq_true_2 in P by done
      |rewrite bool_decide_eq_false_2 in P by done]; simpl in P; [apply IH|].
    destruct (isMatch (Host (Member_Computer member)) skipRegex false),
      (isMatch (Host (Member_Computer member)) toRegex true);
      simpl in *; try discriminate; apply IH.
Qed.

Lemma groups_loop_spec (rest : list Group) :
  forall connections,
    groups_loop rest connections
    = connections
      ++ (filter (fun group => passes_group group = true) rest
          ≫= fun group =>
               filter (fun member => passes_member member = true) (Members group)
               ≫= fun member => of_member group member).
Proof.
  induction rest as [|group rest IH]; intros connections.
  { simpl. by rewrite app_nil_r. }
  cbn [Command.groups_loop].
  destruct (passes_group group) eqn:P.
  - rewrite filter_cons_True by done. rewrite bind_cons.
    unfold Command.passes_group in P. rewrite P. simpl.
    rewrite IH, members_loop_spec, <- app_assoc. done.
  - rewrite filter_cons_False by (rewrite P; done).
    unfold Command.passes_group in P. rewrite P. simpl. apply IH.
Qed.

Lemma passes_member_spec (member : Member) :
  passes_member member = true <->
  Host (Member_Computer member) ≠ EmptyString /\
  isMatch (Host (Member_Computer member)) skipRegex false = false /\
  isMatch (Host (Member_Computer member)) toRegex true = true.
Proof.
  unfold Command.passes_member. cbv zeta.
  rewrite !andb_true_iff, !negb_true_iff, bool_decide_eq_false. tauto.
Qed.

Lemma passes_connection_spec (member : Member) (conn : Connection) :
  passes_connection member conn = true <->
  Host (Connection_Computer conn) ≠ EmptyString /\
  Enabled conn = true /\
  isMatch (Host (Connection_Computer conn)) skipRegex false = false /\
  isMatch (Host (Connection_Computer conn)) fromRegex true = true /\
  (isMatch (Host (Connection_Computer conn)) memberRegex true = true \/
   isMatch (Host (Member_Computer member)) memberRegex true = true).
Proof.
  unfold Command.passes_connection. cbv zeta.
  rewrite !andb_true_iff, orb_true_iff, !negb_true_iff, bool_decide_eq_false.
  tauto.
Qed.

Variable adsi_NewClient : AdsiClient + error.
Variable dnc : AdsiClient -> string + error.
Variable config_Domain : AdsiClient -> string -> Domain + error.

(** X20.  When [setup] succeeds, the connections it returns are exactly those
    of the fetched domain that pass every filter: the group matches the
    group patterns; the member that is the destination has a host name,
    is not skipped and matches the destination patterns; the connection
    is enabled, its source has a host name, is not skipped and matches the
    source patterns; and source or destination matches the member
    patterns.  Each is returned with its group, no folder backlog and no
    error. *)
Theorem setup_selects (domain dom : string) (connections : list Backlog)
    (h : list event) :
  setup adsi_NewClient dnc config_Domain isMatch
    groupRegex fromRegex toRegex memberRegex skipRegex domain
  = ((dom, connections, None), h) ->
  exists client d,
    adsi_NewClient = inl client /\
    config_Domain client dom = inl d /\
    forall b,
      b ∈ connections <->
      exists group member conn,
        group ∈ Groups d /\ member ∈ Members group /\
        conn ∈ Connections member /\
        b = mkBacklog group (Host (Connection_Computer conn))
              (Host (Member_Computer member)) [] 0 None /\
        isMatch (Name group) groupRegex true = true /\
        Host (Member_Computer member) ≠ EmptyString /\
        isMatch (Host (Member_Computer member)) skipRegex false = false /\
        isMatch (Host (Member_Computer member)) toRegex true = true /\
        Host (Connection_Computer conn) ≠ EmptyString /\
        Enabled conn = true /\
        isMatch (Host (Connection_Computer conn)) skipRegex false = false /\
        isMatch (Host (Connection_Computer conn)) fromRegex true = true /\
        (isMatch (Host (Connection_Computer conn)) memberRegex true = true \/
         isMatch (Host (Member_Computer member)) memberRegex true = true).
Proof.
  unfold setup. intros Hs.
  destruct adsi_NewClient as [client|e]; [|done].
  cbv zeta in Hs.
  set (resolved := if decide (domain = EmptyString)
                   then (dnc client,
                         [EvAdsiNewClient (inl client)]
                         ++ [EvDnc client (dnc client)])
                   else (inl domain, [EvAdsiNewClient (inl client)])) in Hs.
  destruct (fst resolved) as [domain'|e]; [|done].
  destruct (config_Domain client domain') as [d|e] eqn:Hd; [|done].
  injection Hs as <- <- _. exists client, d. split; [done|]. split; [done|].
  intros b. rewrite groups_loop_spec, app_nil_l. split.
  - intros Hb.
    apply list_elem_of_bind in Hb as (group & Hb & Hg).
    apply list_elem_of_filter in Hg as [Pg Hg].
    apply list_elem_of_bind in Hb as (member & Hb & Hm).
    apply list_elem_of_filter in Hm as [Pm Hm].
    apply list_elem_of_fmap in Hb as (conn & -> & Hc).
    apply list_elem_of_filter in Hc as [Pc Hc].
    apply passes_member_spec in Pm as (? & ? & ?).
    apply passes_connection_spec in Pc as (? & ? & ? & ? & ?).
    exists group, member, conn. done.
  - intros (group & member & conn & Hg & Hm & Hc & -> & Pg & P1 & P2 & P3
            & Q1 & Q2 & Q3 & Q4 & Q5).
    apply list_elem_of_bind. exists group. split.
    2:{ apply list_elem_of_filter. done. }
    apply list_elem_of_bind. exists member. split.
    2:{ apply list_elem_of_filter. split; [|done].
        by apply passes_member_spec. }
    apply list_elem_of_fmap. exists conn. split; [done|].
    apply list_elem_of_filter. split; [|done].
    by apply passes_connection_spec.
Qed.

Ltac among :=
  repeat split; unfold not; intros; try done;
  repeat match goal with
    | H : _ ∈ _ :: _ |- _ => apply elem_of_cons in H as [H|H]
    | H : _ ∈ [] |- _ => apply elem_of_nil in H
    end;
  try done; try (apply elem_of_cons; by left).

(** X21.  However [setup] ends, it closes the directory client it opened, once
    and as its last call, and opens no second one; when the client cannot
    be opened nothing else is called.  The naming context is looked up
    exactly when no domain was given.  An error comes with no connections;
    the domain is returned with it only if the error is that of fetching
    the configuration. *)
Theorem setup_closes_its_client (domain : string) :
  let out :=
    setup adsi_NewClient dnc config_Domain isMatch
      groupRegex fromRegex toRegex memberRegex skipRegex domain in
  let dom := fst (fst (fst out)) in
  let connections := snd (fst (fst out)) in
  let err := snd (fst out) in
  match adsi_NewClient with
  | inr e =>
      out = ((EmptyString, [], Some e), [EvAdsiNewClient (inr e)])
  | inl client =>
      (exists body,
          snd out = EvAdsiNewClient (inl client) :: body ++ [EvAdsiClose client] /\
          (forall c, EvAdsiClose c ∉ body) /\
          (forall res, EvAdsiNewClient res ∉ body) /\
          (domain = EmptyString <-> EvDnc client (dnc client) ∈ body) /\
          (forall c res, EvDnc c res ∈ body -> domain = EmptyString)) /\
      (err ≠ None -> connections = []) /\
      (forall e, err = Some e ->
                 (dom = EmptyString /\ domain = EmptyString /\
                  dnc client = inr e) \/
                 config_Domain client dom = inr e) /\
      (domain ≠ EmptyString -> err = None -> dom = domain)
  end.
Proof.
  cbv zeta. unfold setup.
  destruct adsi_NewClient as [client|e]; [|done].
  cbv zeta.
  destruct (decide (domain = EmptyString)) as [->|Hne]; cbn [fst snd].
  - destruct (dnc client) as [domain'|e] eqn:Hdnc; cbn [fst snd].
    + destruct (config_Domain client domain') as [d|e] eqn:Hd; cbn [fst snd].
      * split.
        { eexists [_; _]. split; [reflexivity|].
          among. }
        split; [done|]. split; [done|]. done.
      * split.
        { eexists [_; _]. split; [reflexivity|].
          among. }
        split; [done|]. split; [|done].
        intros ? [= <-]. by right.
    + split.
      { eexists [_]. split; [reflexivity|].
        among. }
      split; [done|]. split; [|done].
      intros ? [= <-]. by left.
  - destruct (config_Domain client domain) as [d|e] eqn:Hd; cbn [fst snd].
    + split.
      { eexists [_]. split; [reflexivity|].
        among. }
      split; [done|]. split; [done|]. done.
    + split.
      { eexists [_]. split; [reflexivity|].
        among. }
      split; [done|]. split; [|done].
      intros ? [= <-]. by right.
Qed.

End Setup.

Lemma setup_selects_witness :
  mkBacklog (mkGroup "docs" (Some 4) [10; 11]
               [mkMember (mkComputer "a.example")
                  [mkConnection (mkComputer "b.example") true];
                mkMember (mkComputer "b.example")
                  [mkConnection (mkComputer "a.example") false]])
    "b.example" "a.example" [] 0 None
  ∈ snd (fst (fst (setup (inl 1) (fun _ => inl "example"%string) one_domain
                     literal_match [] [] [] [] [] "example"))).
Proof.
  destruct (setup_selects literal_match [] [] [] [] [] (inl 1)
              (fun _ => inl "example"%string) one_domain "example" "example"
              (snd (fst (fst (setup (inl 1) (fun _ => inl "example"%string)
                                one_domain literal_match [] [] [] [] []
                                "example"))))
              [EvAdsiNewClient (inl 1);
               EvConfigDomain 1 "example" (inl two_members);
               EvAdsiClose 1] eq_refl) as (client & d & _ & Hd & H).
  injection Hd as <-. apply H.
  exists (mkGroup "docs" (Some 4) [10; 11]
            [mkMember (mkComputer "a.example")
               [mkConnection (mkComputer "b.example") true];
             mkMember (mkComputer "b.example")
               [mkConnection (mkComputer "a.example") false]]),
    (mkMember (mkComputer "a.example")
       [mkConnection (mkComputer "b.example") true]),
    (mkConnection (mkComputer "b.example") true).
  split; [apply elem_of_cons; by left|].
  split; [apply elem_of_cons; by left|].
  split; [apply elem_of_cons; by left|].
  split; [reflexivity|]. simpl.
  split; [reflexivity|]. split; [discriminate|]. split; [reflexivity|].
  split; [reflexivity|]. split; [discriminate|]. split; [reflexivity|].
  split; [reflexivity|]. split; [reflexivity|]. left. reflexivity.
Defined.

Section ComputeBacklog.

Variable client_Backlog :
  Ctx -> string -> string -> GUID -> list Z * CallStat * option error.

Lemma fill_loop_spec (values : list Z) (groupFolders : list Folder)
    (remaining : nat) :
  forall (v : nat) (folders : list FolderBacklog),
    v + remaining = length values ->
    length groupFolders = length values ->
    length folders = length values ->
    exists folders',
      fill_loop remaining v values groupFolders folders = Some folders' /\
      length folders' = length values /\
      (forall i, v <= i ->
                 folders' !! i = mkFolderBacklog (Some i) <$> values !! i) /\
      (forall i, i < v -> folders' !! i = folders !! i).
Proof.
  induction remaining as [|remaining IH]; intros v folders Hv Hg Hf; simpl.
  - exists folders. split; [done|]. split; [done|]. split; [|done].
    intros i Hi. rewrite !lookup_ge_None_2 by lia. done.
  - destruct (lookup_lt_is_Some_2 groupFolders v) as [g Eg]; [lia|].
    destruct (lookup_lt_is_Some_2 values v) as [x Ex]; [lia|].
    destruct (lookup_lt_is_Some_2 folders v) as [fb Ef]; [lia|].
    rewrite Eg, Ex, Ef.
    destruct (IH (S v) (<[v := mkFolderBacklog (Some v) x]> folders))
      as (folders' & Hrun & Hlen & Hfrom & Hbelow).
    { lia. }
    { done. }
    { by rewrite length_insert. }
    exists folders'. split; [done|]. split; [done|]. split.
    + intros i Hi. destruct (decide (i = v)) as [->|Hne].
      * rewrite Hbelow by lia. rewrite list_lookup_insert_eq by lia.
        by rewrite Ex.
      * apply Hfrom. lia.
    + intros i Hi. rewrite Hbelow by lia.
      rewrite list_lookup_insert_ne by lia. done.
Qed.

(** X22.  [computeBacklog] on a group with an identifier and a wait group that
    is still waited on never panics.  It records the statistics and the
    error of the query whatever they are and counts the wait group down by
    one.  When the query returned one value per folder of the group, the
    folder backlogs become those values, in order, each with its folder;
    otherwise, as when a failed query returned none for a group that has
    folders, the folder backlogs of the previous query stay. *)
Theorem computeBacklog_folders (ctx : Ctx) (backlog : Backlog) (wg : Z)
    (id : GUID) :
  ID (Backlog_Group backlog) = Some id ->
  (0 < wg)%Z ->
  let res := client_Backlog ctx (From backlog) (To backlog) id in
  let values := fst (fst res) in
  exists updated,
    computeBacklog client_Backlog ctx backlog wg = Some (updated, (wg - 1)%Z) /\
    Backlog_Group updated = Backlog_Group backlog /\
    From updated = From backlog /\ To updated = To backlog /\
    Call updated = snd (fst res) /\ Err updated = snd res /\
    Folders updated
    = if decide (length values = length (Group_Folders (Backlog_Group backlog)))
      then imap (fun v x => mkFolderBacklog (Some v) x) values
      else Folders backlog.
Proof.
  intros Hid Hwg. cbv zeta. unfold computeBacklog. rewrite Hid. cbv zeta.
  set (res := client_Backlog ctx (From backlog) (To backlog) id).
  destruct (Z.ltb_spec (wg - 1) 0); [lia|].
  destruct (decide (length (fst (fst res))
                    = length (Group_Folders (Backlog_Group backlog))))
    as [Hn|Hn].
  - destruct (fill_loop_spec (fst (fst res))
                (Group_Folders (Backlog_Group backlog))
                (length (fst (fst res))) 0
                (replicate (length (fst (fst res))) (mkFolderBacklog None 0)))
      as (folders' & -> & Hlen & Hfrom & _).
    { done. }
    { done. }
    { by rewrite length_replicate. }
    eexists. split; [reflexivity|]. cbn [Backlog_Group From To Call Err Folders].
    do 5 (split; [done|]).
    apply list_eq. intros i. rewrite Hfrom by lia.
    rewrite list_lookup_imap. by destruct (fst (fst res) !! i).
  - eexists. split; [reflexivity|]. done.
Qed.

End ComputeBacklog.

Lemma computeBacklog_folders_witness :
  exists updated,
    computeBacklog steady 0
      (mkBacklog (mkGroup "docs" (Some 4) [10; 11] []) "b.example" "a.example"
         [] 0 None) 1
    = Some (updated, 0%Z) /\
    Folders updated = [mkFolderBacklog (Some 0) 5; mkFolderBacklog (Some 1) 0].
Proof.
  destruct (computeBacklog_folders steady 0
              (mkBacklog (mkGroup "docs" (Some 4) [10; 11] []) "b.example"
                 "a.example" [] 0 None) 1 4 eq_refl)
    as (updated & Hrun & _ & _ & _ & _ & _ & Hf).
  { lia. }
  exists updated. split; [exact Hrun|exact Hf].
Defined.

Lemma uint_below (z : Z) : (0 <= z < 2 ^ 64)%Z -> uint z = z.
Proof. intros H. unfold uint, uint_bits. apply Z.mod_small. lia. Qed.

Lemma iterations_app (a b : list output) :
  iterations (a ++ b) = iterations a ++ iterations b.
Proof. unfold iterations. apply omap_app. Qed.

Lemma sleeps_app (a b : list output) :
  sleeps (a ++ b) = sleeps a ++ sleeps b.
Proof. unfold sleeps. apply omap_app. Qed.

Lemma iterations_setup (h : list event) : iterations (OutSetup <$> h) = [].
Proof. induction h as [|e h IH]; [done|]. exact IH. Qed.

Lemma sleeps_setup (h : list event) : sleeps (OutSetup <$> h) = [].
Proof. induction h as [|e h IH]; [done|]. exact IH. Qed.

Section Main.

Variable f : flags.
Variable domain : string.
Variable client : HelperClient.
Variable connections : list Backlog.

Lemma finite_loop_spec (value : Z) (n : nat) :
  (value < 2 ^ 64)%Z ->
  forall (loop : Z) (out : list output) (fuel : nat),
    (0 <= loop)%Z -> (value - loop = Z.of_nat n)%Z -> n <= fuel ->
    exists more,
      finite_loop f fuel value domain client connections loop out
      = (Returns, out ++ more) /\
      iterations more = seqZ loop (Z.of_nat n) /\
      sleeps more = replicate (n - 1) (seconds (delaySecondsFlag f)) /\
      Forall (of_the_loop domain (minFlag f) client connections) more.
Proof.
  intros Hmax. induction n as [|n IH]; intros loop out fuel Hloop Hn Hfuel.
  - exists []. destruct fuel; simpl;
      (destruct (Z.ltb_spec loop value); [lia|]); by rewrite app_nil_r.
  - destruct fuel as [|fuel]; [lia|]. simpl.
    destruct (Z.ltb_spec loop value); [|lia].
    rewrite (uint_below (loop + 1)) by lia.
    rewrite seqZ_cons by lia.
    replace (Z.pred (Z.of_nat (S n))) with (Z.of_nat n) by lia.
    destruct (Z.ltb_spec (loop + 1) value).
    + destruct (IH (loop + 1)%Z
                  ((out ++ [OutRun domain loop (minFlag f) client connections])
                   ++ [OutPrintln; OutSleep (seconds (delaySecondsFlag f))])
                  fuel) as (more & -> & Hi & Hs & Hall); [lia..|].
      exists (OutRun domain loop (minFlag f) client connections
              :: OutPrintln :: OutSleep (seconds (delaySecondsFlag f)) :: more).
      split; [by rewrite <- !app_assoc|].
      split.
      { change (iterations ?l) with (loop :: iterations more). by rewrite Hi. }
      split.
      { change (sleeps ?l)
          with (seconds (delaySecondsFlag f) :: sleeps more). rewrite Hs.
        destruct n as [|n]; [lia|]. simpl. by rewrite Nat.sub_0_r. }
      repeat (constructor; [done|]). exact Hall.
    + destruct (IH (loop + 1)%Z
                  (out ++ [OutRun domain loop (minFlag f) client connections])
                  fuel) as (more & -> & Hi & Hs & Hall); [lia..|].
      exists (OutRun domain loop (minFlag f) client connections :: more).
      split; [by rewrite <- !app_assoc|].
      split.
      { change (iterations ?l) with (loop :: iterations more). by rewrite Hi. }
      split.
      { change (sleeps ?l) with (sleeps more). rewrite Hs.
        assert (n = 0) as -> by lia. done. }
      constructor; [done|]. exact Hall.
Qed.

Lemma infinite_loop_spec (fuel : nat) :
  forall (loop : Z) (out : list output),
    exists more,
      infinite_loop f fuel domain client connections loop out
      = (Loops, out ++ more) /\
      length (iterations more) = fuel /\
      sleeps more = replicate fuel (seconds (delaySecondsFlag f)) /\
      Forall (of_the_loop domain (minFlag f) client connections) more.
Proof.
  induction fuel as [|fuel IH]; intros loop out; simpl.
  - exists []. by rewrite app_nil_r.
  - destruct (IH (uint (loop + 1))
                (out ++ [OutRun domain loop (minFlag f) client connections;
                         OutSleep (seconds (delaySecondsFlag f))]))
      as (more & -> & Hi & Hs & Hall).
    exists (OutRun domain loop (minFlag f) client connections
            :: OutSleep (seconds (delaySecondsFlag f)) :: more).
    split; [by rewrite <- !app_assoc|].
    split.
    { change (iterations ?l) with (loop :: iterations more). simpl.
      by rewrite Hi. }
    split.
    { change (sleeps ?l) with (seconds (delaySecondsFlag f) :: sleeps more).
      by rewrite Hs. }
    repeat (constructor; [done|]). exact Hall.
Qed.

End Main.

Lemma start_is_quiet (pre : list output) :
  Forall of_the_start pre ->
  iterations pre = [] /\ sleeps pre = [] /\ (OutCancel ∉ pre) /\
  forall d i m c cs, OutRun d i m c cs ∉ pre.
Proof.
  induction 1 as [|o pre Ho Hpre (Hi & Hs & Hc & Hr)].
  { split; [done|]. split; [done|]. split; [apply not_elem_of_nil|].
    intros. apply not_elem_of_nil. }
  destruct o; try done.
  all: split; [exact Hi|]; split; [exact Hs|]; split;
    [intros [?|?]%elem_of_cons; [done|by apply Hc]
    |intros ????? [?|?]%elem_of_cons; [done|by eapply Hr]].
Qed.

Lemma loop_has_no_cancel (domain : string) (min : Z) (client : HelperClient)
    (connections : list Backlog) (more : list output) :
  Forall (of_the_loop domain min client connections) more ->
  OutCancel ∉ more.
Proof.
  intros Hall Hin. rewrite Forall_forall in Hall. exact (Hall _ Hin).
Qed.

(** [main] up to its loops, when [setup] succeeds and the client can be
    made. *)
Lemma main_start (adsi_NewClient : AdsiClient + error)
    (dnc : AdsiClient -> string + error)
    (config_Domain : AdsiClient -> string -> Domain + error)
    (isMatch : string -> regexSlice -> bool -> bool)
    (f : flags) (client : HelperClient) (fuel : nat) :
  let value :=
    if negb (Present (loopFlag f)) then defaultLoopValue
    else Value (loopFlag f) in
  let made :=
    setup adsi_NewClient dnc config_Domain isMatch
      (groupFlag f) (fromFlag f) (toFlag f) (memberFlag f) (skipFlag f)
      (domainFlag f) in
  negb (Inf (loopFlag f)) && (value =? 0)%Z = false ->
  snd (fst made) = None ->
  exists pre,
    Forall of_the_start pre /\
    main adsi_NewClient dnc config_Domain isMatch (inl client) f fuel
    = if Inf (loopFlag f) then
        infinite_loop f fuel (fst (fst (fst made))) client
          (snd (fst (fst made))) 0 pre
      else
        let done :=
          finite_loop f fuel value (fst (fst (fst made))) client
            (snd (fst (fst made))) 0 pre in
        match fst done with
        | Returns => (Returns, snd done ++ [OutCancel])
        | other => (other, snd done)
        end.
Proof.
  cbv zeta. intros Hgo Hok. unfold main. cbv zeta. rewrite Hgo, Hok.
  eexists. split; [|reflexivity].
  assert (Forall of_the_start
            ((OutSetup <$> snd (setup adsi_NewClient dnc config_Domain isMatch
                                  (groupFlag f) (fromFlag f) (toFlag f)
                                  (memberFlag f) (skipFlag f) (domainFlag f)))
             ++ [OutNewClient (inl client)])) as H1.
  { apply Forall_app. split; [|by repeat constructor].
    apply Forall_fmap, Forall_forall. done. }
  apply Forall_app in H1.
  destruct (0 <? cacheSecondsFlag f)%Z;
    destruct (negb (Inf (timeoutSecondsFlag f)) && _);
    rewrite ?Forall_app; repeat split; try apply H1;
    by repeat constructor.
Qed.

(** X23.  With a finite [-loop] of [n] (1 when the flag is absent) the command
    does nothing at all for [n = 0]: no directory is asked and no client
    made.  Otherwise a failure of [setup] or of [helper.NewClient] ends the
    process before any run.  When both succeed it returns after exactly
    [n] runs, numbered 0 to [n - 1] in order, all on the domain and
    connections that [setup] returned and on the one client, with [n - 1]
    sleeps of the delay between them, and it cancels the context once, as
    the last thing it does. *)
Theorem finite_main_runs (adsi_NewClient : AdsiClient + error)
    (dnc : AdsiClient -> string + error)
    (config_Domain : AdsiClient -> string -> Domain + error)
    (isMatch : string -> regexSlice -> bool -> bool)
    (helper_NewClient : HelperClient + error)
    (f : flags) (fuel : nat) :
  Inf (loopFlag f) = false ->
  let value :=
    if negb (Present (loopFlag f)) then defaultLoopValue
    else Value (loopFlag f) in
  (0 <= value < 2 ^ 64)%Z ->
  Z.to_nat value <= fuel ->
  let made :=
    setup adsi_NewClient dnc config_Domain isMatch
      (groupFlag f) (fromFlag f) (toFlag f) (memberFlag f) (skipFlag f)
      (domainFlag f) in
  let out :=
    main adsi_NewClient dnc config_Domain isMatch helper_NewClient f fuel in
  if decide (value = 0%Z) then out = (Returns, [])
  else
    match snd (fst made), helper_NewClient with
    | Some err, _ => out = (Exits, (OutSetup <$> snd made) ++ [OutFatal err])
    | None, inr err =>
        out = (Exits, ((OutSetup <$> snd made)
                       ++ [OutNewClient (inr err)]) ++ [OutFatal err])
    | None, inl client =>
        fst out = Returns /\
        iterations (snd out) = seqZ 0 value /\
        sleeps (snd out)
        = replicate (Z.to_nat value - 1) (seconds (delaySecondsFlag f)) /\
        (exists before, snd out = before ++ [OutCancel] /\ (OutCancel ∉ before)) /\
        (forall d i m c cs,
            OutRun d i m c cs ∈ snd out ->
            d = fst (fst (fst made)) /\ m = minFlag f /\ c = client /\
            cs = snd (fst (fst made)))
    end.
Proof.
  intros Hinf value Hvalue Hfuel made out.
  destruct (decide (value = 0%Z)) as [Hz|Hnz].
  { unfold out, main. cbv zeta. fold value. rewrite Hinf, Hz. done. }
  assert (negb (Inf (loopFlag f)) && (value =? 0)%Z = false) as Hgo.
  { rewrite Hinf. simpl. by apply Z.eqb_neq. }
  destruct (snd (fst made)) as [err|] eqn:Hmade.
  { unfold out, main. cbv zeta. fold value made. by rewrite Hgo, Hmade. }
  destruct helper_NewClient as [client|err].
  2:{ unfold out, main. cbv zeta. fold value made. by rewrite Hgo, Hmade. }
  destruct (main_start adsi_NewClient dnc config_Domain isMatch f client fuel
              Hgo Hmade) as (pre & Hpre & Hmain).
  fold value made in Hmain. rewrite Hinf in Hmain. cbv zeta in Hmain.
  destruct (finite_loop_spec f (fst (fst (fst made))) client
              (snd (fst (fst made))) value (Z.to_nat value) ltac:(lia)
              0%Z pre fuel) as (more & Hloop & Hi & Hs & Hall); [lia..|].
  rewrite Hloop in Hmain. cbn [fst snd] in Hmain.
  unfold out. rewrite Hmain. cbn [fst snd].
  destruct (start_is_quiet pre Hpre) as (Pi & Ps & Pc & Pr).
  split; [done|]. split.
  { rewrite !iterations_app, Pi, Hi, Z2Nat.id by lia. by rewrite app_nil_r. }
  split.
  { rewrite !sleeps_app, Ps, Hs. by rewrite app_nil_r. }
  split.
  { exists (pre ++ more). split; [done|].
    intros [?|?]%elem_of_app; [done|].
    by eapply loop_has_no_cancel. }
  intros d i m c cs [[Hin|Hin]%elem_of_app|Hin]%elem_of_app.
  - by destruct (Pr d i m c cs).
  - rewrite Forall_forall in Hall. exact (Hall _ Hin).
  - apply list_elem_of_singleton in Hin. done.
Qed.

Lemma finite_main_runs_witness :
  let out := main (inl 1) (fun _ => inl "example"%string) one_domain
               literal_match (inl 2) once 2 in
  fst out = Returns /\
  iterations (snd out) = seqZ 0 2 /\
  sleeps (snd out) = replicate (Z.to_nat 2 - 1) (seconds 5).
Proof.
  pose proof (finite_main_runs (inl 1) (fun _ => inl "example"%string)
                one_domain literal_match (inl 2) once 2 eq_refl) as H.
  cbv zeta in H. simpl in H.
  destruct H as (H1 & H2 & H3 & _); [lia|lia|].
  split; [exact H1|]. split; [exact H2|exact H3].
Defined.

(** X24.  With [-loop infinite] the command never returns once [setup] and
    [helper.NewClient] have succeeded: however long it is left running it
    is still in its loop, having slept the delay after every run, and it
    never cancels the context. *)
Theorem infinite_main_keeps_running (adsi_NewClient : AdsiClient + error)
    (dnc : AdsiClient -> string + error)
    (config_Domain : AdsiClient -> string -> Domain + error)
    (isMatch : string -> regexSlice -> bool -> bool)
    (client : HelperClient) (f : flags) (fuel : nat) :
  Inf (loopFlag f) = true ->
  snd (fst (setup adsi_NewClient dnc config_Domain isMatch
              (groupFlag f) (fromFlag f) (toFlag f) (memberFlag f)
              (skipFlag f) (domainFlag f))) = None ->
  let out :=
    main adsi_NewClient dnc config_Domain isMatch (inl client) f fuel in
  fst out = Loops /\
  length (iterations (snd out)) = fuel /\
  sleeps (snd out) = replicate fuel (seconds (delaySecondsFlag f)) /\
  OutCancel ∉ snd out.
Proof.
  intros Hinf Hmade out.
  destruct (main_start adsi_NewClient dnc config_Domain isMatch f client fuel)
    as (pre & Hpre & Hmain).
  { by rewrite Hinf. }
  { exact Hmade. }
  rewrite Hinf in Hmain.
  destruct (infinite_loop_spec f
              (fst (fst (fst (setup adsi_NewClient dnc config_Domain isMatch
                                (groupFlag f) (fromFlag f) (toFlag f)
                                (memberFlag f) (skipFlag f) (domainFlag f)))))
              client
              (snd (fst (fst (setup adsi_NewClient dnc config_Domain isMatch
                                (groupFlag f) (fromFlag f) (toFlag f)
                                (memberFlag f) (skipFlag f) (domainFlag f)))))
              fuel 0%Z pre) as (more & Hloop & Hi & Hs & Hall).
  rewrite Hloop in Hmain. unfold out. rewrite Hmain. cbn [fst snd].
  destruct (start_is_quiet pre Hpre) as (Pi & Ps & Pc & Pr).
  split; [done|]. split.
  { by rewrite iterations_app, Pi. }
  split.
  { by rewrite sleeps_app, Ps. }
  intros [?|?]%elem_of_app; [done|]. by eapply loop_has_no_cancel.
Qed.

Lemma infinite_main_keeps_running_witness :
  let out := main (inl 1) (fun _ => inl "example"%string) one_domain
               literal_match (inl 2)
               (mkFlags "example" [] [] [] [] (mkUintOrInf true true 0)
                  (mkUintOrInf false false 0) 5 0 [] 0) 3 in
  fst out = Loops /\ length (iterations (snd out)) = 3.
Proof.
  destruct (infinite_main_keeps_running (inl 1)
              (fun _ => inl "example"%string) one_domain literal_match 2
              (mkFlags "example" [] [] [] [] (mkUintOrInf true true 0)
                 (mkUintOrInf false false 0) 5 0 [] 0) 3 eq_refl eq_refl)
    as (H1 & H2 & _).
  split; [exact H1|exact H2].
Defined.

End CommandFacts.
